(** * Morph blending, vertex weights and skinning of ComfyUI_VNCCS

    A shallow embedding of the numerical core of the character modules:
    [CharacterData/mh_parser.py] (factor table and morph-target blending),
    [CharacterData/mh_skeleton.py] (vertex-bone weights, weight
    retargeting, bone pose matrices), the linear-blend skinning of
    [__init__.py] and [nodes/pose_studio.py], one step of the CCD loop of
    [nodes/ik_solver.py] and the pose reset of [nodes/pose_transfer.py].

    Python floats are idealised as exact rationals in canonical form
    ([Qc], so that equality is Leibniz), except for the IK step, whose
    square roots and trigonometry are modelled on the reals. *)

From Stdlib Require Import QArith Qcanon Lqa List String Bool Arith Lia
  ZArith Permutation Sorted.
Import ListNotations.

(* ------------------------------------------------------------------ *)
(** ** Rational helpers *)

Module QcFacts.
Open Scope Qc_scope.

Lemma qc_plus (a b : Qc) : (this (a + b) == this a + this b)%Q.
Proof. apply Qred_correct. Qed.

Lemma qc_mult (a b : Qc) : (this (a * b) == this a * this b)%Q.
Proof. apply Qred_correct. Qed.

Lemma qc_q2qc (q : Q) : (this (Q2Qc q) == q)%Q.
Proof. apply Qred_correct. Qed.

Lemma qc_minus (a b : Qc) : (this (a - b) == this a - this b)%Q.
Proof. unfold Qcminus, Qcopp. rewrite qc_plus, qc_q2qc. reflexivity. Qed.

End QcFacts.

(** Move a goal and hypotheses about [Qc] to [Q], where [lra] works. *)
Ltac to_q :=
  unfold Qcle, Qclt in *; try apply Qc_is_canon;
  repeat (rewrite ?QcFacts.qc_plus, ?QcFacts.qc_mult, ?QcFacts.qc_minus,
                  ?QcFacts.qc_q2qc in * ).

Open Scope Qc_scope.
Open Scope string_scope.

(** Python's [max(a, b)] keeps [a] unless [b > a]; [min(a, b)] keeps [a]
    unless [b < a]. *)
Definition pymax (a b : Qc) : Qc := if Qclt_le_dec a b then b else a.
Definition pymin (a b : Qc) : Qc := if Qclt_le_dec b a then b else a.

(** Float literals of the source. *)
Definition q (x : Q) : Qc := Q2Qc x.

(* ------------------------------------------------------------------ *)
(** ** Python dictionaries with string keys *)

(** A dict in insertion order; assignment to an existing key updates it
    in place, as in CPython. *)
Definition pydict (V : Type) := list (string * V).

Fixpoint dict_set {V} (k : string) (v : V) (d : pydict V) : pydict V :=
  match d with
  | [] => [(k, v)]
  | (k', v') :: d' =>
      if String.eqb k k' then (k, v) :: d' else (k', v') :: dict_set k v d'
  end.

(** [d.get(k, default)] *)
Fixpoint dict_get {V} (k : string) (d : pydict V) (default : V) : V :=
  match d with
  | [] => default
  | (k', v') :: d' => if String.eqb k k' then v' else dict_get k d' default
  end.

(* ------------------------------------------------------------------ *)
(** ** [HumanSolver.calculate_factors] (mh_parser.py) *)

(** Values that the source reads back from the table right after storing
    them ([factors['young']], [factors['maxmuscle']], ...) are bound to a
    local name here; the table itself is built by the same sequence of
    assignments as in the source. *)
Definition calculate_factors
    (age gender weight muscle height breast_size genital_size : Qc)
    : pydict Qc :=
  let f : pydict Qc := [] in
  (* Gender *)
  let f := dict_set "male" gender f in
  let f := dict_set "female" (1 - gender) f in
  (* Age *)
  let f :=
    if Qclt_le_dec age (q 0.5) then
      let f := dict_set "old" 0 f in
      let f := dict_set "baby" (pymax 0 (1 - age * q 5.333)) f in
      let young := pymax 0 ((age - q 0.1875) * q 3.2) in
      let f := dict_set "young" young f in
      dict_set "child" (pymax 0 (pymin 1 (q 5.333 * age) - young)) f
    else
      let f := dict_set "child" 0 f in
      let f := dict_set "baby" 0 f in
      let old := pymax 0 (age * q 2 - 1) in
      let f := dict_set "old" old f in
      dict_set "young" (1 - old) f in
  (* Muscle *)
  let maxmuscle := pymax 0 (muscle * q 2 - 1) in
  let minmuscle := pymax 0 (1 - muscle * q 2) in
  let f := dict_set "maxmuscle" maxmuscle f in
  let f := dict_set "minmuscle" minmuscle f in
  let f := dict_set "averagemuscle" (1 - (maxmuscle + minmuscle)) f in
  (* Weight *)
  let maxweight := pymax 0 (weight * q 2 - 1) in
  let minweight := pymax 0 (1 - weight * q 2) in
  let f := dict_set "maxweight" maxweight f in
  let f := dict_set "minweight" minweight f in
  let f := dict_set "averageweight" (1 - (maxweight + minweight)) f in
  (* Height *)
  let maxheight := pymax 0 (height * q 2 - 1) in
  let minheight := pymax 0 (1 - height * q 2) in
  let f := dict_set "maxheight" maxheight f in
  let f := dict_set "minheight" minheight f in
  let f := dict_set "averageheight" (1 - (maxheight + minheight)) f in
  (* Race (internal defaults) *)
  let f := dict_set "african" (q 0.333) f in
  let f := dict_set "asian" (q 0.333) f in
  let f := dict_set "caucasian" (q 0.334) f in
  (* Breast size (cup) *)
  let maxcup := pymax 0 (breast_size * q 2 - 1) in
  let mincup := pymax 0 (1 - breast_size * q 2) in
  let f := dict_set "maxcup" maxcup f in
  let f := dict_set "mincup" mincup f in
  let f := dict_set "averagecup" (1 - (maxcup + mincup)) f in
  (* Firmness *)
  let f := dict_set "maxfirmness" 0 f in
  let f := dict_set "minfirmness" 0 f in
  let f := dict_set "averagefirmness" 1 f in
  (* Genitals *)
  let length_incr := pymax 0 (genital_size * q 2 - 1) in
  let length_decr := pymax 0 (1 - genital_size * q 2) in
  let f := dict_set "penis-length-incr" length_incr f in
  let f := dict_set "penis-length-decr" length_decr f in
  let f := dict_set "penis-testicles-incr" length_incr f in
  let f := dict_set "penis-testicles-decr" length_decr f in
  let f := dict_set "penis-circ-incr" 0 f in
  let f := dict_set "penis-circ-decr" 0 f in
  (* Universal *)
  dict_set "universal" 1 f.

(** A factor read back from the table, [factors[k]]. *)
Definition fget (f : pydict Qc) (k : string) : Qc := dict_get k f 0.

Definition in01 (x : Qc) : Prop := 0 <= x /\ x <= 1.

Example calculate_factors_mid :
  fget (calculate_factors (q 0.5) (q 0.5) (q 0.5) (q 0.5) (q 0.5) (q 0.5) (q 0.5))
    "averagemuscle" = 1.
Proof. vm_compute. reflexivity. Qed.

(** Reading the table back: the age entries depend on the branch taken
    at [age < 0.5]; the other entries do not. *)
Section FactorLookups.
Variables age gender weight muscle height breast_size genital_size : Qc.
Let F := calculate_factors age gender weight muscle height breast_size genital_size.

Lemma fget_age_entries :
  (fget F "baby", fget F "child", fget F "young", fget F "old") =
  if Qclt_le_dec age (q 0.5) then
    (pymax 0 (1 - age * q 5.333),
     pymax 0 (pymin 1 (q 5.333 * age) - pymax 0 ((age - q 0.1875) * q 3.2)),
     pymax 0 ((age - q 0.1875) * q 3.2), 0)
  else (0, 0, 1 - pymax 0 (age * q 2 - 1), pymax 0 (age * q 2 - 1)).
Proof.
  unfold F, calculate_factors.
  destruct (Qclt_le_dec age (q 0.5)); reflexivity.
Qed.

Lemma fget_other_entries :
  (fget F "male", fget F "female",
   (fget F "maxmuscle", fget F "minmuscle", fget F "averagemuscle"),
   (fget F "maxweight", fget F "minweight", fget F "averageweight"),
   (fget F "maxheight", fget F "minheight", fget F "averageheight"),
   (fget F "maxcup", fget F "mincup", fget F "averagecup")) =
  (gender, 1 - gender,
   (pymax 0 (muscle * q 2 - 1), pymax 0 (1 - muscle * q 2),
    1 - (pymax 0 (muscle * q 2 - 1) + pymax 0 (1 - muscle * q 2))),
   (pymax 0 (weight * q 2 - 1), pymax 0 (1 - weight * q 2),
    1 - (pymax 0 (weight * q 2 - 1) + pymax 0 (1 - weight * q 2))),
   (pymax 0 (height * q 2 - 1), pymax 0 (1 - height * q 2),
    1 - (pymax 0 (height * q 2 - 1) + pymax 0 (1 - height * q 2))),
   (pymax 0 (breast_size * q 2 - 1), pymax 0 (1 - breast_size * q 2),
    1 - (pymax 0 (breast_size * q 2 - 1) + pymax 0 (1 - breast_size * q 2)))).
Proof.
  unfold F, calculate_factors.
  destruct (Qclt_le_dec age (q 0.5)); reflexivity.
Qed.

End FactorLookups.

Ltac split_py :=
  unfold pymax, pymin;
  repeat match goal with
         | |- context [Qclt_le_dec ?a ?b] => destruct (Qclt_le_dec a b)
         | H : context [Qclt_le_dec ?a ?b] |- _ => destruct (Qclt_le_dec a b)
         end.

(** The age entries sum to one on the whole age range [0, 1]. *)
Lemma age_entries_sum (age : Qc) :
  in01 age ->
  (if Qclt_le_dec age (q 0.5) then
     pymax 0 (1 - age * q 5.333)
     + pymax 0 (pymin 1 (q 5.333 * age) - pymax 0 ((age - q 0.1875) * q 3.2))
     + pymax 0 ((age - q 0.1875) * q 3.2) + 0
   else 0 + 0 + (1 - pymax 0 (age * q 2 - 1)) + pymax 0 (age * q 2 - 1)) = 1.
Proof.
  intros [H0 H1]. unfold q in *.
  destruct (Qclt_le_dec age (Q2Qc 0.5)) as [Hlt | Hge]; split_py; to_q; lra.
Qed.

(* ------------------------------------------------------------------ *)
(** ** Claim C1 *)

(** C1. For sliders in [0, 1], [calculate_factors] returns a table in
    which each bipolar triple (muscle, weight, height, cup) sums to 1,
    [male + female = 1], and [baby + child + young + old = 1]. *)
Theorem calculate_factors_partition_of_unity
    (age gender weight muscle height breast_size genital_size : Qc) :
  in01 age -> in01 gender -> in01 weight -> in01 muscle -> in01 height ->
  in01 breast_size -> in01 genital_size ->
  let F := calculate_factors age gender weight muscle height breast_size
             genital_size in
  fget F "maxmuscle" + fget F "minmuscle" + fget F "averagemuscle" = 1 /\
  fget F "maxweight" + fget F "minweight" + fget F "averageweight" = 1 /\
  fget F "maxheight" + fget F "minheight" + fget F "averageheight" = 1 /\
  fget F "maxcup" + fget F "mincup" + fget F "averagecup" = 1 /\
  fget F "male" + fget F "female" = 1 /\
  fget F "baby" + fget F "child" + fget F "young" + fget F "old" = 1.
Proof.
  intros Ha _ _ _ _ _ _ F.
  pose proof (fget_other_entries age gender weight muscle height breast_size
                genital_size) as HO.
  pose proof (fget_age_entries age gender weight muscle height breast_size
                genital_size) as HA.
  pose proof (age_entries_sum age Ha) as HS.
  fold F in HO, HA.
  injection HO as Hm Hf Hmu1 Hmu2 Hmu3 Hw1 Hw2 Hw3 Hh1 Hh2 Hh3 Hc1 Hc2 Hc3.
  rewrite Hm, Hf, Hmu1, Hmu2, Hmu3, Hw1, Hw2, Hw3, Hh1, Hh2, Hh3, Hc1, Hc2, Hc3.
  repeat split; try ring.
  destruct (Qclt_le_dec age (q 0.5));
    injection HA as Hb Hc Hy Ho; rewrite Hb, Hc, Hy, Ho; exact HS.
Qed.

Lemma calculate_factors_partition_of_unity_witness :
  in01 (q 0.3) /\
  let F := calculate_factors (q 0.3) (q 0.5) (q 0.5) (q 0.5) (q 0.5) (q 0.5)
             (q 0.5) in
  fget F "baby" + fget F "child" + fget F "young" + fget F "old" = 1.
Proof.
  assert (H : in01 (q 0.3)) by (split; vm_compute; discriminate).
  assert (H5 : in01 (q 0.5)) by (split; vm_compute; discriminate).
  split; [exact H|].
  apply (calculate_factors_partition_of_unity (q 0.3) (q 0.5) (q 0.5) (q 0.5)
           (q 0.5) (q 0.5) (q 0.5) H H5 H5 H5 H5 H5 H5).
Defined.

(* ------------------------------------------------------------------ *)
(** ** Vertices and sparse morph targets *)

Record vec3 := V3 { vx : Qc; vy : Qc; vz : Qc }.

Definition vzero : vec3 := V3 0 0 0.
Definition vadd (a b : vec3) : vec3 := V3 (vx a + vx b) (vy a + vy b) (vz a + vz b).
(** [deltas * weight], element by element *)
Definition vscale_r (d : vec3) (w : Qc) : vec3 := V3 (vx d * w) (vy d * w) (vz d * w).

(** A tag value of [TargetParser._parse_filename]: a string, or [True]
    for the [universal] flag. *)
Inductive tagval := TagTrue | TagStr (s : string).

(** A target entry: its tags (a dict category -> value, in insertion
    order) and its loaded data [(indices, deltas)], kept as pairs since
    the loader appends both together. *)
Record target := Target {
  tags : list (string * tagval);
  tdata : option (list (Z * vec3))
}.

(** numpy indexing of an axis of length [n]: negative indices count from
    the end, anything else out of range raises [IndexError] ([None]). *)
Definition norm_index (n : nat) (i : Z) : option nat :=
  if (0 <=? i)%Z && (i <? Z.of_nat n)%Z then Some (Z.to_nat i)
  else if (- Z.of_nat n <=? i)%Z && (i <? 0)%Z then Some (Z.to_nat (Z.of_nat n + i))
  else None.

Fixpoint norm_all {A} (n : nat) (l : list (Z * A)) : option (list (nat * A)) :=
  match l with
  | [] => Some []
  | (i, a) :: l' =>
      match norm_index n i, norm_all n l' with
      | Some p, Some ps => Some ((p, a) :: ps)
      | _, _ => None
      end
  end.

(** [l[n] = x] on an index already checked to be in range. *)
Fixpoint list_set {A} (l : list A) (n : nat) (x : A) : list A :=
  match l, n with
  | [], _ => []
  | _ :: l', O => x :: l'
  | y :: l', S n' => y :: list_set l' n' x
  end.

(** Assignment through an index array, [a[idx] = vals]: the writes happen
    in order, so for a repeated index the last one wins. *)
Definition scatter {A} (l : list A) (writes : list (nat * A)) : list A :=
  fold_left (fun acc '(p, x) => list_set acc p x) writes l.

(** [new_verts[indices] += deltas * weight]: numpy gathers
    [new_verts[indices]] first, adds, then assigns back through the index
    array (unbuffered, so repeated indices do not accumulate). *)
Definition iadd_at (verts : list vec3) (upd : list (Z * vec3)) (w : Qc)
    : option (list vec3) :=
  match norm_all (List.length verts) upd with
  | None => None
  | Some ps =>
      Some (scatter verts
              (map (fun '(p, d) => (p, vadd (nth p verts vzero) (vscale_r d w))) ps))
  end.

(** [factors.get('universal', 1.0)] for a boolean tag, else
    [factors.get(tag_val, 0.0)]. *)
Definition tag_factor (factors : pydict Qc) (tv : tagval) : Qc :=
  match tv with
  | TagTrue => dict_get "universal" factors 1
  | TagStr s => dict_get s factors 0
  end.

(** The weight loop of [solve_mesh]: [None] when the running product drops
    below [0.001] ([relevant = False; break]). *)
Fixpoint target_weight (factors : pydict Qc) (weight : Qc)
    (ts : list (string * tagval)) : option Qc :=
  match ts with
  | [] => Some weight
  | (_, tv) :: ts' =>
      let weight := weight * tag_factor factors tv in
      if Qclt_le_dec weight (q 0.001) then None
      else target_weight factors weight ts'
  end.

(** One iteration of the target loop of [HumanSolver.solve_mesh]. *)
Definition apply_target (factors : pydict Qc) (verts : list vec3) (t : target)
    : option (list vec3) :=
  match target_weight factors 1 (tags t) with
  | None => Some verts
  | Some w =>
      match tdata t with
      | None => Some verts
      | Some upd => iadd_at verts upd w
      end
  end.

(** [HumanSolver.solve_mesh base_mesh targets factors]; [None] when numpy
    raises. *)
Fixpoint solve_mesh_from (factors : pydict Qc) (verts : list vec3)
    (targets : list target) : option (list vec3) :=
  match targets with
  | [] => Some verts
  | t :: ts =>
      match apply_target factors verts t with
      | None => None
      | Some verts' => solve_mesh_from factors verts' ts
      end
  end.

Definition solve_mesh (base_vertices : list vec3) (targets : list target)
    (factors : pydict Qc) : option (list vec3) :=
  solve_mesh_from factors base_vertices targets.

(** The blending the C4 sentence compares against: every target applied
    with its full tag-factor product, without the early skip. *)
Definition full_weight (factors : pydict Qc) (ts : list (string * tagval)) : Qc :=
  fold_left (fun w '(_, tv) => w * tag_factor factors tv) ts 1.

Definition apply_target_full (factors : pydict Qc) (verts : list vec3)
    (t : target) : option (list vec3) :=
  match tdata t with
  | None => Some verts
  | Some upd => iadd_at verts upd (full_weight factors (tags t))
  end.

Fixpoint solve_mesh_full (factors : pydict Qc) (verts : list vec3)
    (targets : list target) : option (list vec3) :=
  match targets with
  | [] => Some verts
  | t :: ts =>
      match apply_target_full factors verts t with
      | None => None
      | Some verts' => solve_mesh_full factors verts' ts
      end
  end.

Example solve_mesh_example :
  solve_mesh [V3 0 0 0; V3 1 1 1]
    [Target [("gender", TagStr "male")] (Some [(1%Z, V3 (q 2) 0 0); ((-2)%Z, V3 0 (q 4) 0)])]
    (calculate_factors (q 0.5) (q 0.5) (q 0.5) (q 0.5) (q 0.5) (q 0.5) (q 0.5))
  = Some [V3 0 (q 2) 0; V3 (q 2) 1 1].
Proof. vm_compute. reflexivity. Qed.

(* ------------------------------------------------------------------ *)
(** ** Facts about index assignment *)

Lemma length_list_set {A} (l : list A) n x : List.length (list_set l n x) = List.length l.
Proof. revert n; induction l as [|y l IH]; intros [|n]; simpl; auto. Qed.

Lemma nth_list_set {A} (l : list A) n x p d :
  (n < List.length l)%nat ->
  nth p (list_set l n x) d = if Nat.eqb p n then x else nth p l d.
Proof.
  revert n p; induction l as [|y l IH]; intros n p Hn; simpl in Hn; [lia|].
  destruct n as [|n], p as [|p]; simpl; auto.
  apply IH; lia.
Qed.

(** The value a sequence of writes leaves at position [p], if any. *)
Fixpoint last_write {A} (p : nat) (ws : list (nat * A)) : option A :=
  match ws with
  | [] => None
  | (p', x) :: ws' =>
      match last_write p ws' with
      | Some y => Some y
      | None => if Nat.eqb p p' then Some x else None
      end
  end.

Lemma length_scatter {A} (l : list A) ws :
  List.length (scatter l ws) = List.length l.
Proof.
  unfold scatter; revert l; induction ws as [|[p x] ws IH]; intros l; simpl; auto.
  rewrite IH. apply length_list_set.
Qed.

Lemma nth_scatter {A} (l : list A) ws p d :
  (forall p' x, In (p', x) ws -> (p' < List.length l)%nat) ->
  nth p (scatter l ws) d =
  match last_write p ws with Some x => x | None => nth p l d end.
Proof.
  unfold scatter; revert l; induction ws as [|[p' x] ws IH]; intros l Hws; simpl; auto.
  rewrite IH.
  - destruct (last_write p ws); auto.
    rewrite nth_list_set by (apply (Hws p' x); left; reflexivity).
    destruct (Nat.eqb p p'); reflexivity.
  - intros p'' y Hin. rewrite length_list_set. apply (Hws p'' y). right; exact Hin.
Qed.

Lemma norm_index_lt n i p : norm_index n i = Some p -> (p < n)%nat.
Proof.
  unfold norm_index.
  destruct ((0 <=? i)%Z && (i <? Z.of_nat n)%Z) eqn:E1.
  - intros H; injection H as <-. apply andb_prop in E1 as [E1 E2].
    apply Z.leb_le in E1; apply Z.ltb_lt in E2. lia.
  - destruct ((- Z.of_nat n <=? i)%Z && (i <? 0)%Z) eqn:E2; [|discriminate].
    intros H; injection H as <-. apply andb_prop in E2 as [E2 E3].
    apply Z.leb_le in E2; apply Z.ltb_lt in E3. lia.
Qed.

Lemma norm_all_lt {A} n (l : list (Z * A)) ps :
  norm_all n l = Some ps -> forall p a, In (p, a) ps -> (p < n)%nat.
Proof.
  revert ps; induction l as [|[i a] l IH]; intros ps H; simpl in H.
  - injection H as <-. intros p b [].
  - destruct (norm_index n i) as [p0|] eqn:Ei; [|discriminate].
    destruct (norm_all n l) as [ps0|] eqn:El; [|discriminate].
    injection H as <-. intros p b [Hpb | Hin].
    + injection Hpb as <- <-. eapply norm_index_lt; eauto.
    + eapply IH; eauto.
Qed.

Lemma last_write_map {A B} (g : nat -> A -> B) p (ps : list (nat * A)) :
  last_write p (map (fun '(p', a) => (p', g p' a)) ps) =
  option_map (g p) (last_write p ps).
Proof.
  induction ps as [|[p' a] ps IH]; simpl; auto.
  rewrite IH. destruct (last_write p ps); simpl; auto.
  destruct (Nat.eqb p p') eqn:E; simpl; auto.
  apply Nat.eqb_eq in E; subst; reflexivity.
Qed.

(** The effect of [iadd_at] at one position. *)
Definition bump (x : vec3) (o : option vec3) (w : Qc) : vec3 :=
  match o with Some d => vadd x (vscale_r d w) | None => x end.

Lemma iadd_at_spec verts upd w ps :
  norm_all (List.length verts) upd = Some ps ->
  exists verts',
    iadd_at verts upd w = Some verts' /\
    List.length verts' = List.length verts /\
    forall p, (p < List.length verts)%nat ->
      nth p verts' vzero = bump (nth p verts vzero) (last_write p ps) w.
Proof.
  intros Hn. unfold iadd_at. rewrite Hn. eexists; split; [reflexivity|split].
  - apply length_scatter.
  - intros p Hp. rewrite nth_scatter.
    + rewrite (last_write_map (fun p' d => vadd (nth p' verts vzero) (vscale_r d w))).
      destruct (last_write p ps); reflexivity.
    + intros p' x Hin. apply in_map_iff in Hin as [[p0 d] [Heq Hin]].
      injection Heq as <- _. eapply norm_all_lt; eauto.
Qed.

Lemma iadd_at_none verts upd w :
  norm_all (List.length verts) upd = None -> iadd_at verts upd w = None.
Proof. intros Hn. unfold iadd_at. rewrite Hn. reflexivity. Qed.

Lemma bump_comm x o1 w1 o2 w2 :
  bump (bump x o1 w1) o2 w2 = bump (bump x o2 w2) o1 w1.
Proof.
  destruct o1 as [d1|], o2 as [d2|]; simpl; auto.
  unfold vadd, vscale_r; simpl. f_equal; ring.
Qed.

Lemma iadd_at_comm v u1 w1 u2 w2 :
  match iadd_at v u1 w1 with None => None | Some v' => iadd_at v' u2 w2 end =
  match iadd_at v u2 w2 with None => None | Some v' => iadd_at v' u1 w1 end.
Proof.
  destruct (norm_all (List.length v) u1) as [ps1|] eqn:E1;
  destruct (norm_all (List.length v) u2) as [ps2|] eqn:E2.
  - destruct (iadd_at_spec v u1 w1 ps1 E1) as [v1 [-> [L1 N1]]].
    destruct (iadd_at_spec v u2 w2 ps2 E2) as [v2 [-> [L2 N2]]].
    rewrite <- L1 in E2. rewrite <- L2 in E1.
    destruct (iadd_at_spec v1 u2 w2 ps2 E2) as [v12 [-> [L12 N12]]].
    destruct (iadd_at_spec v2 u1 w1 ps1 E1) as [v21 [-> [L21 N21]]].
    f_equal. apply nth_ext with (d := vzero) (d' := vzero).
    + congruence.
    + intros p Hp. rewrite L12, L1 in Hp.
      rewrite N12, N21, N1, N2 by congruence. apply bump_comm.
  - destruct (iadd_at_spec v u1 w1 ps1 E1) as [v1 [-> [L1 _]]].
    rewrite (iadd_at_none v u2 w2 E2). apply iadd_at_none. congruence.
  - destruct (iadd_at_spec v u2 w2 ps2 E2) as [v2 [-> [L2 _]]].
    rewrite (iadd_at_none v u1 w1 E1). symmetry. apply iadd_at_none. congruence.
  - rewrite (iadd_at_none v u1 w1 E1), (iadd_at_none v u2 w2 E2). reflexivity.
Qed.

(** What one target contributes, independently of the current vertices. *)
Definition target_update (factors : pydict Qc) (t : target)
    : option (list (Z * vec3) * Qc) :=
  match target_weight factors 1 (tags t) with
  | None => None
  | Some w => match tdata t with None => None | Some upd => Some (upd, w) end
  end.

Lemma apply_target_update factors verts t :
  apply_target factors verts t =
  match target_update factors t with
  | None => Some verts
  | Some (upd, w) => iadd_at verts upd w
  end.
Proof.
  unfold apply_target, target_update.
  destruct (target_weight factors 1 (tags t)); [|reflexivity].
  destruct (tdata t); reflexivity.
Qed.

Lemma apply_target_comm factors v t1 t2 :
  match apply_target factors v t1 with
  | None => None | Some v' => apply_target factors v' t2 end =
  match apply_target factors v t2 with
  | None => None | Some v' => apply_target factors v' t1 end.
Proof.
  rewrite (apply_target_update factors v t1), (apply_target_update factors v t2).
  destruct (target_update factors t1) as [[u1 w1]|] eqn:E1;
  destruct (target_update factors t2) as [[u2 w2]|] eqn:E2.
  - transitivity
      (match iadd_at v u1 w1 with None => None | Some v' => iadd_at v' u2 w2 end).
    { destruct (iadd_at v u1 w1); [|reflexivity].
      rewrite apply_target_update, E2. reflexivity. }
    rewrite iadd_at_comm.
    destruct (iadd_at v u2 w2); [|reflexivity].
    rewrite apply_target_update, E1. reflexivity.
  - destruct (iadd_at v u1 w1) eqn:H;
      rewrite ?apply_target_update, ?E1, ?E2, ?H; reflexivity.
  - destruct (iadd_at v u2 w2) eqn:H;
      rewrite ?apply_target_update, ?E1, ?E2, ?H; reflexivity.
  - rewrite !apply_target_update, E1, E2. reflexivity.
Qed.

(* ------------------------------------------------------------------ *)
(** ** Claim C8 *)

(** C8. Applying the morph targets in any permuted order gives the same
    vertices: [solve_mesh] is invariant under permutation of [targets]
    (and fails for one order exactly when it fails for the other). *)
Theorem solve_mesh_permutation_invariant (base : list vec3)
    (targets targets' : list target) (factors : pydict Qc) :
  Permutation targets targets' ->
  solve_mesh base targets factors = solve_mesh base targets' factors.
Proof.
  unfold solve_mesh. intros HP. revert base.
  induction HP as [| t l l' HP IH | t1 t2 l | l l' l'' HP1 IH1 HP2 IH2];
    intros base; simpl.
  - reflexivity.
  - destruct (apply_target factors base t); auto.
  - pose proof (apply_target_comm factors base t2 t1) as Hc.
    destruct (apply_target factors base t2) as [v2|];
    destruct (apply_target factors base t1) as [v1|].
    + rewrite Hc. reflexivity.
    + rewrite Hc. reflexivity.
    + rewrite <- Hc. reflexivity.
    + reflexivity.
  - rewrite IH1. apply IH2.
Qed.

Definition tgt_male : target :=
  Target [("gender", TagStr "male"); ("age", TagStr "young")]
    (Some [(0%Z, V3 1 (q 2) 0); (1%Z, V3 0 0 (q 3))]).
Definition tgt_universal : target :=
  Target [("universal", TagTrue)] (Some [(1%Z, V3 (q 5) 0 0); (0%Z, V3 0 0 1)]).

Lemma solve_mesh_permutation_invariant_witness :
  Permutation [tgt_male; tgt_universal] [tgt_universal; tgt_male] /\
  solve_mesh [vzero; vzero] [tgt_male; tgt_universal]
    (calculate_factors (q 0.3) (q 0.7) (q 0.5) (q 0.5) (q 0.5) (q 0.5) (q 0.5)) =
  solve_mesh [vzero; vzero] [tgt_universal; tgt_male]
    (calculate_factors (q 0.3) (q 0.7) (q 0.5) (q 0.5) (q 0.5) (q 0.5) (q 0.5)).
Proof.
  assert (HP : Permutation [tgt_male; tgt_universal] [tgt_universal; tgt_male])
    by apply perm_swap.
  split; [exact HP|].
  apply (solve_mesh_permutation_invariant [vzero; vzero] _ _ _ HP).
Defined.

(* ------------------------------------------------------------------ *)
(** ** The early skip of [solve_mesh] *)

Definition factors_in01 (factors : pydict Qc) : Prop :=
  forall k v, In (k, v) factors -> in01 v.

Definition in01b (x : Qc) : bool := Qle_bool 0 x && Qle_bool x 1.

Lemma in01b_spec x : in01b x = true -> in01 x.
Proof.
  unfold in01b, in01, Qcle. intros H. apply andb_prop in H as [H1 H2].
  apply Qle_bool_iff in H1, H2. split; assumption.
Qed.

Lemma factors_in01_check (factors : pydict Qc) :
  forallb (fun '(_, v) => in01b v) factors = true -> factors_in01 factors.
Proof.
  intros H k v Hin. rewrite forallb_forall in H.
  apply in01b_spec. apply (H (k, v) Hin).
Qed.

Lemma dict_get_in01 factors k d :
  factors_in01 factors -> in01 d -> in01 (dict_get k factors d).
Proof.
  intros HF Hd. induction factors as [|[k' v'] f IH]; simpl; auto.
  destruct (String.eqb k k').
  - apply (HF k'). left; reflexivity.
  - apply IH. intros k0 v0 Hin. apply (HF k0). right; exact Hin.
Qed.

Lemma tag_factor_in01 factors tv :
  factors_in01 factors -> in01 (tag_factor factors tv).
Proof.
  intros HF. destruct tv; simpl; apply dict_get_in01; auto;
    split; vm_compute; discriminate.
Qed.

Lemma mult_in01_le (w f : Qc) : 0 <= w -> in01 f -> 0 <= w * f /\ w * f <= w.
Proof. intros Hw [Hf0 Hf1]. split; to_q; nra. Qed.

(** The product the loop would reach from [w] without the skip. *)
Definition full_from (factors : pydict Qc) (w : Qc) (ts : list (string * tagval)) : Qc :=
  fold_left (fun w '(_, tv) => w * tag_factor factors tv) ts w.

Lemma full_from_bounds factors w ts :
  factors_in01 factors -> 0 <= w ->
  0 <= full_from factors w ts /\ full_from factors w ts <= w.
Proof.
  intros HF. revert w. induction ts as [|[c tv] ts IH]; intros w Hw; simpl.
  - split; [exact Hw | apply Qcle_refl].
  - destruct (mult_in01_le w (tag_factor factors tv) Hw (tag_factor_in01 factors tv HF))
      as [H0 H1].
    destruct (IH _ H0) as [H2 H3]. split; [exact H2|].
    eapply Qcle_trans; eassumption.
Qed.

Lemma target_weight_full_from factors w ts :
  factors_in01 factors -> q 0.001 <= w ->
  target_weight factors w ts =
  if Qclt_le_dec (full_from factors w ts) (q 0.001) then None
  else Some (full_from factors w ts).
Proof.
  intros HF. revert w. induction ts as [|[c tv] ts IH]; intros w Hw; simpl.
  - destruct (Qclt_le_dec w (q 0.001)) as [Hlt|]; [|reflexivity].
    exfalso. apply (Qcle_not_lt _ _ Hw Hlt).
  - assert (Hw0 : 0 <= w) by (eapply Qcle_trans; [|exact Hw]; vm_compute; discriminate).
    destruct (Qclt_le_dec (w * tag_factor factors tv) (q 0.001)) as [Hlt|Hge].
    + destruct (mult_in01_le w (tag_factor factors tv) Hw0 (tag_factor_in01 factors tv HF))
        as [H0 _].
      destruct (full_from_bounds factors _ ts HF H0) as [_ H2].
      destruct (Qclt_le_dec (full_from factors (w * tag_factor factors tv) ts) (q 0.001))
        as [|Hge']; [reflexivity|].
      exfalso. apply (Qcle_not_lt _ _ Hge'). eapply Qcle_lt_trans; eassumption.
    + apply IH. exact Hge.
Qed.

(* ------------------------------------------------------------------ *)
(** ** Claim C4 *)

(** The sentence of C4, for one input: with factor values in [0, 1], the
    blending with the early skip equals the blending without it. *)
Definition skip_is_noop (base : list vec3) (targets : list target)
    (factors : pydict Qc) : Prop :=
  factors_in01 factors ->
  solve_mesh base targets factors = solve_mesh_full factors base targets.

(** A male target at [gender = 0.0005]: its tag product is [0.0005],
    below [0.001], so it is skipped although its contribution is not 0. *)
Definition tgt_male_small : target :=
  Target [("gender", TagStr "male")] (Some [(0%Z, V3 1 0 0)]).

Definition factors_low_male : pydict Qc :=
  calculate_factors (q 0.5) (q 0.0005) (q 0.5) (q 0.5) (q 0.5) (q 0.5) (q 0.5).

(** C4 (counterexample). The factor table of [calculate_factors] at
    [gender = 0.0005] has all values in [0, 1]; a male target then has
    product weight [0.0005], is skipped, and the result differs from the
    full blending, which moves vertex 0 by [0.0005]. *)
Lemma solve_mesh_skip_not_noop :
  factors_in01 factors_low_male /\
  solve_mesh [vzero] [tgt_male_small] factors_low_male = Some [vzero] /\
  solve_mesh_full factors_low_male [vzero] [tgt_male_small]
    = Some [V3 (q 0.0005) 0 0] /\
  ~ skip_is_noop [vzero] [tgt_male_small] factors_low_male.
Proof.
  assert (HF : factors_in01 factors_low_male)
    by (apply factors_in01_check; vm_compute; reflexivity).
  assert (H1 : solve_mesh [vzero] [tgt_male_small] factors_low_male = Some [vzero])
    by (vm_compute; reflexivity).
  assert (H2 : solve_mesh_full factors_low_male [vzero] [tgt_male_small]
                 = Some [V3 (q 0.0005) 0 0])
    by (vm_compute; apply (f_equal (fun v => Some [v])); f_equal;
        apply Qc_is_canon; reflexivity).
  split; [exact HF|]. split; [exact H1|]. split; [exact H2|].
  intros H. specialize (H HF). rewrite H1, H2 in H. vm_compute in H. discriminate.
Qed.

(** C4 (amended). With factor values in [0, 1], the running product only
    decreases, so the early skip drops exactly the targets whose full
    tag-factor product is below [0.001]: [solve_mesh] equals the blending
    of the remaining targets, each with its full product as weight. *)
Theorem solve_mesh_drops_low_weight_targets (base : list vec3)
    (targets : list target) (factors : pydict Qc) :
  factors_in01 factors ->
  solve_mesh base targets factors =
  solve_mesh_full factors base
    (filter (fun t => if Qclt_le_dec (full_weight factors (tags t)) (q 0.001)
                      then false else true) targets).
Proof.
  intros HF. unfold solve_mesh. revert base.
  induction targets as [|t ts IH]; intros base; simpl; [reflexivity|].
  unfold apply_target.
  rewrite (target_weight_full_from factors 1 (tags t) HF)
    by (vm_compute; discriminate).
  change (full_from factors 1 (tags t)) with (full_weight factors (tags t)).
  destruct (Qclt_le_dec (full_weight factors (tags t)) (q 0.001)).
  - apply IH.
  - simpl. unfold apply_target_full.
    destruct (tdata t) as [upd|]; [|apply IH].
    destruct (iadd_at base upd (full_weight factors (tags t))); [apply IH|reflexivity].
Qed.

Lemma solve_mesh_drops_low_weight_targets_witness :
  factors_in01 factors_low_male /\
  solve_mesh [vzero] [tgt_male_small; tgt_universal] factors_low_male =
  solve_mesh_full factors_low_male [vzero]
    (filter (fun t => if Qclt_le_dec (full_weight factors_low_male (tags t)) (q 0.001)
                      then false else true) [tgt_male_small; tgt_universal]).
Proof.
  assert (HF : factors_in01 factors_low_male)
    by (apply factors_in01_check; vm_compute; reflexivity).
  split; [exact HF|].
  apply (solve_mesh_drops_low_weight_targets [vzero] _ _ HF).
Defined.

(* ------------------------------------------------------------------ *)
(** ** 4x4 matrices over a field

    [numpy] 4x4 arrays as records of four rows. The scalar field is a
    parameter: the bone matrices are taken over [Qc], the IK step over the
    reals. [la.inv] is the adjugate divided by the determinant, and fails
    (raises [LinAlgError]) exactly when the determinant is 0. *)

Class FieldOps (K : Type) := {
  k0 : K; k1 : K;
  kadd : K -> K -> K; kmul : K -> K -> K; ksub : K -> K -> K;
  kopp : K -> K; kinv : K -> K; kdiv : K -> K -> K;
  keq_dec : forall x y : K, {x = y} + {x <> y}
}.

Declare Scope k_scope.
Delimit Scope k_scope with K.
Notation "x + y" := (kadd x y) : k_scope.
Notation "x * y" := (kmul x y) : k_scope.
Notation "x - y" := (ksub x y) : k_scope.
Notation "- x" := (kopp x) : k_scope.
Notation "x / y" := (kdiv x y) : k_scope.

Record vec4 (A : Type) := V4 { e0 : A; e1 : A; e2 : A; e3 : A }.
Arguments V4 {A}.
Arguments e0 {A}. Arguments e1 {A}. Arguments e2 {A}. Arguments e3 {A}.

Definition mat4 (K : Type) := vec4 (vec4 K).

Definition vget {A} (v : vec4 A) (i : nat) : A :=
  match i with O => e0 v | S O => e1 v | S (S O) => e2 v | _ => e3 v end.

Definition vmk {A} (f : nat -> A) : vec4 A := V4 (f 0%nat) (f 1%nat) (f 2%nat) (f 3%nat).

Section Mat4.
Context {K : Type} {FO : FieldOps K}.
Local Open Scope k_scope.

(** [M[i, j]] *)
Definition mget (M : mat4 K) (i j : nat) : K := vget (vget M i) j.

Definition mmk (f : nat -> nat -> K) : mat4 K := vmk (fun i => vmk (f i)).

Definition dot4 (f g : nat -> K) : K :=
  f 0%nat * g 0%nat + f 1%nat * g 1%nat + f 2%nat * g 2%nat + f 3%nat * g 3%nat.

(** [np.dot(M, N)] for two 4x4 arrays *)
Definition mat_mul (M N : mat4 K) : mat4 K :=
  mmk (fun i j => dot4 (mget M i) (fun k => mget N k j)).

(** [np.dot(M, v)] for a 4-vector *)
Definition mat_vec (M : mat4 K) (v : vec4 K) : vec4 K :=
  vmk (fun i => dot4 (mget M i) (vget v)).

(** [np.identity(4)] *)
Definition identity4 : mat4 K := mmk (fun i j => if Nat.eqb i j then k1 else k0).

(** Row or column [r] of a minor that drops row or column [i]. *)
Definition skip (i r : nat) : nat := if Nat.ltb r i then r else S r.

Definition det3 (f : nat -> nat -> K) : K :=
  f 0%nat 0%nat * (f 1%nat 1%nat * f 2%nat 2%nat - f 1%nat 2%nat * f 2%nat 1%nat)
  - f 0%nat 1%nat * (f 1%nat 0%nat * f 2%nat 2%nat - f 1%nat 2%nat * f 2%nat 0%nat)
  + f 0%nat 2%nat * (f 1%nat 0%nat * f 2%nat 1%nat - f 1%nat 1%nat * f 2%nat 0%nat).

Definition cofactor (M : mat4 K) (i j : nat) : K :=
  let m := det3 (fun r c => mget M (skip i r) (skip j c)) in
  if Nat.even (i + j) then m else - m.

Definition det4 (M : mat4 K) : K := dot4 (mget M 0%nat) (cofactor M 0%nat).

Definition adj4 (M : mat4 K) : mat4 K := mmk (fun i j => cofactor M j i).

(** [la.inv(M)]: [None] stands for the [LinAlgError] of a singular matrix. *)
Definition inv4 (M : mat4 K) : option (mat4 K) :=
  if keq_dec (det4 M) k0 then None
  else Some (mmk (fun i j => mget (adj4 M) i j / det4 M)).

End Mat4.

Section MatLemmas.
Context {K : Type} {FO : FieldOps K}.
Hypothesis Kth : field_theory k0 k1 kadd kmul ksub kopp kdiv kinv (@eq K).
Add Field Kfield : Kth.
Local Open Scope k_scope.

Ltac mat_unfold :=
  cbv beta iota zeta delta [mat_mul mat_vec identity4 mmk vmk mget vget dot4 det4
    adj4 cofactor det3 skip Nat.ltb Nat.leb Nat.even Nat.odd Nat.eqb Nat.add
    e0 e1 e2 e3] in *.

Ltac mat_destruct M :=
  destruct M as [[? ? ? ?] [? ? ? ?] [? ? ? ?] [? ? ? ?]].

Lemma inv4_right (M N : mat4 K) : inv4 M = Some N -> mat_mul M N = identity4.
Proof.
  unfold inv4. destruct (keq_dec (det4 M) k0) as [_|Hd]; [discriminate|].
  intros E; injection E as <-. mat_destruct M.
  mat_unfold. f_equal; f_equal; field; exact Hd.
Qed.

Lemma inv4_left (M N : mat4 K) : inv4 M = Some N -> mat_mul N M = identity4.
Proof.
  unfold inv4. destruct (keq_dec (det4 M) k0) as [_|Hd]; [discriminate|].
  intros E; injection E as <-. mat_destruct M.
  mat_unfold. f_equal; f_equal; field; exact Hd.
Qed.

Lemma inv4_det (M : mat4 K) :
  (det4 M = k0 <-> inv4 M = None) /\
  (det4 M <> k0 <-> exists N, inv4 M = Some N).
Proof.
  unfold inv4. destruct (keq_dec (det4 M) k0) as [H|H]; split; split.
  - reflexivity.
  - intros _; exact H.
  - intros C; contradiction.
  - intros [N E]; discriminate.
  - intros E; contradiction.
  - discriminate.
  - intros _; eexists; reflexivity.
  - intros _; exact H.
Qed.

Lemma mat_mul_assoc (A B C : mat4 K) :
  mat_mul A (mat_mul B C) = mat_mul (mat_mul A B) C.
Proof.
  mat_destruct A. mat_destruct B. mat_destruct C.
  mat_unfold. f_equal; f_equal; ring.
Qed.

Lemma mat_mul_id_l (A : mat4 K) : mat_mul identity4 A = A.
Proof. mat_destruct A. mat_unfold. f_equal; f_equal; ring. Qed.

Lemma mat_mul_id_r (A : mat4 K) : mat_mul A identity4 = A.
Proof. mat_destruct A. mat_unfold. f_equal; f_equal; ring. Qed.

End MatLemmas.

#[export] Instance QcOps : FieldOps Qc := {
  k0 := 0; k1 := 1; kadd := Qcplus; kmul := Qcmult; ksub := Qcminus;
  kopp := Qcopp; kinv := Qcinv; kdiv := Qcdiv; keq_dec := Qc_eq_dec
}.

Lemma Qc_field_ops :
  field_theory k0 k1 kadd kmul ksub kopp kdiv kinv (@eq Qc).
Proof. exact Qcft. Qed.

(* ------------------------------------------------------------------ *)
(** ** Bones and the pose update ([mh_skeleton.py], class [Bone])

    A bone after [build]: every matrix field is set. [bparent] is the name
    of the parent bone that the constructor resolved ([None] for a root). *)

Record bone := Bone {
  bname : string;
  bparent : option string;
  matRestGlobal : mat4 Qc;
  matRestRelative : mat4 Qc;
  matPose : mat4 Qc;
  matPoseGlobal : mat4 Qc;
  matPoseVerts : mat4 Qc
}.

(** [Bone.update], given the parent's current [matPoseGlobal]:
    {v
    matPoseGlobal = parent.matPoseGlobal . (matRestRelative . matPose)
    try: matPoseVerts = matPoseGlobal . la.inv(matRestGlobal)
    except LinAlgError: matPoseVerts = np.identity(4)
    v} *)
Definition bone_update (parent_pg : option (mat4 Qc)) (b : bone) : bone :=
  let pg := match parent_pg with
            | Some P => mat_mul P (mat_mul (matRestRelative b) (matPose b))
            | None => mat_mul (matRestRelative b) (matPose b)
            end in
  let pv := match inv4 (matRestGlobal b) with
            | Some invRest => mat_mul pg invRest
            | None => identity4
            end in
  Bone (bname b) (bparent b) (matRestGlobal b) (matRestRelative b) (matPose b) pg pv.

(** [Skeleton.getBone]: the bone of that name. *)
Fixpoint find_bone (n : string) (bs : list bone) : option bone :=
  match bs with
  | [] => None
  | b :: r => if String.eqb (bname b) n then Some b else find_bone n r
  end.

(** [for b in skeleton.getBones(): b.update()]: each bone reads the
    current state of its parent, which is already updated when it comes
    earlier in [boneslist]. [done] holds the updated bones, last first. *)
Fixpoint update_sweep (done rest : list bone) : list bone :=
  match rest with
  | [] => rev done
  | b :: rest' =>
      let ppg := match bparent b with
                 | Some p => option_map matPoseGlobal (find_bone p (rev done ++ rest))
                 | None => None
                 end in
      update_sweep (bone_update ppg b :: done) rest'
  end.

Definition update_all (bs : list bone) : list bone := update_sweep [] bs.

(* ------------------------------------------------------------------ *)
(** ** Claim C7 *)

(** C7. [Bone.update] always returns a bone (it never fails). When the
    rest-global matrix is invertible, the skinning matrix is the global pose
    times its inverse, a two-sided inverse; when it is singular (determinant
    0, where [la.inv] raises), the skinning matrix is the identity. *)
Theorem bone_update_skinning_matrix (parent_pg : option (mat4 Qc)) (b : bone) :
  let b' := bone_update parent_pg b in
  (forall invRest, inv4 (matRestGlobal b) = Some invRest ->
     mat_mul (matRestGlobal b) invRest = identity4 /\
     mat_mul invRest (matRestGlobal b) = identity4 /\
     matPoseVerts b' = mat_mul (matPoseGlobal b') invRest) /\
  (det4 (matRestGlobal b) <> 0 ->
     mat_mul (matPoseVerts b') (matRestGlobal b) = matPoseGlobal b') /\
  (det4 (matRestGlobal b) = 0 -> matPoseVerts b' = identity4).
Proof.
  cbv zeta. unfold bone_update. cbn [matPoseVerts matPoseGlobal matRestGlobal].
  split; [|split].
  - intros N HN. rewrite HN.
    split; [apply (inv4_right Qc_field_ops); exact HN|].
    split; [apply (inv4_left Qc_field_ops); exact HN|reflexivity].
  - intros Hd. destruct (proj1 (proj2 (inv4_det (matRestGlobal b))) Hd) as [N HN].
    rewrite HN. rewrite <- (mat_mul_assoc Qc_field_ops).
    rewrite (inv4_left Qc_field_ops _ _ HN). apply (mat_mul_id_r Qc_field_ops).
  - intros Hd. rewrite (proj1 (proj1 (inv4_det (matRestGlobal b))) Hd). reflexivity.
Qed.

(** Boolean equality of exact values, to check concrete instances. *)
Definition qc_eqb (a b : Qc) : bool := Qeq_bool (this a) (this b).

Lemma qc_eqb_eq a b : qc_eqb a b = true -> a = b.
Proof. unfold qc_eqb. intros H. apply Qc_is_canon. apply Qeq_bool_eq. exact H. Qed.

Definition vec4_eqb (u v : vec4 Qc) : bool :=
  qc_eqb (e0 u) (e0 v) && qc_eqb (e1 u) (e1 v) && qc_eqb (e2 u) (e2 v)
  && qc_eqb (e3 u) (e3 v).

Lemma vec4_eqb_eq u v : vec4_eqb u v = true -> u = v.
Proof.
  destruct u, v; unfold vec4_eqb; simpl.
  rewrite !andb_true_iff. intros [[[H0 H1] H2] H3].
  apply qc_eqb_eq in H0, H1, H2, H3. subst. reflexivity.
Qed.

Definition mat4_eqb (M N : mat4 Qc) : bool :=
  vec4_eqb (e0 M) (e0 N) && vec4_eqb (e1 M) (e1 N) && vec4_eqb (e2 M) (e2 N)
  && vec4_eqb (e3 M) (e3 N).

Lemma mat4_eqb_eq M N : mat4_eqb M N = true -> M = N.
Proof.
  destruct M, N; unfold mat4_eqb; simpl.
  rewrite !andb_true_iff. intros [[[H0 H1] H2] H3].
  apply vec4_eqb_eq in H0, H1, H2, H3. subst. reflexivity.
Qed.

Definition opt_mat4_eqb (o : option (mat4 Qc)) (N : mat4 Qc) : bool :=
  match o with Some M => mat4_eqb M N | None => false end.

Lemma opt_mat4_eqb_eq o N : opt_mat4_eqb o N = true -> o = Some N.
Proof. destruct o; simpl; [intros H; f_equal; apply mat4_eqb_eq; exact H|discriminate]. Qed.

Definition vec3_eqb (u v : vec3) : bool :=
  qc_eqb (vx u) (vx v) && qc_eqb (vy u) (vy v) && qc_eqb (vz u) (vz v).

Lemma vec3_eqb_eq u v : vec3_eqb u v = true -> u = v.
Proof.
  destruct u, v; unfold vec3_eqb; simpl.
  rewrite !andb_true_iff. intros [[H0 H1] H2].
  apply qc_eqb_eq in H0, H1, H2. subst. reflexivity.
Qed.

Fixpoint verts_eqb (us vs : list vec3) : bool :=
  match us, vs with
  | [], [] => true
  | u :: us', v :: vs' => vec3_eqb u v && verts_eqb us' vs'
  | _, _ => false
  end.

Lemma verts_eqb_eq us vs : verts_eqb us vs = true -> us = vs.
Proof.
  revert vs; induction us as [|u us IH]; intros [|v vs]; simpl;
    try discriminate; [reflexivity|].
  rewrite andb_true_iff. intros [H1 H2].
  rewrite (vec3_eqb_eq _ _ H1), (IH _ H2). reflexivity.
Qed.

(** A bone at rest with every matrix the identity. *)
Definition bone_at_rest (n : string) (p : option string) : bone :=
  Bone n p identity4 identity4 identity4 identity4 identity4.

(** A rest matrix with a zero row: singular. *)
Definition flat_rest : mat4 Qc :=
  V4 (V4 1 0 0 0) (V4 0 1 0 0) (V4 0 0 0 0) (V4 0 0 0 1).

Lemma bone_update_skinning_matrix_witness :
  inv4 (matRestGlobal (bone_at_rest "root" None)) = Some identity4 /\
  matPoseVerts (bone_update None (bone_at_rest "root" None)) = identity4 /\
  det4 flat_rest = 0 /\
  matPoseVerts (bone_update None (Bone "flat" None flat_rest identity4
                                    identity4 identity4 identity4)) = identity4.
Proof.
  assert (HN : inv4 (matRestGlobal (bone_at_rest "root" None)) = Some identity4)
    by (apply opt_mat4_eqb_eq; vm_compute; reflexivity).
  assert (Hd : det4 flat_rest = 0) by (vm_compute; apply qc_eqb_eq; reflexivity).
  split; [exact HN|]. split.
  - destruct (bone_update_skinning_matrix None (bone_at_rest "root" None)) as [A _].
    destruct (A _ HN) as [_ [_ E]]. rewrite E.
    apply mat4_eqb_eq. vm_compute. reflexivity.
  - split; [exact Hd|].
    destruct (bone_update_skinning_matrix None
                (Bone "flat" None flat_rest identity4 identity4 identity4 identity4))
      as [_ [_ C]].
    apply C. exact Hd.
Defined.

(* ------------------------------------------------------------------ *)
(** ** Linear-blend skinning ([__init__.py] preview, [nodes/pose_studio.py])

    Vertex weights as [VertexBoneWeights.data]: bone name to a pair of
    arrays (uint32 vertex indices, float weights), in dict order. *)

Definition weights_data := pydict (list nat * list Qc).

(** [k in d] and [d[k]] together. *)
Fixpoint dict_find {V} (k : string) (d : pydict V) : option V :=
  match d with
  | [] => None
  | (k', v') :: d' => if String.eqb k k' then Some v' else dict_find k d'
  end.

(** [np.hstack([v, 1])], then [(M . v)[:3]] *)
Definition hom (v : vec3) : vec4 Qc := V4 (vx v) (vy v) (vz v) 1.

Definition skin_vert (M : mat4 Qc) (v : vec3) : vec3 :=
  let r := mat_vec M (hom v) in V3 (e0 r) (e1 r) (e2 r).

(** [w_vals[:, np.newaxis]] against [K] selected rows: numpy broadcasting
    accepts [K] weights, or a single one; anything else raises. *)
Definition bcast (ws : list Qc) (k : nat) : option (list Qc) :=
  if Nat.eqb (List.length ws) k then Some ws
  else match ws with [w] => Some (repeat w k) | _ => None end.

Definition all_lt (idx : list nat) (n : nat) : bool :=
  forallb (fun i => Nat.ltb i n) idx.

(** [acc[indices] += (verts_hom[indices] . M.T)[:, :3] * w_col]: the rows
    are gathered (an index out of range raises [IndexError]), transformed,
    weighted and written back through the index array, so that a repeated
    index keeps its last write. *)
Definition skin_add (M : mat4 Qc) (verts : list vec3) (idx : list nat)
    (ws : list Qc) (acc : list vec3) : option (list vec3) :=
  if all_lt idx (List.length verts) then
    match bcast ws (List.length idx) with
    | None => None
    | Some wc =>
        if all_lt idx (List.length acc) then
          Some (scatter acc
                  (map (fun '(i, w) =>
                          (i, vadd (nth i acc vzero)
                                   (vscale_r (skin_vert M (nth i verts vzero)) w)))
                       (combine idx wc)))
        else None
    end
  else None.

(** [np.add.at(total_weight, indices, w_col)]: repeated indices add up. *)
Definition add_at (total : list Qc) (pairs : list (nat * Qc)) : list Qc :=
  fold_left (fun t '(i, w) => list_set t i (nth i t 0 + w)) pairs total.

Fixpoint fold_opt {A B} (f : A -> B -> option A) (l : list B) (a : A) : option A :=
  match l with
  | [] => Some a
  | x :: l' => match f a x with Some a' => fold_opt f l' a' | None => None end
  end.

(** [bone_matrices = {b.name: b.matPoseVerts for b in skel.getBones()}] *)
Definition bone_matrices (bs : list bone) : pydict (mat4 Qc) :=
  fold_left (fun d b => dict_set (bname b) (matPoseVerts b) d) bs [].

(** One iteration of the loop over [weights_data.items()] of the preview. *)
Definition preview_entry (bm : pydict (mat4 Qc)) (verts : list vec3)
    (acc : list vec3 * list Qc) (e : string * (list nat * list Qc))
    : option (list vec3 * list Qc) :=
  let '(b_name, (indices, w_vals)) := e in
  let '(deformed, total) := acc in
  match dict_find b_name bm with
  | None => Some acc
  | Some M =>
      match skin_add M verts indices w_vals deformed,
            bcast w_vals (List.length indices) with
      | Some deformed', Some w_col => Some (deformed', add_at total (combine indices w_col))
      | _, _ => None
      end
  end.

(** The skinning block of [vnccs_character_studio_update_preview]: after
    the loop, a vertex whose total weight is below [0.01] is put back at
    its rest position; any exception leaves all vertices at rest. *)
Definition skin_preview (bs : list bone) (wd : weights_data) (verts : list vec3)
    : list vec3 :=
  let n := List.length verts in
  match fold_opt (preview_entry (bone_matrices bs) verts) wd
                 (repeat vzero n, repeat 0 n) with
  | Some (deformed, total) =>
      map (fun '(v, (d, t)) => if Qclt_le_dec t (q 0.01) then v else d)
          (combine verts (combine deformed total))
  | None => verts
  end.

(** One iteration of the loop of [PoseStudio._apply_pose], step 6. *)
Definition studio_entry (bs : list bone) (verts : list vec3) (acc : list vec3)
    (e : string * (list nat * list Qc)) : option (list vec3) :=
  let '(bname', (indices, weights)) := e in
  match find_bone bname' bs with
  | None => Some acc
  | Some b =>
      match indices with
      | [] => Some acc
      | _ => skin_add (matPoseVerts b) verts indices weights acc
      end
  end.

(** Step 6 of [PoseStudio._apply_pose]: accumulation from zero, with no
    fallback; without vertex weights the rest vertices are copied. [None]
    is an exception, which propagates. *)
Definition skin_studio (bs : list bone) (vw : option weights_data) (verts : list vec3)
    : option (list vec3) :=
  match vw with
  | None => Some verts
  | Some wd => fold_opt (studio_entry bs verts) wd (repeat vzero (List.length verts))
  end.

Example skin_preview_example :
  verts_eqb
    (skin_preview [bone_at_rest "root" None]
       [("root", ([0%nat; 1%nat], [q 0.5; 1])); ("other", ([1%nat], [1]))]
       [V3 1 0 0; V3 0 1 0; V3 0 0 1])
    [V3 (q 0.5) 0 0; V3 0 1 0; V3 0 0 1] = true.
Proof. vm_compute. reflexivity. Qed.

(* ------------------------------------------------------------------ *)
(** ** Facts about the skinning accumulation *)

(** The weight a list of (index, weight) pairs gives to vertex [p]. *)
Definition wsum (p : nat) (pairs : list (nat * Qc)) : Qc :=
  fold_right (fun '(i, w) s => if Nat.eqb p i then w + s else s) 0 pairs.

Lemma vadd_scale_0 x t : vadd x (vscale_r t 0) = x.
Proof. destruct x, t; unfold vadd, vscale_r; simpl. f_equal; ring. Qed.

Lemma last_write_absent {A} p (ws : list (nat * A)) :
  ~ In p (map fst ws) -> last_write p ws = None.
Proof.
  induction ws as [|[i x] ws IH]; simpl; auto.
  intros H. rewrite IH by tauto.
  destruct (Nat.eqb p i) eqn:E; auto.
  apply Nat.eqb_eq in E. subst. tauto.
Qed.

Lemma wsum_absent p pairs : ~ In p (map fst pairs) -> wsum p pairs = 0.
Proof.
  induction pairs as [|[i w] pairs IH]; simpl; auto.
  intros H. destruct (Nat.eqb p i) eqn:E.
  - apply Nat.eqb_eq in E. subst. tauto.
  - apply IH. tauto.
Qed.

(** With no repeated index, the last write at [p] is the only one. *)
Lemma scatter_writes_nodup (acc : list vec3) (T : nat -> vec3) pairs p :
  NoDup (map fst pairs) ->
  match last_write p (map (fun '(i, w) => (i, vadd (nth i acc vzero) (vscale_r (T i) w)))
                          pairs) with
  | Some x => x
  | None => nth p acc vzero
  end = vadd (nth p acc vzero) (vscale_r (T p) (wsum p pairs)).
Proof.
  induction pairs as [|[i w] pairs IH]; simpl; intros Hnd.
  - symmetry. apply vadd_scale_0.
  - inversion Hnd as [|? ? Hni Hnd']; subst.
    destruct (Nat.eqb p i) eqn:E.
    + apply Nat.eqb_eq in E. subst i.
      rewrite last_write_absent.
      * rewrite wsum_absent by exact Hni.
        destruct (nth p acc vzero), (T p); unfold vadd, vscale_r; simpl. f_equal; ring.
      * rewrite map_map. rewrite (map_ext _ fst); [exact Hni|].
        intros [a b]; reflexivity.
    + specialize (IH Hnd').
      destruct (last_write p _); exact IH.
Qed.

Lemma all_lt_In idx n i : all_lt idx n = true -> In i idx -> (i < n)%nat.
Proof.
  unfold all_lt. rewrite forallb_forall. intros H Hi.
  apply Nat.ltb_lt. apply H. exact Hi.
Qed.

Lemma in_combine_fst {A B} (l1 : list A) (l2 : list B) a b :
  In (a, b) (combine l1 l2) -> In a l1.
Proof. apply in_combine_l. Qed.

Lemma map_fst_combine {A B} (l1 : list A) (l2 : list B) :
  List.length l1 = List.length l2 -> map fst (combine l1 l2) = l1.
Proof.
  revert l2; induction l1 as [|a l1 IH]; intros [|b l2]; simpl; try discriminate; auto.
  intros H. f_equal. apply IH. lia.
Qed.

Lemma bcast_length ws k wc : bcast ws k = Some wc -> List.length wc = k.
Proof.
  unfold bcast. destruct (Nat.eqb (List.length ws) k) eqn:E.
  - intros H; injection H as <-. apply Nat.eqb_eq; exact E.
  - destruct ws as [|w [|]]; try discriminate.
    intros H; injection H as <-. apply repeat_length.
Qed.

(** [skin_add] at one vertex: the weighted transformed rest position is
    added once, when the index list has no repetition. *)
Lemma skin_add_spec M verts idx ws acc acc' wc :
  NoDup idx ->
  bcast ws (List.length idx) = Some wc ->
  skin_add M verts idx ws acc = Some acc' ->
  List.length acc' = List.length acc /\
  forall p, (p < List.length acc)%nat ->
    nth p acc' vzero =
    vadd (nth p acc vzero) (vscale_r (skin_vert M (nth p verts vzero))
                                      (wsum p (combine idx wc))).
Proof.
  intros Hnd Hb. unfold skin_add. rewrite Hb.
  destruct (all_lt idx (List.length verts)); [|discriminate].
  destruct (all_lt idx (List.length acc)) eqn:Hacc; [|discriminate].
  intros H; injection H as <-.
  pose proof (bcast_length _ _ _ Hb) as Hl.
  split; [apply length_scatter|].
  intros p Hp. rewrite nth_scatter.
  - apply (scatter_writes_nodup acc (fun i => skin_vert M (nth i verts vzero))).
    rewrite map_fst_combine by congruence. exact Hnd.
  - intros p' x Hin. apply in_map_iff in Hin as [[i w] [Heq Hin]].
    injection Heq as <- _. apply (all_lt_In idx); [exact Hacc|].
    eapply in_combine_fst; exact Hin.
Qed.

Lemma nth_add_at total pairs p :
  (forall i w, In (i, w) pairs -> (i < List.length total)%nat) ->
  List.length (add_at total pairs) = List.length total /\
  nth p (add_at total pairs) 0 = nth p total 0 + wsum p pairs.
Proof.
  unfold add_at. revert total; induction pairs as [|[i w] pairs IH]; intros total Hin; simpl.
  - split; [reflexivity|]. ring.
  - assert (Hi : (i < List.length total)%nat) by (apply (Hin i w); left; reflexivity).
    destruct (IH (list_set total i (nth i total 0 + w))) as [L E].
    { intros i' w' H. rewrite length_list_set. apply (Hin i' w'). right; exact H. }
    rewrite L, E, length_list_set. split; [reflexivity|].
    rewrite nth_list_set by exact Hi.
    destruct (Nat.eqb p i) eqn:Epi.
    + apply Nat.eqb_eq in Epi; subst. ring.
    + reflexivity.
Qed.

(** The data-model invariant of [VertexBoneWeights.data]: in each entry
    the index array has no repetition and the weight array has the same
    length. *)
Definition entry_ok (e : string * (list nat * list Qc)) : Prop :=
  let '(_, (idx, ws)) := e in NoDup idx /\ List.length ws = List.length idx.

Definition entry_in_range (n : nat) (e : string * (list nat * list Qc)) : Prop :=
  let '(_, (idx, _)) := e in all_lt idx n = true.

(** The raw weighted sum at vertex [p] over the entries whose bone has a
    matrix ([look]), and the total weight it is given. *)
Definition lbs_at (look : string -> option (mat4 Qc)) (wd : weights_data)
    (verts : list vec3) (p : nat) : vec3 :=
  fold_right (fun '(bn, (idx, ws)) s =>
                match look bn with
                | Some M => vadd (vscale_r (skin_vert M (nth p verts vzero))
                                           (wsum p (combine idx ws))) s
                | None => s
                end) vzero wd.

Definition total_at (look : string -> option (mat4 Qc)) (wd : weights_data)
    (p : nat) : Qc :=
  fold_right (fun '(bn, (idx, ws)) s =>
                match look bn with
                | Some _ => wsum p (combine idx ws) + s
                | None => s
                end) 0 wd.

Definition preview_look (bs : list bone) (n : string) : option (mat4 Qc) :=
  dict_find n (bone_matrices bs).

Definition studio_look (bs : list bone) (n : string) : option (mat4 Qc) :=
  option_map matPoseVerts (find_bone n bs).

Lemma bcast_same ws k : List.length ws = k -> bcast ws k = Some ws.
Proof. intros H. unfold bcast. rewrite (proj2 (Nat.eqb_eq _ _) H). reflexivity. Qed.

Lemma skin_add_in_range M verts idx ws acc acc' :
  skin_add M verts idx ws acc = Some acc' -> all_lt idx (List.length verts) = true.
Proof. unfold skin_add. destruct (all_lt idx (List.length verts)); congruence. Qed.

Lemma skin_add_some M verts idx ws acc :
  List.length ws = List.length idx ->
  all_lt idx (List.length verts) = true -> List.length acc = List.length verts ->
  exists acc', skin_add M verts idx ws acc = Some acc'.
Proof.
  intros Hw Hr Hl. unfold skin_add. rewrite Hr, bcast_same by exact Hw.
  rewrite Hl, Hr. eexists; reflexivity.
Qed.

Lemma vadd_zero_r a : vadd a vzero = a.
Proof. destruct a; unfold vadd, vzero; simpl. f_equal; ring. Qed.

Lemma vadd_assoc a b c : vadd a (vadd b c) = vadd (vadd a b) c.
Proof. destruct a, b, c; unfold vadd; simpl. f_equal; ring. Qed.

Lemma preview_fold_spec bm verts wd d0 t0 d t :
  Forall entry_ok wd ->
  List.length d0 = List.length verts -> List.length t0 = List.length verts ->
  fold_opt (preview_entry bm verts) wd (d0, t0) = Some (d, t) ->
  List.length d = List.length verts /\ List.length t = List.length verts /\
  forall p, (p < List.length verts)%nat ->
    nth p d vzero = vadd (nth p d0 vzero) (lbs_at (fun n => dict_find n bm) wd verts p) /\
    nth p t 0 = nth p t0 0 + total_at (fun n => dict_find n bm) wd p.
Proof.
  revert d0 t0. induction wd as [|[bn [idx ws]] wd IH]; intros d0 t0 Hok Hd Ht; simpl.
  - intros H; injection H as <- <-. do 2 (split; [assumption|]).
    intros p _. split; [symmetry; apply vadd_zero_r|ring].
  - inversion Hok as [|? ? Hok1 Hok']; subst.
    simpl in Hok1. destruct Hok1 as [Hnd Hlw].
    destruct (dict_find bn bm) as [M|].
    + rewrite (bcast_same ws (List.length idx) Hlw).
      destruct (skin_add M verts idx ws d0) as [d1|] eqn:Hs; [|discriminate].
      intros Hf.
      destruct (skin_add_spec M verts idx ws d0 d1 ws Hnd (bcast_same _ _ Hlw) Hs)
        as [L1 N1].
      pose proof (skin_add_in_range _ _ _ _ _ _ Hs) as Hr.
      assert (Hin : forall i w, In (i, w) (combine idx ws) -> (i < List.length t0)%nat).
      { intros i w Hi. rewrite Ht. apply (all_lt_In idx); [exact Hr|].
        eapply in_combine_fst; exact Hi. }
      destruct (IH d1 (add_at t0 (combine idx ws)) Hok') as [Ld [Lt N]];
        try assumption.
      { congruence. }
      { rewrite (proj1 (nth_add_at t0 (combine idx ws) 0 Hin)). exact Ht. }
      do 2 (split; [assumption|]).
      intros p Hp. destruct (N p Hp) as [E1 E2]. split.
      * rewrite E1, N1 by congruence. symmetry. apply vadd_assoc.
      * rewrite E2, (proj2 (nth_add_at t0 (combine idx ws) p Hin)). ring.
    + apply IH; assumption.
Qed.

Lemma preview_fold_some bm verts wd d0 t0 :
  Forall entry_ok wd -> Forall (entry_in_range (List.length verts)) wd ->
  List.length d0 = List.length verts -> List.length t0 = List.length verts ->
  exists d t, fold_opt (preview_entry bm verts) wd (d0, t0) = Some (d, t).
Proof.
  revert d0 t0. induction wd as [|[bn [idx ws]] wd IH]; intros d0 t0 Hok Hr Hd Ht; simpl.
  - eauto.
  - inversion Hok as [|? ? Hok1 Hok']; subst.
    simpl in Hok1. destruct Hok1 as [Hnd Hlw].
    inversion Hr as [|? ? Hr1 Hr']; subst. simpl in Hr1.
    destruct (dict_find bn bm) as [M|]; [|apply IH; assumption].
    rewrite (bcast_same ws (List.length idx) Hlw).
    destruct (skin_add_some M verts idx ws d0 Hlw Hr1 Hd) as [d1 Hs]. rewrite Hs.
    destruct (skin_add_spec M verts idx ws d0 d1 ws Hnd (bcast_same _ _ Hlw) Hs) as [L1 _].
    assert (Hin : forall i w, In (i, w) (combine idx ws) -> (i < List.length t0)%nat).
    { intros i w Hi. rewrite Ht. apply (all_lt_In idx); [exact Hr1|].
      eapply in_combine_fst; exact Hi. }
    apply IH; try assumption.
    + congruence.
    + rewrite (proj1 (nth_add_at t0 (combine idx ws) 0 Hin)). exact Ht.
Qed.

Lemma vadd_zero_l a : vadd vzero a = a.
Proof. destruct a; unfold vadd, vzero; simpl. f_equal; ring. Qed.

Lemma vadd_scale_0_l t s : vadd (vscale_r t 0) s = s.
Proof. destruct t, s; unfold vadd, vscale_r; simpl. f_equal; ring. Qed.

Lemma studio_fold_spec bs verts wd d0 d :
  Forall entry_ok wd ->
  List.length d0 = List.length verts ->
  fold_opt (studio_entry bs verts) wd d0 = Some d ->
  List.length d = List.length verts /\
  forall p, (p < List.length verts)%nat ->
    nth p d vzero = vadd (nth p d0 vzero) (lbs_at (studio_look bs) wd verts p).
Proof.
  revert d0. induction wd as [|[bn [idx ws]] wd IH]; intros d0 Hok Hd; simpl.
  - intros H; injection H as <-. split; [assumption|].
    intros p _. symmetry; apply vadd_zero_r.
  - inversion Hok as [|? ? Hok1 Hok']; subst.
    simpl in Hok1. destruct Hok1 as [Hnd Hlw].
    unfold studio_look at 1. destruct (find_bone bn bs) as [b|]; simpl.
    + destruct idx as [|i0 idx0].
      * intros Hf. destruct (IH d0 Hok' Hd Hf) as [L N]. split; [exact L|].
        intros p Hp. rewrite N by exact Hp. f_equal. symmetry. apply vadd_scale_0_l.
      * destruct (skin_add (matPoseVerts b) verts (i0 :: idx0) ws d0) as [d1|] eqn:Hs;
          [|discriminate].
        intros Hf.
        destruct (skin_add_spec _ verts _ ws d0 d1 ws Hnd (bcast_same _ _ Hlw) Hs)
          as [L1 N1].
        destruct (IH d1 Hok') as [L N]; [congruence|exact Hf|].
        split; [exact L|]. intros p Hp.
        rewrite N, N1 by congruence. symmetry. apply vadd_assoc.
    + apply IH; assumption.
Qed.

Lemma nth_repeat_lt {A} (x d : A) n p : (p < n)%nat -> nth p (repeat x n) d = x.
Proof. revert p; induction n as [|n IH]; intros [|p] Hp; simpl; try lia; auto. apply IH; lia. Qed.

Lemma nth_map_lt {A B} (f : A -> B) (l : list A) p d d' :
  (p < List.length l)%nat -> nth p (map f l) d = f (nth p l d').
Proof. revert p; induction l as [|a l IH]; intros [|p] Hp; simpl in *; try lia; auto. apply IH; lia. Qed.

Lemma nth_combine_lt {A B} (l1 : list A) (l2 : list B) p d1 d2 :
  List.length l1 = List.length l2 -> (p < List.length l1)%nat ->
  nth p (combine l1 l2) (d1, d2) = (nth p l1 d1, nth p l2 d2).
Proof.
  revert l2 p; induction l1 as [|a l1 IH]; intros [|b l2] [|p] Hl Hp; simpl in *;
    try lia; auto.
  apply IH; lia.
Qed.

(** The preview output at one vertex: the rest position when the total
    weight is below [0.01], otherwise the raw weighted sum. *)
Lemma skin_preview_at bs wd verts :
  Forall entry_ok wd -> Forall (entry_in_range (List.length verts)) wd ->
  List.length (skin_preview bs wd verts) = List.length verts /\
  forall p, (p < List.length verts)%nat ->
    nth p (skin_preview bs wd verts) vzero =
    if Qclt_le_dec (total_at (preview_look bs) wd p) (q 0.01)
    then nth p verts vzero else lbs_at (preview_look bs) wd verts p.
Proof.
  intros Hok Hr. unfold skin_preview.
  destruct (preview_fold_some (bone_matrices bs) verts wd (repeat vzero (List.length verts)) (repeat 0 (List.length verts))
              Hok Hr (repeat_length _ _) (repeat_length _ _)) as [d [t Hf]].
  rewrite Hf.
  destruct (preview_fold_spec _ verts wd _ _ d t Hok (repeat_length _ _)
              (repeat_length _ _) Hf) as [Ld [Lt N]].
  split.
  - rewrite length_map, !length_combine. lia.
  - intros p Hp.
    rewrite (nth_map_lt _ _ _ _ (vzero, (vzero, 0)))
      by (rewrite !length_combine; lia).
    rewrite nth_combine_lt by (rewrite ?length_combine; lia).
    rewrite nth_combine_lt by (lia).
    destruct (N p Hp) as [E1 E2]. rewrite E1, E2.
    rewrite !nth_repeat_lt by exact Hp.
    rewrite vadd_zero_l. unfold preview_look.
    replace (0 + total_at (fun n0 => dict_find n0 (bone_matrices bs)) wd p)
      with (total_at (fun n0 => dict_find n0 (bone_matrices bs)) wd p) by ring.
    reflexivity.
Qed.

Fixpoint nodupb (l : list nat) : bool :=
  match l with
  | [] => true
  | x :: r => negb (existsb (Nat.eqb x) r) && nodupb r
  end.

Lemma nodupb_spec l : nodupb l = true -> NoDup l.
Proof.
  induction l as [|x r IH]; simpl; intros H; [constructor|].
  apply andb_prop in H as [H1 H2]. constructor; [|apply IH; exact H2].
  intros Hin. apply negb_true_iff in H1.
  assert (existsb (Nat.eqb x) r = true) by (apply existsb_exists; exists x; split;
    [exact Hin|apply Nat.eqb_refl]).
  congruence.
Qed.

Definition entry_okb (e : string * (list nat * list Qc)) : bool :=
  let '(_, (idx, ws)) := e in nodupb idx && Nat.eqb (List.length ws) (List.length idx).

Lemma entries_okb_spec wd : forallb entry_okb wd = true -> Forall entry_ok wd.
Proof.
  intros H. apply Forall_forall. intros [bn [idx ws]] Hin.
  rewrite forallb_forall in H. specialize (H _ Hin). simpl in H |- *.
  apply andb_prop in H as [H1 H2]. split; [apply nodupb_spec; exact H1|].
  apply Nat.eqb_eq; exact H2.
Qed.

Definition entry_in_rangeb (n : nat) (e : string * (list nat * list Qc)) : bool :=
  let '(_, (idx, _)) := e in all_lt idx n.

Lemma entries_in_rangeb_spec n wd :
  forallb (entry_in_rangeb n) wd = true -> Forall (entry_in_range n) wd.
Proof.
  intros H. apply Forall_forall. intros [bn [idx ws]] Hin.
  rewrite forallb_forall in H. exact (H _ Hin).
Qed.

(* ------------------------------------------------------------------ *)
(** ** Claim C3 *)

Definition two_verts : list vec3 := [V3 1 0 0; V3 0 1 0].

Definition root_weights_v0 : weights_data := [("root", ([0%nat], [1]))].

(** C3 (counterexample). With one bone at rest and weights only on vertex
    0, vertex 1 has total weight 0. The preview path puts it back at rest,
    but the pose-studio path, which has no fallback, outputs it at the
    origin. *)
Lemma skin_studio_no_fallback :
  total_at (studio_look [bone_at_rest "root" None]) root_weights_v0 1 = 0 /\
  skin_preview [bone_at_rest "root" None] root_weights_v0 two_verts = two_verts /\
  skin_studio [bone_at_rest "root" None] (Some root_weights_v0) two_verts
    = Some [V3 1 0 0; vzero] /\
  nth 1 [V3 1 0 0; vzero] vzero <> nth 1 two_verts vzero.
Proof.
  split; [vm_compute; reflexivity|].
  split; [apply verts_eqb_eq; vm_compute; reflexivity|].
  split.
  - vm_compute. first [reflexivity | f_equal; apply verts_eqb_eq; vm_compute; reflexivity].
  - simpl. intros H. injection H as H. discriminate.
Qed.

(** C3. For index arrays without repetition, with as many weights as
    indices and in range: the preview path outputs every vertex
    whose total weight is below [0.01] exactly at its rest position and
    every other vertex at the raw weighted sum of its transformed rest
    positions, with no division by the total weight; the pose-studio path
    outputs every vertex at that raw weighted sum, with no fallback, so a
    vertex that no bone weights is output at the origin. *)
Theorem skinning_fallback_without_renormalisation (bs : list bone)
    (wd : weights_data) (verts : list vec3) :
  Forall entry_ok wd -> Forall (entry_in_range (List.length verts)) wd ->
  (forall p, (p < List.length verts)%nat ->
     nth p (skin_preview bs wd verts) vzero =
     if Qclt_le_dec (total_at (preview_look bs) wd p) (q 0.01)
     then nth p verts vzero else lbs_at (preview_look bs) wd verts p) /\
  (forall out, skin_studio bs (Some wd) verts = Some out ->
     forall p, (p < List.length verts)%nat ->
       nth p out vzero = lbs_at (studio_look bs) wd verts p).
Proof.
  intros Hok Hr. split.
  - apply (skin_preview_at bs wd verts Hok Hr).
  - intros out Hs p Hp. simpl in Hs.
    destruct (studio_fold_spec bs verts wd _ out Hok (repeat_length _ _) Hs) as [_ N].
    rewrite N by exact Hp. rewrite nth_repeat_lt by exact Hp. apply vadd_zero_l.
Qed.

Definition half_weights_v0 : weights_data := [("root", ([0%nat], [q 0.5]))].

Lemma skinning_fallback_without_renormalisation_witness :
  Forall entry_ok half_weights_v0 /\
  Forall (entry_in_range (List.length two_verts)) half_weights_v0 /\
  nth 0 (skin_preview [bone_at_rest "root" None] half_weights_v0 two_verts) vzero =
  (if Qclt_le_dec (total_at (preview_look [bone_at_rest "root" None]) half_weights_v0 0)
        (q 0.01)
   then nth 0 two_verts vzero
   else lbs_at (preview_look [bone_at_rest "root" None]) half_weights_v0 two_verts 0).
Proof.
  assert (H1 : Forall entry_ok half_weights_v0)
    by (apply entries_okb_spec; vm_compute; reflexivity).
  assert (H2 : Forall (entry_in_range (List.length two_verts)) half_weights_v0)
    by (apply entries_in_rangeb_spec; vm_compute; reflexivity).
  split; [exact H1|]. split; [exact H2|].
  apply (proj1 (skinning_fallback_without_renormalisation _ _ _ H1 H2)).
  simpl. lia.
Defined.

(* ------------------------------------------------------------------ *)
(** ** The pose update sweep *)

(** The fields of a bone that [Bone.update] does not write. *)
Definition rest_view (b : bone) :=
  (bname b, bparent b, matRestGlobal b, matRestRelative b, matPose b).

(** [boneslist] is sorted parents first (the breadth-first sort of
    [Skeleton.fromFile]): the parent of each bone comes earlier. *)
Fixpoint parents_first (seen : list string) (bs : list bone) : Prop :=
  match bs with
  | [] => True
  | b :: r =>
      match bparent b with None => True | Some p => In p seen end /\
      parents_first (bname b :: seen) r
  end.

(** What [Bone.build] leaves: [matRestRelative] is
    [la.inv(parent.matRestGlobal) . matRestGlobal] for a child (the
    inversion succeeded) and [matRestGlobal] for a root. *)
Definition rest_relative_ok (bs : list bone) (b : bone) : Prop :=
  match bparent b with
  | None => matRestRelative b = matRestGlobal b
  | Some p => exists pb invP, find_bone p bs = Some pb /\
                inv4 (matRestGlobal pb) = Some invP /\
                matRestRelative b = mat_mul invP (matRestGlobal b)
  end.

Definition rest_built (bs : list bone) : Prop := Forall (rest_relative_ok bs) bs.

Lemma find_bone_app p l1 l2 :
  find_bone p (l1 ++ l2) =
  match find_bone p l1 with Some b => Some b | None => find_bone p l2 end.
Proof.
  induction l1 as [|b l1 IH]; simpl; auto.
  destruct (String.eqb (bname b) p); auto.
Qed.

Lemma find_bone_In p l b : find_bone p l = Some b -> In b l.
Proof.
  induction l as [|b' l IH]; simpl; [discriminate|].
  destruct (String.eqb (bname b') p); [intros H; injection H as <-; left; reflexivity|].
  intros H; right; apply IH; exact H.
Qed.

Lemma find_bone_names p l : In p (map bname l) -> exists b, find_bone p l = Some b.
Proof.
  induction l as [|b l IH]; simpl; [tauto|].
  destruct (String.eqb (bname b) p) eqn:E; [eauto|].
  intros [H|H]; [apply String.eqb_neq in E; contradiction|apply IH; exact H].
Qed.

Lemma find_bone_view p l1 l2 b1 :
  map rest_view l1 = map rest_view l2 -> find_bone p l1 = Some b1 ->
  exists b2, find_bone p l2 = Some b2 /\ rest_view b1 = rest_view b2.
Proof.
  revert l2; induction l1 as [|b l1 IH]; intros [|b' l2] Hv; simpl in *;
    try discriminate.
  pose proof (f_equal (hd (rest_view b)) Hv) as Hb. simpl in Hb.
  pose proof (f_equal (@tl _) Hv) as Hv'. simpl in Hv'.
  assert (Hn : bname b = bname b') by (unfold rest_view in Hb; congruence).
  rewrite Hn. destruct (String.eqb (bname b') p).
  - intros Hf1; injection Hf1 as <-. exists b'. split; [reflexivity|exact Hb].
  - apply IH; exact Hv'.
Qed.

Lemma update_sweep_view done rest :
  map rest_view (update_sweep done rest) = map rest_view (rev done ++ rest).
Proof.
  revert done; induction rest as [|b rest IH]; intros done; simpl.
  - rewrite app_nil_r; reflexivity.
  - rewrite IH. simpl. rewrite <- app_assoc. simpl. rewrite !map_app. reflexivity.
Qed.

Definition rest_posed (b : bone) : Prop :=
  matPoseGlobal b = matRestGlobal b /\ matPoseVerts b = identity4.

Lemma update_sweep_rest_pose orig : forall rest done,
  map rest_view (rev done ++ rest) = map rest_view orig ->
  Forall rest_posed done ->
  parents_first (map bname done) rest ->
  Forall (rest_relative_ok orig) rest ->
  Forall (fun b => matPose b = identity4) rest ->
  Forall rest_posed (update_sweep done rest).
Proof.
  induction rest as [|b rest IH]; intros done Hv Hd Hpf Hrel Hid; simpl.
  - apply Forall_rev. exact Hd.
  - destruct Hpf as [Hp Hpf]. inversion Hrel as [|? ? Hrb Hrel']; subst.
    inversion Hid as [|? ? Hib Hid']; subst.
    set (b' := bone_update _ b).
    assert (Hb' : rest_posed b').
    { assert (Hpg : matPoseGlobal b' = matRestGlobal b).
      { unfold b', bone_update, rest_relative_ok in *. cbn [matPoseGlobal].
        rewrite Hib, (mat_mul_id_r Qc_field_ops).
        destruct (bparent b) as [p|].
        - destruct Hrb as [pb [invP [Hfp [Hinv Hrr]]]].
          assert (Hin : In p (map bname (rev done))) by (rewrite map_rev; apply in_rev;
            rewrite rev_involutive; exact Hp).
          destruct (find_bone_names p (rev done) Hin) as [b0 Hf0].
          rewrite find_bone_app, Hf0. simpl.
          assert (Hd0 : rest_posed b0).
          { rewrite Forall_forall in Hd. apply Hd. apply in_rev.
            exact (find_bone_In _ _ _ Hf0). }
          destruct (find_bone_view p (rev done ++ b :: rest) orig b0 Hv)
            as [b2 [Hf2 Hview]].
          { rewrite find_bone_app, Hf0. reflexivity. }
          rewrite Hfp in Hf2. injection Hf2 as <-.
          assert (Hrg : matRestGlobal b0 = matRestGlobal pb)
            by (unfold rest_view in Hview; congruence).
          destruct Hd0 as [Hpg0 _]. rewrite Hpg0, Hrg, Hrr.
          rewrite (mat_mul_assoc Qc_field_ops), (inv4_right Qc_field_ops _ _ Hinv).
          apply (mat_mul_id_l Qc_field_ops).
        - exact Hrb. }
      split; [exact Hpg|].
      assert (Hpv : matPoseVerts b' =
                    match inv4 (matRestGlobal b) with
                    | Some N => mat_mul (matPoseGlobal b') N
                    | None => identity4
                    end) by reflexivity.
      rewrite Hpv, Hpg.
      destruct (inv4 (matRestGlobal b)) as [N|] eqn:HN; [|reflexivity].
      apply (inv4_right Qc_field_ops _ _ HN). }
    apply IH.
    + rewrite <- Hv. simpl. rewrite <- app_assoc. simpl. rewrite !map_app. reflexivity.
    + constructor; assumption.
    + exact Hpf.
    + exact Hrel'.
    + exact Hid'.
Qed.

Lemma update_all_rest_pose bs :
  parents_first [] bs -> rest_built bs -> Forall (fun b => matPose b = identity4) bs ->
  Forall rest_posed (update_all bs).
Proof.
  intros Hpf Hrb Hid. apply (update_sweep_rest_pose bs bs []); auto.
Qed.

Lemma dict_find_set {V} k k' (v : V) d :
  dict_find k (dict_set k' v d) = if String.eqb k k' then Some v else dict_find k d.
Proof.
  induction d as [|[k'' v''] d IH]; simpl; auto.
  destruct (String.eqb k' k'') eqn:E.
  - apply String.eqb_eq in E; subst k''. simpl. destruct (String.eqb k k'); reflexivity.
  - simpl. rewrite IH. destruct (String.eqb k k') eqn:E1; auto.
    apply String.eqb_eq in E1; subst k'.
    destruct (String.eqb k k'') eqn:E2; auto.
    discriminate.
Qed.

Lemma bone_matrices_values k bs M :
  dict_find k (bone_matrices bs) = Some M -> exists b, In b bs /\ M = matPoseVerts b.
Proof.
  unfold bone_matrices.
  assert (G : forall d, dict_find k (fold_left (fun d b => dict_set (bname b) (matPoseVerts b) d) bs d)
                        = Some M ->
              (exists b, In b bs /\ M = matPoseVerts b) \/ dict_find k d = Some M).
  { induction bs as [|b bs IH]; simpl; intros d H; [right; exact H|].
    destruct (IH _ H) as [[b' [Hin E]]|H'].
    - left. exists b'. split; [right; exact Hin|exact E].
    - rewrite dict_find_set in H'. destruct (String.eqb k (bname b)).
      + injection H' as <-. left. exists b. split; [left; reflexivity|reflexivity].
      + right; exact H'. }
  intros H. destruct (G [] H) as [E|E]; [exact E|discriminate].
Qed.

Definition is_some {A} (o : option A) : bool :=
  match o with Some _ => true | None => false end.

Lemma bone_matrices_keys k bs :
  is_some (dict_find k (bone_matrices bs)) = existsb (String.eqb k) (map bname bs).
Proof.
  unfold bone_matrices.
  assert (G : forall d, is_some (dict_find k (fold_left (fun d b => dict_set (bname b) (matPoseVerts b) d) bs d))
              = is_some (dict_find k d) || existsb (String.eqb k) (map bname bs)).
  { induction bs as [|b bs IH]; simpl; intros d; [rewrite orb_false_r; reflexivity|].
    rewrite IH, dict_find_set. destruct (String.eqb k (bname b)); simpl.
    - rewrite orb_true_r. reflexivity.
    - reflexivity. }
  rewrite G. reflexivity.
Qed.

Lemma total_at_ext l1 l2 wd p :
  (forall n, is_some (l1 n) = is_some (l2 n)) -> total_at l1 wd p = total_at l2 wd p.
Proof.
  intros H. induction wd as [|[bn [idx ws]] wd IH]; simpl; auto.
  specialize (H bn). rewrite IH.
  destruct (l1 bn), (l2 bn); simpl in H; congruence.
Qed.

Lemma skin_vert_identity v : skin_vert identity4 v = v.
Proof. destruct v. unfold skin_vert, mat_vec, identity4, hom. simpl. f_equal; ring. Qed.

(** With identity skinning matrices, the raw sum is the rest position
    scaled by the total weight. *)
Lemma lbs_at_identity look wd verts p :
  (forall n M, look n = Some M -> M = identity4) ->
  lbs_at look wd verts p = vscale_r (nth p verts vzero) (total_at look wd p).
Proof.
  intros H. induction wd as [|[bn [idx ws]] wd IH]; simpl.
  - destruct (nth p verts vzero); unfold vscale_r, vzero; simpl. f_equal; ring.
  - destruct (look bn) as [M|] eqn:E; [|exact IH].
    rewrite (H _ _ E), skin_vert_identity, IH.
    destruct (nth p verts vzero); unfold vadd, vscale_r; simpl. f_equal; ring.
Qed.

(** The preview output: all vertices at rest after an exception, else the
    fallback or the raw sum at each vertex. *)
Lemma skin_preview_cases bs wd verts :
  Forall entry_ok wd ->
  skin_preview bs wd verts = verts \/
  (List.length (skin_preview bs wd verts) = List.length verts /\
   forall p, (p < List.length verts)%nat ->
     nth p (skin_preview bs wd verts) vzero =
     if Qclt_le_dec (total_at (preview_look bs) wd p) (q 0.01)
     then nth p verts vzero else lbs_at (preview_look bs) wd verts p).
Proof.
  intros Hok. unfold skin_preview.
  destruct (fold_opt (preview_entry (bone_matrices bs) verts) wd
              (repeat vzero (List.length verts), repeat 0 (List.length verts)))
    as [[d t]|] eqn:Hf; [right|left; reflexivity].
  destruct (preview_fold_spec _ verts wd _ _ d t Hok (repeat_length _ _)
              (repeat_length _ _) Hf) as [Ld [Lt N]].
  split.
  - rewrite length_map, !length_combine. lia.
  - intros p Hp.
    rewrite (nth_map_lt _ _ _ _ (vzero, (vzero, 0)))
      by (rewrite !length_combine; lia).
    rewrite nth_combine_lt by (rewrite ?length_combine; lia).
    rewrite nth_combine_lt by lia.
    destruct (N p Hp) as [E1 E2]. rewrite E1, E2.
    rewrite !nth_repeat_lt by exact Hp.
    rewrite vadd_zero_l. unfold preview_look.
    replace (0 + total_at (fun n0 => dict_find n0 (bone_matrices bs)) wd p)
      with (total_at (fun n0 => dict_find n0 (bone_matrices bs)) wd p) by ring.
    reflexivity.
Qed.

Lemma names_update_all bs : map bname (update_all bs) = map bname bs.
Proof.
  pose proof (update_sweep_view [] bs) as H. simpl in H.
  apply (f_equal (map (fun v => fst (fst (fst (fst v)))))) in H.
  rewrite !map_map in H. exact H.
Qed.

(** Boolean checks of the skeleton hypotheses, for concrete skeletons. *)
Fixpoint parents_firstb (seen : list string) (bs : list bone) : bool :=
  match bs with
  | [] => true
  | b :: r =>
      match bparent b with
      | None => true
      | Some p => existsb (String.eqb p) seen
      end && parents_firstb (bname b :: seen) r
  end.

Lemma parents_firstb_spec seen bs : parents_firstb seen bs = true -> parents_first seen bs.
Proof.
  revert seen; induction bs as [|b bs IH]; intros seen; simpl; auto.
  rewrite andb_true_iff. intros [H1 H2]. split; [|apply IH; exact H2].
  destruct (bparent b) as [p|]; auto.
  apply existsb_exists in H1 as [x [Hx E]]. apply String.eqb_eq in E. subst. exact Hx.
Qed.

Definition rest_relative_okb (bs : list bone) (b : bone) : bool :=
  match bparent b with
  | None => mat4_eqb (matRestRelative b) (matRestGlobal b)
  | Some p =>
      match find_bone p bs with
      | Some pb =>
          match inv4 (matRestGlobal pb) with
          | Some invP => mat4_eqb (matRestRelative b) (mat_mul invP (matRestGlobal b))
          | None => false
          end
      | None => false
      end
  end.

Lemma rest_builtb_spec bs : forallb (rest_relative_okb bs) bs = true -> rest_built bs.
Proof.
  intros H. apply Forall_forall. intros b Hin. rewrite forallb_forall in H.
  specialize (H b Hin). unfold rest_relative_okb, rest_relative_ok in *.
  destruct (bparent b) as [p|]; [|apply mat4_eqb_eq; exact H].
  destruct (find_bone p bs) as [pb|]; [|discriminate].
  destruct (inv4 (matRestGlobal pb)) as [N|] eqn:HN; [|discriminate].
  exists pb, N. split; [reflexivity|]. split; [exact HN|]. apply mat4_eqb_eq; exact H.
Qed.

Lemma identity_posesb_spec bs :
  forallb (fun b => mat4_eqb (matPose b) identity4) bs = true ->
  Forall (fun b => matPose b = identity4) bs.
Proof.
  intros H. apply Forall_forall. intros b Hin. rewrite forallb_forall in H.
  apply mat4_eqb_eq. apply H. exact Hin.
Qed.

Lemma totals_oneb_spec look wd n :
  forallb (fun p => qc_eqb (total_at look wd p) 1) (seq 0 n) = true ->
  forall p, (p < n)%nat -> total_at look wd p = 1.
Proof.
  intros H p Hp. rewrite forallb_forall in H. apply qc_eqb_eq. apply H.
  apply in_seq. lia.
Qed.

(* ------------------------------------------------------------------ *)
(** ** Claim C2 *)

(** C2. Take a built skeleton, listed parents first, in which every local
    pose matrix is the identity, and vertex weights whose index arrays have
    no repetition, with as many weights as indices, and whose weights on
    the skeleton's bones sum to 1 at every vertex. After the update sweep
    over [getBones()], the preview skinning returns every vertex at its
    rest position. *)
Theorem skin_preview_identity_pose (bs : list bone) (wd : weights_data)
    (verts : list vec3) :
  parents_first [] bs -> rest_built bs ->
  Forall (fun b => matPose b = identity4) bs ->
  Forall entry_ok wd ->
  (forall p, (p < List.length verts)%nat -> total_at (preview_look bs) wd p = 1) ->
  skin_preview (update_all bs) wd verts = verts.
Proof.
  intros Hpf Hrb Hid Hok Hsum.
  pose proof (update_all_rest_pose bs Hpf Hrb Hid) as Hrp.
  assert (Hlook : forall n M, preview_look (update_all bs) n = Some M -> M = identity4).
  { intros n M H. destruct (bone_matrices_values _ _ _ H) as [b [Hin ->]].
    rewrite Forall_forall in Hrp. apply (Hrp b Hin). }
  assert (Htot : forall p, total_at (preview_look (update_all bs)) wd p =
                           total_at (preview_look bs) wd p).
  { intros p. apply total_at_ext. intros n. unfold preview_look.
    rewrite !bone_matrices_keys, names_update_all. reflexivity. }
  destruct (skin_preview_cases (update_all bs) wd verts Hok) as [E|[L N]]; [exact E|].
  apply nth_ext with vzero vzero; [exact L|]. intros p Hp. rewrite L in Hp.
  rewrite N by exact Hp.
  rewrite (lbs_at_identity _ _ _ _ Hlook), Htot, (Hsum p Hp).
  destruct (Qclt_le_dec 1 (q 0.01)); [reflexivity|].
  destruct (nth p verts vzero); unfold vscale_r; simpl. f_equal; ring.
Qed.

(** A root and a child bone, both with the identity as rest matrix. *)
Definition two_bones : list bone :=
  [bone_at_rest "root" None; bone_at_rest "child" (Some "root")].

Definition split_weights : weights_data :=
  [("root", ([0%nat], [q 0.25])); ("child", ([0%nat; 1%nat], [q 0.75; 1]));
   ("other", ([1%nat], [q 0.5]))].

Lemma skin_preview_identity_pose_witness :
  parents_first [] two_bones /\ rest_built two_bones /\
  Forall (fun b => matPose b = identity4) two_bones /\
  Forall entry_ok split_weights /\
  (forall p, (p < List.length two_verts)%nat ->
     total_at (preview_look two_bones) split_weights p = 1) /\
  skin_preview (update_all two_bones) split_weights two_verts = two_verts.
Proof.
  assert (H1 : parents_first [] two_bones)
    by (apply parents_firstb_spec; vm_compute; reflexivity).
  assert (H2 : rest_built two_bones)
    by (apply rest_builtb_spec; vm_compute; reflexivity).
  assert (H3 : Forall (fun b => matPose b = identity4) two_bones)
    by (apply identity_posesb_spec; vm_compute; reflexivity).
  assert (H4 : Forall entry_ok split_weights)
    by (apply entries_okb_spec; vm_compute; reflexivity).
  assert (H5 : forall p, (p < List.length two_verts)%nat ->
                 total_at (preview_look two_bones) split_weights p = 1)
    by (apply totals_oneb_spec; vm_compute; reflexivity).
  split; [exact H1|]. split; [exact H2|]. split; [exact H3|].
  split; [exact H4|]. split; [exact H5|].
  exact (skin_preview_identity_pose two_bones split_weights two_verts H1 H2 H3 H4 H5).
Defined.

(* ------------------------------------------------------------------ *)
(** ** Weight retargeting ([Skeleton._retarget_weights])

    A bone as the retargeting sees it: its name, its
    [_weight_reference_bones] and its [reference_bones] (both already
    deduplicated by the constructor; a [None] is the empty list, which
    the code treats alike). *)

Record rbone := RBone { rb_name : string; rb_wrefs : list string; rb_refs : list string }.

(** [refs = bone._weight_reference_bones], replaced by
    [bone.reference_bones] when empty. *)
Definition eff_refs (b : rbone) : list string :=
  match rb_wrefs b with [] => rb_refs b | r => r end.

(** [if v not in d: d[v] = 0.0] then [d[v] += w], on a dict in insertion
    order. *)
Fixpoint acc_add (v : nat) (w : Qc) (d : list (nat * Qc)) : list (nat * Qc) :=
  match d with
  | [] => [(v, 0 + w)]
  | (k, x) :: r => if Nat.eqb k v then (k, x + w) :: r else (k, x) :: acc_add v w r
  end.

(** [for i, v in enumerate(vs): ... += ws[i]]: [ws[i]] raises when [ws]
    is shorter than [vs]. *)
Definition add_pairs (d : list (nat * Qc)) (vs : list nat) (ws : list Qc)
    : option (list (nat * Qc)) :=
  if Nat.leb (List.length vs) (List.length ws)
  then Some (fold_left (fun a '(v, w) => acc_add v w a) (combine vs ws) d)
  else None.

(** [d[v] = w] on a dict with integer keys, in insertion order. *)
Fixpoint zip_set (v : nat) (w : Qc) (d : list (nat * Qc)) : list (nat * Qc) :=
  match d with
  | [] => [(v, w)]
  | (k, x) :: r => if Nat.eqb k v then (k, w) :: r else (k, x) :: zip_set v w r
  end.

(** [dict(zip(t_vs, t_ws))] *)
Definition dict_of_zip (vs : list nat) (ws : list Qc) : list (nat * Qc) :=
  fold_left (fun a '(v, w) => zip_set v w a) (combine vs ws) [].

(** Sorting the pairs by vertex index ([np.argsort] of distinct keys). *)
Fixpoint insert_pair (p : nat * Qc) (l : list (nat * Qc)) : list (nat * Qc) :=
  match l with
  | [] => [p]
  | x :: r => if Nat.leb (fst p) (fst x) then p :: l else x :: insert_pair p r
  end.

Fixpoint sort_pairs (l : list (nat * Qc)) : list (nat * Qc) :=
  match l with [] => [] | x :: r => insert_pair x (sort_pairs r) end.

(** [vs = np.array(keys)], [ws = np.array(values)], both reordered by
    [np.argsort(vs)]. *)
Definition to_arrays (d : list (nat * Qc)) : list nat * list Qc :=
  let s := sort_pairs d in (map fst s, map snd s).

(** The weights of all referenced bones present in the source data. *)
Definition combine_refs (data : weights_data) (refs : list string)
    : option (list (nat * Qc)) :=
  fold_opt (fun acc r => match dict_find r data with
                         | Some (vs, ws) => add_pairs acc vs ws
                         | None => Some acc
                         end) refs [].

(** One iteration of [for bone in self.boneslist]: the new weight dict and
    [has_retargeting]. *)
Definition retarget_bone (data : weights_data) (st : weights_data * bool) (b : rbone)
    : option (weights_data * bool) :=
  let '(nwd, has) := st in
  match eff_refs b with
  | _ :: _ =>
      match combine_refs data (eff_refs b) with
      | None => None
      | Some [] => Some (nwd, true)
      | Some c => Some (dict_set (rb_name b) (to_arrays c) nwd, true)
      end
  | [] =>
      match dict_find (rb_name b) data with
      | Some e => Some (dict_set (rb_name b) e nwd, has)
      | None => Some (nwd, has)
      end
  end.

Definition extra_mapping : list (string * list string) :=
  [("clavicle_l", ["scapula.L"; "trapezius.L"]);
   ("clavicle_r", ["scapula.R"; "trapezius.R"]);
   ("upperarm_l", ["deltoid.L"]);
   ("upperarm_r", ["deltoid.R"]);
   ("spine_03", ["latissimus.L"; "latissimus.R"; "pectoralis.L"; "pectoralis.R"]);
   ("pelvis", ["gluteus.L"; "gluteus.R"]);
   ("head", ["jaw"; "eye.L"; "eye.R"; "tongue01"; "tongue02"; "tongue03"; "tongue04";
             "upperlid.L"; "upperlid.R"; "lowerlid.L"; "lowerlid.R"])].

(** The helper weights of [sources] added to [combined]; the flag is
    [added]. *)
Definition add_sources (data : weights_data) (combined : list (nat * Qc))
    (sources : list string) : option (list (nat * Qc) * bool) :=
  fold_opt (fun '(c, added) src =>
              match dict_find src data with
              | Some (s_vs, s_ws) =>
                  match add_pairs c s_vs s_ws with
                  | Some c' => Some (c', true)
                  | None => None
                  end
              | None => Some (c, added)
              end) sources (combined, false).

(** One iteration of the cleanup over [extra_mapping.items()]. *)
Definition cleanup_step (data : weights_data) (nwd : weights_data)
    (m : string * list string) : option weights_data :=
  let '(target_bone, sources) := m in
  match dict_find target_bone data with
  | None => Some nwd
  | Some _ =>
      let '(t_vs, t_ws) := dict_get target_bone nwd ([], []) in
      match add_sources data (dict_of_zip t_vs t_ws) sources with
      | None => None
      | Some (c, true) => Some (dict_set target_bone (to_arrays c) nwd)
      | Some (_, false) => Some nwd
      end
  end.

(** [Skeleton._retarget_weights]: the weight data it leaves. Without any
    referencing bone, [self.vertexWeights._data] is not replaced. *)
Definition retarget_weights (data : weights_data) (bones : list rbone)
    : option weights_data :=
  match fold_opt (retarget_bone data) bones ([], false) with
  | None => None
  | Some (nwd, true) => fold_opt (cleanup_step data) extra_mapping nwd
  | Some (_, false) => Some data
  end.

(* ------------------------------------------------------------------ *)
(** ** Facts about the retargeting *)

Lemma wsum_app v l1 l2 : wsum v (l1 ++ l2) = wsum v l1 + wsum v l2.
Proof.
  induction l1 as [|[i w] l1 IH]; simpl; [ring|].
  rewrite IH. destruct (Nat.eqb v i); ring.
Qed.

Lemma wsum_perm v l1 l2 : Permutation l1 l2 -> wsum v l1 = wsum v l2.
Proof.
  induction 1 as [|[i w] l1 l2 _ IH|[i w] [j x] l|l1 l2 l3 _ IH1 _ IH2]; simpl.
  - reflexivity.
  - rewrite IH. reflexivity.
  - destruct (Nat.eqb v i), (Nat.eqb v j); ring.
  - congruence.
Qed.

Lemma wsum_acc_add v k w d :
  wsum v (acc_add k w d) = wsum v d + (if Nat.eqb v k then w else 0).
Proof.
  induction d as [|[i x] d IH]; simpl.
  - destruct (Nat.eqb v k); ring.
  - destruct (Nat.eqb i k) eqn:E; simpl.
    + apply Nat.eqb_eq in E; subst. destruct (Nat.eqb v k); ring.
    + rewrite IH. destruct (Nat.eqb v i); ring.
Qed.

Lemma keys_acc_add k w d :
  map fst (acc_add k w d) = if existsb (Nat.eqb k) (map fst d) then map fst d
                            else (map fst d ++ [k])%list.
Proof.
  induction d as [|[i x] d IH]; simpl; auto.
  destruct (Nat.eqb i k) eqn:E; simpl.
  - apply Nat.eqb_eq in E; subst. rewrite Nat.eqb_refl. reflexivity.
  - rewrite Nat.eqb_sym, E. simpl. rewrite IH.
    destruct (existsb (Nat.eqb k) (map fst d)); reflexivity.
Qed.

Lemma nodup_acc_add k w d : NoDup (map fst d) -> NoDup (map fst (acc_add k w d)).
Proof.
  intros H. rewrite keys_acc_add.
  destruct (existsb (Nat.eqb k) (map fst d)) eqn:E; [exact H|].
  apply NoDup_app; [exact H|repeat constructor; simpl; tauto|].
  intros x Hx [Hk|[]]. subst x.
  assert (existsb (Nat.eqb k) (map fst d) = true)
    by (apply existsb_exists; exists k; split; [exact Hx|apply Nat.eqb_refl]).
  congruence.
Qed.

Lemma add_pairs_spec d vs ws d' :
  add_pairs d vs ws = Some d' ->
  (forall v, wsum v d' = wsum v d + wsum v (combine vs ws)) /\
  (NoDup (map fst d) -> NoDup (map fst d')).
Proof.
  unfold add_pairs. destruct (Nat.leb (List.length vs) (List.length ws)); [|discriminate].
  intros H; injection H as <-.
  generalize (combine vs ws) as l. intros l. revert d.
  induction l as [|[i w] l IH]; intros d; simpl.
  - split; [intros v; ring|auto].
  - destruct (IH (acc_add i w d)) as [E N]. split.
    + intros v. rewrite E, wsum_acc_add. destruct (Nat.eqb v i); ring.
    + intros Hd. apply N. apply nodup_acc_add. exact Hd.
Qed.

Definition entry_weight (v : nat) (e : option (list nat * list Qc)) : Qc :=
  match e with None => 0 | Some (vs, ws) => wsum v (combine vs ws) end.

(** The summed weights of the listed bones present in [data]. *)
Definition refs_weight (data : weights_data) (refs : list string) (v : nat) : Qc :=
  fold_right (fun r s => entry_weight v (dict_find r data) + s) 0 refs.

Lemma combine_refs_gen data refs acc c :
  fold_opt (fun acc r => match dict_find r data with
                         | Some (vs, ws) => add_pairs acc vs ws
                         | None => Some acc
                         end) refs acc = Some c ->
  (forall v, wsum v c = wsum v acc + refs_weight data refs v) /\
  (NoDup (map fst acc) -> NoDup (map fst c)).
Proof.
  revert acc; induction refs as [|r refs IH]; intros acc; simpl.
  - intros H; injection H as <-. split; [intros v; ring|auto].
  - destruct (dict_find r data) as [[vs ws]|] eqn:Er.
    + destruct (add_pairs acc vs ws) as [a1|] eqn:Ea; [|discriminate].
      intros H. destruct (add_pairs_spec _ _ _ _ Ea) as [E1 N1].
      destruct (IH a1 H) as [E2 N2]. split.
      * intros v. rewrite E2, E1. simpl. ring.
      * intros Hd. apply N2, N1, Hd.
    + intros H. destruct (IH acc H) as [E2 N2]. split; [|exact N2].
      intros v. rewrite E2. simpl. ring.
Qed.

Lemma combine_refs_spec data refs c :
  combine_refs data refs = Some c ->
  (forall v, wsum v c = refs_weight data refs v) /\ NoDup (map fst c).
Proof.
  unfold combine_refs. intros H. destruct (combine_refs_gen data refs [] c H) as [E N].
  split; [intros v; rewrite E; simpl; ring|apply N; constructor].
Qed.

Lemma dict_find_In {V} k (v : V) d : dict_find k d = Some v -> In (k, v) d.
Proof.
  induction d as [|[k' v'] d IH]; simpl; [discriminate|].
  destruct (String.eqb k k') eqn:E.
  - intros H; injection H as <-. apply String.eqb_eq in E; subst. left; reflexivity.
  - intros H; right; apply IH, H.
Qed.

Lemma dict_get_find {V} k (d : pydict V) def :
  dict_get k d def = match dict_find k d with Some v => v | None => def end.
Proof.
  induction d as [|[k' v'] d IH]; simpl; auto.
  destruct (String.eqb k k'); auto.
Qed.

Lemma insert_pair_perm p l : Permutation (insert_pair p l) (p :: l).
Proof.
  induction l as [|x r IH]; simpl; auto.
  destruct (Nat.leb (fst p) (fst x)); auto.
  eapply perm_trans; [apply perm_skip, IH|apply perm_swap].
Qed.

Lemma sort_pairs_perm l : Permutation (sort_pairs l) l.
Proof.
  induction l as [|x r IH]; simpl; auto.
  eapply perm_trans; [apply insert_pair_perm|apply perm_skip, IH].
Qed.

Lemma insert_pair_sorted p l :
  Sorted le (map fst l) -> Sorted le (map fst (insert_pair p l)).
Proof.
  induction l as [|x r IH]; simpl; intros H.
  - repeat constructor.
  - destruct (Nat.leb (fst p) (fst x)) eqn:E; simpl.
    + constructor; [exact H|constructor; apply Nat.leb_le; exact E].
    + apply Nat.leb_gt in E. inversion H as [|a b H1 H2]; subst.
      constructor; [apply IH, H1|].
      destruct r as [|y r']; simpl; [constructor; lia|].
      destruct (Nat.leb (fst p) (fst y)); simpl; constructor; [lia|].
      inversion H2; assumption.
Qed.

Lemma sort_pairs_sorted l : Sorted le (map fst (sort_pairs l)).
Proof. induction l as [|x r IH]; simpl; [constructor|apply insert_pair_sorted, IH]. Qed.

Lemma sorted_le_nodup_lt l : Sorted le l -> NoDup l -> Sorted lt l.
Proof.
  induction 1 as [|a l H IH Hd]; intros Hn; constructor.
  - inversion Hn; auto.
  - inversion Hn as [|x y Hni Hn']; subst. destruct l as [|b l]; constructor.
    inversion Hd; subst. assert (a <> b) by (intros ->; apply Hni; left; reflexivity). lia.
Qed.

Lemma sorted_lt_nodup l : Sorted lt l -> NoDup l.
Proof.
  intros H. apply Sorted_StronglySorted in H; [|intros x y z; lia].
  induction H as [|a l _ IH Hall]; constructor; auto.
  intros Hin. rewrite Forall_forall in Hall. specialize (Hall a Hin). lia.
Qed.

Lemma combine_map_fst_snd {A B} (s : list (A * B)) : combine (map fst s) (map snd s) = s.
Proof. induction s as [|[a b] s IH]; simpl; f_equal; auto. Qed.

(** The index and weight arrays of a bone's retargeted weight set. *)
Definition sorted_entry (e : list nat * list Qc) : Prop :=
  Sorted lt (fst e) /\ List.length (snd e) = List.length (fst e).

Definition pairs_ok (e : list nat * list Qc) : Prop :=
  NoDup (fst e) /\ List.length (snd e) = List.length (fst e).

Lemma sorted_entry_ok e : sorted_entry e -> pairs_ok e.
Proof. intros [H1 H2]; split; [apply sorted_lt_nodup|]; assumption. Qed.

Lemma to_arrays_spec c :
  NoDup (map fst c) ->
  sorted_entry (to_arrays c) /\
  forall v, wsum v (combine (fst (to_arrays c)) (snd (to_arrays c))) = wsum v c.
Proof.
  intros Hn. unfold to_arrays, sorted_entry; simpl. split; [split|].
  - apply sorted_le_nodup_lt; [apply sort_pairs_sorted|].
    eapply Permutation_NoDup; [|exact Hn].
    apply Permutation_map, Permutation_sym, sort_pairs_perm.
  - rewrite !length_map; reflexivity.
  - intros v. rewrite combine_map_fst_snd. apply wsum_perm, sort_pairs_perm.
Qed.

Lemma zip_set_absent v w d : ~ In v (map fst d) -> zip_set v w d = (d ++ [(v, w)])%list.
Proof.
  induction d as [|[k x] d IH]; simpl; auto.
  intros Hn. destruct (Nat.eqb k v) eqn:E.
  - apply Nat.eqb_eq in E; subst. exfalso; apply Hn; left; reflexivity.
  - rewrite IH; [reflexivity|]. intros Hi; apply Hn; right; exact Hi.
Qed.

Lemma dict_of_zip_spec vs ws :
  NoDup vs -> List.length ws = List.length vs -> dict_of_zip vs ws = combine vs ws.
Proof.
  intros Hn Hl. unfold dict_of_zip.
  assert (Hk : map fst (combine vs ws) = vs) by (apply map_fst_combine; lia).
  enough (G : forall l acc, NoDup (map fst acc ++ map fst l)%list ->
            fold_left (fun a '(v, w) => zip_set v w a) l acc = (acc ++ l)%list)
    by (apply G; simpl; rewrite Hk; exact Hn).
  induction l as [|[i w] l IH]; intros acc H; simpl.
  - rewrite app_nil_r; reflexivity.
  - rewrite zip_set_absent.
    + rewrite IH, <- app_assoc; [reflexivity|].
      rewrite map_app, <- app_assoc. exact H.
    + intros Hi. apply NoDup_remove_2 in H. apply H. apply in_or_app; left; exact Hi.
Qed.

Lemma add_sources_gen data srcs c0 a0 c added :
  fold_opt (fun '(c, added) src =>
              match dict_find src data with
              | Some (s_vs, s_ws) =>
                  match add_pairs c s_vs s_ws with
                  | Some c' => Some (c', true)
                  | None => None
                  end
              | None => Some (c, added)
              end) srcs (c0, a0) = Some (c, added) ->
  (forall v, wsum v c = wsum v c0 + refs_weight data srcs v) /\
  (NoDup (map fst c0) -> NoDup (map fst c)) /\
  (added = false -> c = c0 /\ forall v, refs_weight data srcs v = 0).
Proof.
  revert c0 a0; induction srcs as [|r srcs IH]; intros c0 a0; simpl.
  - intros H; injection H as <- <-. split; [intros v; ring|split; auto].
  - destruct (dict_find r data) as [[vs ws]|] eqn:Er.
    + destruct (add_pairs c0 vs ws) as [a1|] eqn:Ea; [|discriminate].
      intros H. destruct (add_pairs_spec _ _ _ _ Ea) as [E1 N1].
      destruct (IH a1 true H) as [E2 [N2 F2]]. split; [|split].
      * intros v. rewrite E2, E1. simpl. ring.
      * intros Hd. apply N2, N1, Hd.
      * intros ->. (* the flag, once set, stays set *)
        clear -H. exfalso. revert a1 H. induction srcs as [|r' srcs IH']; simpl; intros a1 H.
        { discriminate. }
        destruct (dict_find r' data) as [[vs' ws']|].
        { destruct (add_pairs a1 vs' ws') as [a2|]; [|discriminate]. exact (IH' _ H). }
        exact (IH' _ H).
    + intros H. destruct (IH c0 a0 H) as [E2 [N2 F2]].
      cbn [entry_weight]. split; [|split].
      * intros v. rewrite E2. ring.
      * exact N2.
      * intros Hf. destruct (F2 Hf) as [-> Z]. split; [reflexivity|].
        intros v. rewrite Z. ring.
Qed.

Lemma add_sources_spec data srcs c0 c added :
  add_sources data c0 srcs = Some (c, added) ->
  (forall v, wsum v c = wsum v c0 + refs_weight data srcs v) /\
  (NoDup (map fst c0) -> NoDup (map fst c)) /\
  (added = false -> c = c0 /\ forall v, refs_weight data srcs v = 0).
Proof. apply add_sources_gen. Qed.

Definition opt_ok (o : option (list nat * list Qc)) : Prop :=
  match o with Some e => pairs_ok e | None => True end.

Definition opt_sorted (o : option (list nat * list Qc)) : Prop :=
  match o with Some e => sorted_entry e | None => True end.

Lemma cleanup_step_other data nwd t srcs nwd' n :
  cleanup_step data nwd (t, srcs) = Some nwd' -> n <> t ->
  dict_find n nwd' = dict_find n nwd.
Proof.
  unfold cleanup_step. intros H Hn.
  destruct (dict_find t data); [|congruence].
  destruct (dict_get t nwd ([], [])) as [t_vs t_ws].
  destruct (add_sources data (dict_of_zip t_vs t_ws) srcs) as [[c [|]]|]; try congruence.
  injection H as <-. rewrite dict_find_set.
  destruct (String.eqb n t) eqn:E; [apply String.eqb_eq in E; congruence|reflexivity].
Qed.

Lemma cleanup_step_target data nwd t srcs nwd' v :
  cleanup_step data nwd (t, srcs) = Some nwd' ->
  opt_ok (dict_find t nwd) ->
  entry_weight v (dict_find t nwd') =
    entry_weight v (dict_find t nwd) +
    (if is_some (dict_find t data) then refs_weight data srcs v else 0) /\
  opt_ok (dict_find t nwd') /\
  (opt_sorted (dict_find t nwd) -> opt_sorted (dict_find t nwd')).
Proof.
  unfold cleanup_step. intros H Hok.
  destruct (dict_find t data) as [e|]; simpl;
    [|injection H as <-; split; [ring|split; auto]].
  rewrite dict_get_find in H.
  assert (Hz : exists t_vs t_ws, dict_get t nwd ([], []) = (t_vs, t_ws) /\
                 dict_of_zip t_vs t_ws = combine t_vs t_ws /\
                 entry_weight v (dict_find t nwd) = wsum v (combine t_vs t_ws)).
  { destruct (dict_find t nwd) as [[t_vs t_ws]|] eqn:Et.
    - exists t_vs, t_ws. rewrite dict_get_find, Et. destruct Hok as [H1 H2].
      split; [reflexivity|split; [apply dict_of_zip_spec; assumption|reflexivity]].
    - exists [], []. rewrite dict_get_find, Et. split; [reflexivity|split; reflexivity]. }
  destruct Hz as (t_vs & t_ws & Eg & Ez & Ew). rewrite <- dict_get_find, Eg, Ez in H.
  destruct (add_sources data (combine t_vs t_ws) srcs) as [[c added]|] eqn:Ea;
    [|discriminate].
  destruct (add_sources_spec _ _ _ _ _ Ea) as [E1 [N1 F1]].
  destruct added.
  - injection H as <-. rewrite dict_find_set, String.eqb_refl.
    assert (Hn : NoDup (map fst c)).
    { apply N1. destruct (dict_find t nwd) as [[a b]|] eqn:Et.
      - rewrite dict_get_find, Et in Eg. injection Eg as <- <-. destruct Hok as [Ha Hb]; simpl in Ha, Hb.
        rewrite map_fst_combine; [exact Ha|lia].
      - rewrite dict_get_find, Et in Eg. injection Eg as <- <-. constructor. }
    destruct (to_arrays_spec c Hn) as [S W].
    destruct (to_arrays c) as [vs ws] eqn:Ec. simpl in S, W. cbn [entry_weight].
    split; [rewrite W, E1, Ew; reflexivity|].
    split; [apply sorted_entry_ok, S|intros _; exact S].
  - injection H as <-. destruct (F1 eq_refl) as [_ Z]. rewrite Z.
    split; [ring|split; auto].
Qed.

(** Whether the bone takes its weights from reference bones. *)
Definition has_refs (b : rbone) : bool :=
  match eff_refs b with [] => false | _ :: _ => true end.

(** The weight of a bone at a vertex before the cleanup: its direct weight
    without references, the summed weight of its references otherwise. *)
Definition retarget_base (data : weights_data) (b : rbone) (v : nat) : Qc :=
  match eff_refs b with
  | [] => entry_weight v (dict_find (rb_name b) data)
  | refs => refs_weight data refs v
  end.

(** The helper weights the cleanup adds to bone [n] at vertex [v]. *)
Definition helper_weight (m : pydict (list string)) (data : weights_data) (n : string)
    (v : nat) : Qc :=
  match dict_find n m with
  | Some srcs => if is_some (dict_find n data) then refs_weight data srcs v else 0
  | None => 0
  end.

Lemma data_entry_ok data n e :
  Forall entry_ok data -> dict_find n data = Some e -> pairs_ok e.
Proof.
  intros Hd He. apply dict_find_In in He. rewrite Forall_forall in Hd.
  destruct e as [vs ws]. exact (Hd _ He).
Qed.

Lemma retarget_bone_frame data nwd has b nwd' has' n :
  retarget_bone data (nwd, has) b = Some (nwd', has') -> n <> rb_name b ->
  dict_find n nwd' = dict_find n nwd.
Proof.
  unfold retarget_bone. intros H Hn.
  assert (F : forall e, dict_find n (dict_set (rb_name b) e nwd) = dict_find n nwd).
  { intros e. rewrite dict_find_set. destruct (String.eqb n (rb_name b)) eqn:E;
      [apply String.eqb_eq in E; congruence|reflexivity]. }
  destruct (eff_refs b).
  - destruct (dict_find (rb_name b) data); injection H as <- _; auto.
  - destruct (combine_refs data (s :: l)) as [[|p c]|]; try discriminate;
      injection H as <- _; auto.
Qed.

Lemma retarget_bone_flag data nwd has b nwd' has' :
  retarget_bone data (nwd, has) b = Some (nwd', has') -> has' = has || has_refs b.
Proof.
  unfold retarget_bone, has_refs. intros H. destruct (eff_refs b).
  - rewrite orb_false_r. destruct (dict_find (rb_name b) data); congruence.
  - rewrite orb_true_r. destruct (combine_refs data (s :: l)) as [[|p c]|]; congruence.
Qed.

Lemma retarget_bone_entry data nwd has b nwd' has' :
  retarget_bone data (nwd, has) b = Some (nwd', has') ->
  Forall entry_ok data -> dict_find (rb_name b) nwd = None ->
  (forall v, entry_weight v (dict_find (rb_name b) nwd') = retarget_base data b v) /\
  opt_ok (dict_find (rb_name b) nwd') /\
  (has_refs b = true -> opt_sorted (dict_find (rb_name b) nwd')).
Proof.
  unfold retarget_bone, retarget_base, has_refs. intros H Hd H0.
  destruct (eff_refs b) as [|r rs].
  - destruct (dict_find (rb_name b) data) as [e|] eqn:Ed; injection H as <- _.
    + rewrite dict_find_set, String.eqb_refl. split; [reflexivity|split; [|discriminate]].
      exact (data_entry_ok _ _ _ Hd Ed).
    + rewrite H0. split; [reflexivity|split; [exact I|discriminate]].
  - destruct (combine_refs data (r :: rs)) as [c|] eqn:Ec; [|discriminate].
    destruct (combine_refs_spec _ _ _ Ec) as [W N].
    destruct c as [|p c].
    + injection H as <- _. rewrite H0. split; [|split; intros; exact I].
      intros v. rewrite <- W. reflexivity.
    + injection H as <- _. rewrite dict_find_set, String.eqb_refl.
      destruct (to_arrays_spec _ N) as [S W2].
      split; [|split; [apply sorted_entry_ok, S|intros _; exact S]].
      intros v. rewrite <- W, <- W2. simpl. destruct (to_arrays (p :: c)); reflexivity.
Qed.

Lemma retarget_fold_frame data bones nwd0 has0 nwd has n :
  fold_opt (retarget_bone data) bones (nwd0, has0) = Some (nwd, has) ->
  ~ In n (map rb_name bones) -> dict_find n nwd = dict_find n nwd0.
Proof.
  revert nwd0 has0; induction bones as [|b bones IH]; intros nwd0 has0; cbn [fold_opt].
  - intros H _; injection H as <- _; reflexivity.
  - destruct (retarget_bone data (nwd0, has0) b) as [[nwd1 has1]|] eqn:E; [|intros; discriminate].
    intros H Hn. rewrite (IH _ _ H) by (intros Hi; apply Hn; right; exact Hi).
    apply (retarget_bone_frame _ _ _ _ _ _ _ E). intros ->. apply Hn. left; reflexivity.
Qed.

Lemma retarget_fold_spec data bones nwd0 has0 nwd has :
  fold_opt (retarget_bone data) bones (nwd0, has0) = Some (nwd, has) ->
  NoDup (map rb_name bones) -> Forall entry_ok data ->
  (forall b, In b bones -> dict_find (rb_name b) nwd0 = None) ->
  has = has0 || existsb has_refs bones /\
  forall b, In b bones ->
    (forall v, entry_weight v (dict_find (rb_name b) nwd) = retarget_base data b v) /\
    opt_ok (dict_find (rb_name b) nwd) /\
    (has_refs b = true -> opt_sorted (dict_find (rb_name b) nwd)).
Proof.
  revert nwd0 has0; induction bones as [|b' bones IH]; intros nwd0 has0; cbn [fold_opt].
  - intros H _ _ _; injection H as <- <-. split; [rewrite orb_false_r; reflexivity|intros b []].
  - destruct (retarget_bone data (nwd0, has0) b') as [[nwd1 has1]|] eqn:E; [|intros; discriminate].
    intros H Hnd Hd H0. inversion Hnd as [|x y Hni Hnd']; subst.
    assert (H1 : forall b, In b bones -> dict_find (rb_name b) nwd1 = None).
    { intros b Hb. rewrite (retarget_bone_frame _ _ _ _ _ _ _ E).
      - apply H0; right; exact Hb.
      - intros Heq. apply Hni. rewrite <- Heq. apply in_map, Hb. }
    destruct (IH _ _ H Hnd' Hd H1) as [Hh Hb]. split.
    + cbn [existsb]. rewrite Hh, (retarget_bone_flag _ _ _ _ _ _ E), <- orb_assoc. reflexivity.
    + intros b [<-|Hin]; [|exact (Hb b Hin)].
      rewrite (retarget_fold_frame _ _ _ _ _ _ _ H Hni).
      apply (retarget_bone_entry _ _ _ _ _ _ E Hd). apply H0; left; reflexivity.
Qed.

Lemma cleanup_fold_frame data m nwd out n :
  fold_opt (cleanup_step data) m nwd = Some out -> ~ In n (map fst m) ->
  dict_find n out = dict_find n nwd.
Proof.
  revert nwd; induction m as [|[t srcs] m IH]; intros nwd; cbn [fold_opt].
  - intros H _; injection H as <-; reflexivity.
  - destruct (cleanup_step data nwd (t, srcs)) as [nwd1|] eqn:E; [|intros; discriminate].
    intros H Hn. rewrite (IH _ H) by (intros Hi; apply Hn; right; exact Hi).
    apply (cleanup_step_other _ _ _ _ _ _ E). intros ->. apply Hn. left; reflexivity.
Qed.

Lemma cleanup_fold_spec data m nwd out n :
  fold_opt (cleanup_step data) m nwd = Some out -> NoDup (map fst m) ->
  opt_ok (dict_find n nwd) ->
  (forall v, entry_weight v (dict_find n out) =
             entry_weight v (dict_find n nwd) + helper_weight m data n v) /\
  opt_ok (dict_find n out) /\
  (opt_sorted (dict_find n nwd) -> opt_sorted (dict_find n out)).
Proof.
  unfold helper_weight.
  revert nwd; induction m as [|[t srcs] m IH]; intros nwd; cbn [fold_opt].
  - intros H _ Hok; injection H as <-. split; [intros v; simpl; ring|auto].
  - destruct (cleanup_step data nwd (t, srcs)) as [nwd1|] eqn:E; [|intros; discriminate].
    intros H Hnd Hok. inversion Hnd as [|x y Hni Hnd']; subst.
    cbn [dict_find]. destruct (String.eqb n t) eqn:Et.
    + apply String.eqb_eq in Et; subst t.
      rewrite (cleanup_fold_frame _ _ _ _ _ H Hni).
      split; [|split].
      * intros v. apply (cleanup_step_target _ _ _ _ _ v E Hok).
      * apply (cleanup_step_target _ _ _ _ _ 0%nat E Hok).
      * apply (cleanup_step_target _ _ _ _ _ 0%nat E Hok).
    + assert (Hn : n <> t) by (intros ->; rewrite String.eqb_refl in Et; discriminate).
      rewrite <- (cleanup_step_other _ _ _ _ _ _ E Hn).
      apply (IH _ H Hnd'). rewrite (cleanup_step_other _ _ _ _ _ _ E Hn). exact Hok.
Qed.

Lemma extra_mapping_nodup : NoDup (map fst extra_mapping).
Proof. repeat constructor; cbn; intuition discriminate. Qed.

Lemma existsb_false_In {A} (f : A -> bool) l x :
  existsb f l = false -> In x l -> f x = false.
Proof.
  intros H Hin. destruct (f x) eqn:E; [|reflexivity].
  assert (existsb f l = true) by (apply existsb_exists; exists x; split; assumption).
  congruence.
Qed.

(** The retargeting example: [head] takes its weights from [neck_src], and
    the source data also weights [jaw], a helper bone of [head]. *)
Definition cx_data : weights_data :=
  [("head", ([0%nat], [1])); ("neck_src", ([1%nat], [1])); ("jaw", ([1%nat], [q 0.5]))].

Definition cx_bones : list rbone := [RBone "head" ["neck_src"] []].

(** C6, counterexample: the weight of [head] at vertex 1 is 1.5 although
    its only reference bone gives it 1. *)
Lemma retarget_adds_helper_weights :
  exists out, retarget_weights cx_data cx_bones = Some out /\
  entry_weight 1 (dict_find "head" out) <> refs_weight cx_data ["neck_src"] 1.
Proof.
  eexists. split; [vm_compute; reflexivity|].
  intros H. apply (f_equal this) in H. vm_compute in H. discriminate.
Qed.

(** C6 (corrected): for bones with distinct names and source entries whose
    index lists have no repetition and as many weights as indices, every
    bone of a successful retargeting gets, at every vertex, the summed
    weight of its reference bones (its own source weight when it has
    none) plus, when some bone has references, the weights of the helper
    bones [extra_mapping] lists for it if its name is in the source data;
    the entry of a bone with references has strictly increasing indices
    and one weight per index. *)
Theorem retarget_weights_reference_sum data bones out b :
  NoDup (map rb_name bones) -> Forall entry_ok data ->
  retarget_weights data bones = Some out -> In b bones ->
  (forall v, entry_weight v (dict_find (rb_name b) out) =
     retarget_base data b v +
     (if existsb has_refs bones then helper_weight extra_mapping data (rb_name b) v
      else 0)) /\
  (has_refs b = true -> opt_sorted (dict_find (rb_name b) out)).
Proof.
  intros Hnd Hd Hr Hb. unfold retarget_weights in Hr.
  destruct (fold_opt (retarget_bone data) bones ([], false)) as [[nwd has]|] eqn:F;
    [|discriminate].
  destruct (retarget_fold_spec _ _ _ _ _ _ F Hnd Hd (fun _ _ => eq_refl)) as [Hh Hall].
  simpl in Hh. rewrite <- Hh. destruct (Hall b Hb) as [W [Ok S]]. destruct has.
  - destruct (cleanup_fold_spec _ _ _ _ (rb_name b) Hr extra_mapping_nodup Ok)
      as [W2 [_ S2]].
    split; [intros v; rewrite W2, W; reflexivity|intros Hr'; apply S2, S, Hr'].
  - injection Hr as <-.
    assert (Hn : has_refs b = false) by (apply (existsb_false_In _ _ _ (eq_sym Hh) Hb)).
    split; [|congruence].
    intros v. unfold retarget_base. unfold has_refs in Hn.
    destruct (eff_refs b); [ring|discriminate].
Qed.

(** Two source bones merged into [thigh], and [foot] weighted directly. *)
Definition merge_data : weights_data :=
  [("thigh_a", ([0%nat; 2%nat], [1; q 0.5])); ("thigh_b", ([2%nat; 1%nat], [q 0.5; 1]));
   ("foot", ([3%nat], [1]))].

Definition merge_bones : list rbone :=
  [RBone "thigh" [] ["thigh_b"; "thigh_a"]; RBone "foot" [] []].

Definition merge_out : weights_data :=
  match retarget_weights merge_data merge_bones with Some o => o | None => [] end.

Lemma retarget_weights_reference_sum_witness :
  NoDup (map rb_name merge_bones) /\ Forall entry_ok merge_data /\
  retarget_weights merge_data merge_bones = Some merge_out /\
  In (RBone "thigh" [] ["thigh_b"; "thigh_a"]) merge_bones /\
  (forall v, entry_weight v (dict_find "thigh" merge_out) =
     retarget_base merge_data (RBone "thigh" [] ["thigh_b"; "thigh_a"]) v +
     (if existsb has_refs merge_bones
      then helper_weight extra_mapping merge_data "thigh" v else 0)) /\
  (has_refs (RBone "thigh" [] ["thigh_b"; "thigh_a"]) = true ->
   opt_sorted (dict_find "thigh" merge_out)).
Proof.
  assert (H1 : NoDup (map rb_name merge_bones))
    by (repeat constructor; cbn; intuition discriminate).
  assert (H2 : Forall entry_ok merge_data)
    by (apply entries_okb_spec; vm_compute; reflexivity).
  assert (H3 : retarget_weights merge_data merge_bones = Some merge_out)
    by (vm_compute; reflexivity).
  assert (H4 : In (RBone "thigh" [] ["thigh_b"; "thigh_a"]) merge_bones)
    by (left; reflexivity).
  split; [exact H1|]. split; [exact H2|]. split; [exact H3|]. split; [exact H4|].
  exact (retarget_weights_reference_sum merge_data merge_bones merge_out _ H1 H2 H3 H4).
Defined.

(* ------------------------------------------------------------------ *)
(** ** [VertexBoneWeights._build_vertex_weights_data] (mh_skeleton.py) *)

(** The raw weights as read from JSON: for each bone, its list of
    [[vn, w]] pairs. Lists, not tuples, so the early return for data
    already in the internal format is not taken. *)
Definition raw_weights := pydict (list (nat * Qc)).

(** [vcount = vertexCount], or [max(vals) + 1 if vals else 0]. *)
Definition vertex_count (vertexCount : option nat) (raw : raw_weights) : nat :=
  match vertexCount with
  | Some n => n
  | None =>
      match flat_map (fun '(_, vg) => map fst vg) raw with
      | [] => O
      | vals => S (list_max vals)
      end
  end.

(** [wtot[vn] += w]; an index out of range raises [IndexError]. *)
Definition add_total (wtot : list Qc) (item : nat * Qc) : option (list Qc) :=
  let '(vn, w) := item in
  if Nat.ltb vn (List.length wtot) then Some (list_set wtot vn (nth vn wtot 0 + w))
  else None.

(** [wtot = np.zeros(vcount)], then every pair of every group added. *)
Definition weight_totals (vcount : nat) (raw : raw_weights) : option (list Qc) :=
  fold_opt (fun wtot '(_, vg) => fold_opt add_total vg wtot) raw (repeat 0 vcount).

(** The [v_lookup] bookkeeping: [weights[v_idx] += x] for a vertex seen
    before, [verts.append(vn); weights.append(x)] otherwise. *)
Fixpoint lookup_add (vn : nat) (x : Qc) (d : list (nat * Qc)) : list (nat * Qc) :=
  match d with
  | [] => [(vn, x)]
  | (k, y) :: r => if Nat.eqb k vn then (k, y + x) :: r else (k, y) :: lookup_add vn x r
  end.

(** The loop over [vgroup], each weight divided by the vertex total. A
    zero total divides to [0] here and to [nan] in numpy; with non-negative
    weights it only occurs for zero weights, and both values fail the
    threshold test below. *)
Definition normalise_group (wtot : list Qc) (vg : list (nat * Qc)) : list (nat * Qc) :=
  fold_left (fun d '(vn, w) => lookup_add vn (w / nth vn wtot 0) d) vg [].

Definition WEIGHT_THRESHOLD : Qc := q 0.0001.

Definition qc_ltb (a b : Qc) : bool := negb (Qle_bool (this b) (this a)).

(** [np.argsort(verts)] (the vertices are distinct), then
    [np.argwhere(weights > WEIGHT_THRESHOLD)]. *)
Definition bone_weights_of (wtot : list Qc) (vg : list (nat * Qc)) : list nat * list Qc :=
  let s := filter (fun '(_, w) => qc_ltb WEIGHT_THRESHOLD w)
                  (sort_pairs (normalise_group wtot vg)) in
  (map fst s, map snd s).

(** [np.argwhere(wtot == 0)[:,0]] *)
Definition zero_total_indices (wtot : list Qc) : list nat :=
  filter (fun i => qc_eqb (nth i wtot 0) 0) (seq 0 (List.length wtot)).

Definition build_vertex_weights_data (raw : raw_weights) (vertexCount : option nat)
    (rootBone : string) : option weights_data :=
  let vcount := vertex_count vertexCount raw in
  match weight_totals vcount raw with
  | None => None
  | Some wtot =>
      let boneWeights :=
        fold_left (fun bw '(bname, vg) =>
                     match vg with
                     | [] => bw
                     | _ :: _ => dict_set bname (bone_weights_of wtot vg) bw
                     end) raw [] in
      let '(vs, ws) := match dict_find rootBone boneWeights with
                       | Some e => e
                       | None => ([], [])
                       end in
      let rw_i := zero_total_indices wtot in
      let vs' := (vs ++ rw_i)%list in
      let ws' := (ws ++ repeat 1 (List.length rw_i))%list in
      match vs' with
      | [] => Some boneWeights
      | _ :: _ => Some (dict_set rootBone (vs', ws') boneWeights)
      end
  end.

(** The stored weight of vertex [p], summed over all bones. *)
Definition stored_total (wd : weights_data) (p : nat) : Qc :=
  fold_right (fun '(_, (vs, ws)) s => wsum p (combine vs ws) + s) 0 wd.

(** The raw total weight of vertex [p] ([wtot[p]]). *)
Definition raw_total (raw : raw_weights) (p : nat) : Qc :=
  fold_right (fun '(_, vg) s => wsum p vg + s) 0 raw.

(** The normalised weights of vertex [p] that the threshold drops. *)
Definition dropped_weight (raw : raw_weights) (p : nat) : Qc :=
  fold_right (fun '(_, vg) s =>
                let x := wsum p vg / raw_total raw p in
                (if qc_ltb WEIGHT_THRESHOLD x then 0 else x) + s) 0 raw.


Lemma add_totals_spec vg wtot wtot' :
  fold_opt add_total vg wtot = Some wtot' ->
  List.length wtot' = List.length wtot /\
  forall p, (p < List.length wtot)%nat -> nth p wtot' 0 = nth p wtot 0 + wsum p vg.
Proof.
  revert wtot; induction vg as [|[vn w] vg IH]; intros wtot; cbn [fold_opt].
  - intros H; injection H as <-. split; [reflexivity|intros p _; simpl; ring].
  - unfold add_total at 1. destruct (Nat.ltb vn (List.length wtot)) eqn:E;
      [|intros; discriminate].
    apply Nat.ltb_lt in E. intros H. destruct (IH _ H) as [L N].
    rewrite length_list_set in L, N. split; [exact L|].
    intros p Hp. rewrite N by exact Hp. rewrite nth_list_set by exact E.
    simpl. destruct (Nat.eqb p vn) eqn:Ep.
    + apply Nat.eqb_eq in Ep; subst. ring.
    + ring.
Qed.

Lemma weight_totals_spec vcount raw wtot :
  weight_totals vcount raw = Some wtot ->
  List.length wtot = vcount /\
  forall p, (p < vcount)%nat -> nth p wtot 0 = raw_total raw p.
Proof.
  unfold weight_totals, raw_total.
  enough (G : forall w0 wtot, fold_opt (fun wtot '(_, vg) => fold_opt add_total vg wtot)
                raw w0 = Some wtot ->
            List.length wtot = List.length w0 /\
            forall p, (p < List.length w0)%nat ->
              nth p wtot 0 = nth p w0 0 +
                fold_right (fun '(_, vg) s => wsum p vg + s) 0 raw).
  { intros H. destruct (G _ _ H) as [L N]. rewrite repeat_length in L, N.
    split; [exact L|]. intros p Hp. rewrite N by exact Hp.
    rewrite nth_repeat_lt by exact Hp. ring. }
  induction raw as [|[bn vg] raw IH]; intros w0 wt; cbn [fold_opt].
  - intros H; injection H as <-. split; [reflexivity|intros p _; simpl; ring].
  - destruct (fold_opt add_total vg w0) as [w1|] eqn:E; [|intros; discriminate].
    intros H. destruct (add_totals_spec _ _ _ E) as [L1 N1].
    destruct (IH _ _ H) as [L2 N2]. split; [congruence|].
    intros p Hp. rewrite N2 by lia. rewrite N1 by exact Hp. simpl. ring.
Qed.

Lemma wsum_lookup_add p k x d :
  wsum p (lookup_add k x d) = wsum p d + (if Nat.eqb p k then x else 0).
Proof.
  induction d as [|[i y] d IH]; simpl.
  - destruct (Nat.eqb p k); ring.
  - destruct (Nat.eqb i k) eqn:E; simpl.
    + apply Nat.eqb_eq in E; subst. destruct (Nat.eqb p k); ring.
    + rewrite IH. destruct (Nat.eqb p i); ring.
Qed.

Lemma keys_lookup_add k x d :
  NoDup (map fst d) -> NoDup (map fst (lookup_add k x d)).
Proof.
  induction d as [|[i y] d IH]; simpl; intros H.
  - repeat constructor; simpl; tauto.
  - inversion H as [|a b Hni Hn]; subst. destruct (Nat.eqb i k) eqn:E; simpl.
    + exact H.
    + constructor; [|apply IH, Hn]. intros Hin. apply Hni.
      clear -Hin E. induction d as [|[j z] d IH']; simpl in *.
      * destruct Hin as [Hin|[]]. apply Nat.eqb_neq in E. congruence.
      * destruct (Nat.eqb j k); simpl in *; [exact Hin|].
        destruct Hin as [Hin|Hin]; [left; exact Hin|right; apply IH', Hin].
Qed.

Lemma normalise_group_spec wtot vg :
  NoDup (map fst (normalise_group wtot vg)) /\
  forall p, wsum p (normalise_group wtot vg) = wsum p vg * / nth p wtot 0.
Proof.
  unfold normalise_group.
  enough (G : forall d, NoDup (map fst d) ->
            NoDup (map fst (fold_left (fun d '(vn, w) => lookup_add vn (w / nth vn wtot 0) d) vg d)) /\
            forall p, wsum p (fold_left (fun d '(vn, w) => lookup_add vn (w / nth vn wtot 0) d) vg d)
                      = wsum p d + wsum p vg * / nth p wtot 0).
  { destruct (G [] (NoDup_nil _)) as [N W]. split; [exact N|].
    intros p. rewrite W. simpl. ring. }
  induction vg as [|[vn w] vg IH]; intros d Hd; simpl.
  - split; [exact Hd|intros p; ring].
  - destruct (IH _ (keys_lookup_add vn (w / nth vn wtot 0) d Hd)) as [N W].
    split; [exact N|]. intros p. rewrite W, wsum_lookup_add.
    destruct (Nat.eqb p vn) eqn:E.
    + apply Nat.eqb_eq in E; subst. unfold Qcdiv. ring.
    + ring.
Qed.

Lemma wsum_filter_nodup p (f : Qc -> bool) l :
  NoDup (map fst l) ->
  wsum p (filter (fun '(_, w) => f w) l) = if f (wsum p l) then wsum p l else 0.
Proof.
  induction l as [|[i w] l IH]; simpl; intros H.
  - destruct (f 0); reflexivity.
  - inversion H as [|a b Hni Hn]; subst. destruct (Nat.eqb p i) eqn:E.
    + apply Nat.eqb_eq in E; subst.
      assert (Z : wsum i l = 0) by (apply wsum_absent; exact Hni).
      assert (Zf : wsum i (filter (fun '(_, w) => f w) l) = 0).
      { apply wsum_absent. intros Hin. apply Hni.
        rewrite in_map_iff in Hin |- *. destruct Hin as [[j z] [Hj Hin]].
        apply filter_In in Hin. exists (j, z); tauto. }
      rewrite Z, Qcplus_0_r. destruct (f w); simpl; rewrite ?Nat.eqb_refl, ?Zf; ring.
    + rewrite <- IH by exact Hn. destruct (f w); simpl; rewrite ?E; reflexivity.
Qed.

(** The weight of bone entry at [p]: the normalised weight, when above
    the threshold. *)
Definition kept_weight (wtot : list Qc) (vg : list (nat * Qc)) (p : nat) : Qc :=
  let x := wsum p vg * / nth p wtot 0 in
  if qc_ltb WEIGHT_THRESHOLD x then x else 0.

Lemma bone_weights_of_spec wtot vg :
  List.length (snd (bone_weights_of wtot vg)) = List.length (fst (bone_weights_of wtot vg)) /\
  forall p, wsum p (combine (fst (bone_weights_of wtot vg)) (snd (bone_weights_of wtot vg)))
            = kept_weight wtot vg p.
Proof.
  unfold bone_weights_of, kept_weight. simpl. rewrite !length_map. split; [reflexivity|].
  intros p. rewrite combine_map_fst_snd.
  destruct (normalise_group_spec wtot vg) as [N W].
  rewrite (wsum_filter_nodup p (qc_ltb WEIGHT_THRESHOLD)).
  - rewrite (wsum_perm p _ _ (sort_pairs_perm _)), W. reflexivity.
  - eapply Permutation_NoDup; [|exact N].
    apply Permutation_map, Permutation_sym, sort_pairs_perm.
Qed.

Definition nonempty {A} (l : list A) : bool := match l with [] => false | _ :: _ => true end.

Lemma dict_set_absent {V} k (v : V) d :
  ~ In k (map fst d) -> dict_set k v d = (d ++ [(k, v)])%list.
Proof.
  induction d as [|[k' v'] d IH]; simpl; auto.
  intros Hn. destruct (String.eqb k k') eqn:E.
  - apply String.eqb_eq in E; subst. exfalso; apply Hn; left; reflexivity.
  - rewrite IH; [reflexivity|]. intros Hi; apply Hn; right; exact Hi.
Qed.

Lemma bone_weights_table wtot (raw : raw_weights) :
  NoDup (map fst raw) ->
  fold_left (fun bw '(bname, vg) =>
               match vg with
               | [] => bw
               | _ :: _ => dict_set bname (bone_weights_of wtot vg) bw
               end) raw [] =
  map (fun '(bname, vg) => (bname, bone_weights_of wtot vg))
      (filter (fun '(_, vg) => nonempty vg) raw).
Proof.
  intros Hn. change (map _ _) with ([] ++ map (fun '(bname, vg) => (bname, bone_weights_of wtot vg))
      (filter (fun '(_, vg) => nonempty vg) raw))%list.
  assert (Hd : forall n, In n (map fst raw) -> ~ In n (map fst (@nil (string * (list nat * list Qc))))) by (intros n _ []).
  revert Hd. generalize (@nil (string * (list nat * list Qc))) as acc.
  induction raw as [|[bn vg] raw IH]; intros acc Hd; simpl.
  - rewrite app_nil_r; reflexivity.
  - inversion Hn as [|a b Hni Hn']; subst.
    destruct vg as [|w vg]; simpl.
    + apply IH; [exact Hn'|]. intros n Hin. apply Hd. right; exact Hin.
    + rewrite dict_set_absent by (apply Hd; left; reflexivity).
      rewrite IH; [rewrite <- app_assoc; reflexivity|exact Hn'|].
      intros n Hin. rewrite map_app, in_app_iff. intros [H|[H|[]]].
      * apply (Hd n); [right; exact Hin|exact H].
      * simpl in H; subst. contradiction.
Qed.

Lemma stored_total_set k e d p :
  NoDup (map fst d) ->
  stored_total (dict_set k e d) p =
  stored_total d p - entry_weight p (dict_find k d) + wsum p (combine (fst e) (snd e)).
Proof.
  destruct e as [vs ws]. cbn [fst snd]. induction d as [|[k' [vs' ws']] d IH]; simpl; intros Hn.
  - ring.
  - destruct (String.eqb k k') eqn:E; simpl.
    + ring.
    + inversion Hn; subst. rewrite IH by assumption. ring.
Qed.

Lemma qc_inv_0 : / (0 : Qc) = 0.
Proof. apply Qc_is_canon. reflexivity. Qed.

Lemma kept_weight_nil wtot p : kept_weight wtot [] p = 0.
Proof.
  unfold kept_weight. assert (H : wsum p [] * / nth p wtot 0 = 0) by (simpl; ring).
  cbv zeta. rewrite H. reflexivity.
Qed.

Lemma stored_total_cons n e d p :
  stored_total ((n, e) :: d) p = wsum p (combine (fst e) (snd e)) + stored_total d p.
Proof. destruct e; reflexivity. Qed.

Lemma stored_total_table wtot (raw : raw_weights) p :
  stored_total (map (fun '(bname, vg) => (bname, bone_weights_of wtot vg))
                    (filter (fun '(_, vg) => nonempty vg) raw)) p =
  fold_right (fun '(_, vg) s => kept_weight wtot vg p + s) 0 raw.
Proof.
  induction raw as [|[bn vg] raw IH]; [reflexivity|].
  destruct vg as [|w vg]; cbn [filter nonempty map fold_right].
  - rewrite IH, kept_weight_nil. ring.
  - rewrite stored_total_cons, IH. destruct (bone_weights_of_spec wtot (w :: vg)) as [_ W].
    rewrite W. reflexivity.
Qed.

Lemma table_entry wtot (raw : raw_weights) n e :
  dict_find n (map (fun '(bname, vg) => (bname, bone_weights_of wtot vg))
                   (filter (fun '(_, vg) => nonempty vg) raw)) = Some e ->
  exists vg, e = bone_weights_of wtot vg.
Proof.
  intros H. apply dict_find_In, in_map_iff in H. destruct H as [[bn vg] [Heq _]].
  injection Heq as _ <-. exists vg; reflexivity.
Qed.

Lemma table_keys wtot (raw : raw_weights) :
  NoDup (map fst raw) ->
  NoDup (map fst (map (fun '(bname, vg) => (bname, bone_weights_of wtot vg))
                      (filter (fun '(_, vg) => nonempty vg) raw))).
Proof.
  induction raw as [|[bn vg] raw IH]; simpl; intros Hn; [constructor|].
  inversion Hn as [|a b Hni Hn']; subst. destruct (nonempty vg); simpl; [|apply IH, Hn'].
  constructor; [|apply IH, Hn']. intros Hin. apply Hni.
  rewrite map_map, in_map_iff in Hin. destruct Hin as [[c wg] [Hc Hin]].
  apply filter_In in Hin. simpl in Hc. subst. apply in_map_iff. exists (bn, wg); tauto.
Qed.

Lemma combine_app' {A B} (a1 a2 : list A) (b1 b2 : list B) :
  List.length a1 = List.length b1 ->
  combine (a1 ++ a2) (b1 ++ b2) = (combine a1 b1 ++ combine a2 b2)%list.
Proof.
  revert b1; induction a1 as [|x a1 IH]; intros [|y b1]; simpl; try discriminate; auto.
  intros H. rewrite IH by lia. reflexivity.
Qed.

Lemma wsum_ones p l :
  NoDup l -> wsum p (combine l (repeat 1 (List.length l))) = if existsb (Nat.eqb p) l then 1 else 0.
Proof.
  induction l as [|i l IH]; simpl; intros Hn; [reflexivity|].
  inversion Hn as [|a b Hni Hn']; subst. destruct (Nat.eqb p i) eqn:E; simpl.
  - apply Nat.eqb_eq in E; subst. rewrite wsum_absent; [ring|].
    rewrite map_fst_combine by (rewrite repeat_length; reflexivity). exact Hni.
  - apply IH, Hn'.
Qed.

Lemma zero_total_indices_spec wtot p :
  (p < List.length wtot)%nat ->
  existsb (Nat.eqb p) (zero_total_indices wtot) = qc_eqb (nth p wtot 0) 0.
Proof.
  intros Hp. apply eq_true_iff_eq. rewrite existsb_exists. split.
  - intros [x [Hin Hx]]. apply Nat.eqb_eq in Hx; subst.
    unfold zero_total_indices in Hin. apply filter_In in Hin. tauto.
  - intros H. exists p. split; [|apply Nat.eqb_refl].
    unfold zero_total_indices. apply filter_In. split; [apply in_seq; lia|exact H].
Qed.

Lemma zero_total_indices_nodup wtot : NoDup (zero_total_indices wtot).
Proof. apply NoDup_filter, seq_NoDup. Qed.

Lemma kept_weight_zero wtot vg p : nth p wtot 0 = 0 -> kept_weight wtot vg p = 0.
Proof.
  intros H. unfold kept_weight. rewrite H, qc_inv_0, Qcmult_0_r.
  destruct (qc_ltb WEIGHT_THRESHOLD 0); reflexivity.
Qed.

Lemma kept_sum_zero wtot p (l : raw_weights) :
  nth p wtot 0 = 0 -> fold_right (fun '(_, vg) s => kept_weight wtot vg p + s) 0 l = 0.
Proof.
  intros H. induction l as [|[bn vg] l IH]; cbn [fold_right]; [reflexivity|].
  rewrite IH, kept_weight_zero by exact H. ring.
Qed.

Lemma kept_dropped_split wtot p t (l : raw_weights) :
  nth p wtot 0 = t ->
  fold_right (fun '(_, vg) s => kept_weight wtot vg p + s) 0 l =
  fold_right (fun '(_, vg) s => wsum p vg + s) 0 l * / t -
  fold_right (fun '(_, vg) s =>
                (let x := wsum p vg / t in
                 if qc_ltb WEIGHT_THRESHOLD x then 0 else x) + s) 0 l.
Proof.
  intros Ht. induction l as [|[bn vg] l IH]; cbn [fold_right]; [ring|].
  rewrite IH. unfold kept_weight. rewrite Ht. unfold Qcdiv. cbv zeta.
  destruct (qc_ltb WEIGHT_THRESHOLD (wsum p vg * / t)); ring.
Qed.

Lemma qc_eqb_refl a : qc_eqb a a = true.
Proof. unfold qc_eqb. apply Qeq_bool_iff. reflexivity. Qed.

(** C5 (corrected): for raw groups with distinct bone names and
    non-negative weights, after a successful construction every vertex [p]
    below the vertex count has stored weights, summed over all bones,
    equal to [1] minus the normalised weights at [p] that the threshold
    [WEIGHT_THRESHOLD] drops (those at most [1e-4]); a vertex whose raw
    total is zero has stored sum [1], all of it in the root bone's entry. *)
Theorem build_vertex_weights_sum raw vc root out p :
  NoDup (map fst raw) ->
  Forall (fun '(_, vg) => Forall (fun '(_, w) => 0 <= w) vg) raw ->
  build_vertex_weights_data raw vc root = Some out ->
  (p < vertex_count vc raw)%nat ->
  stored_total out p =
    (if qc_eqb (raw_total raw p) 0 then 1 else 1 - dropped_weight raw p) /\
  (qc_eqb (raw_total raw p) 0 = true -> entry_weight p (dict_find root out) = 1).
Proof.
  intros Hn _ Hb Hp. unfold build_vertex_weights_data in Hb.
  destruct (weight_totals (vertex_count vc raw) raw) as [wtot|] eqn:Hw; [|discriminate].
  destruct (weight_totals_spec _ _ _ Hw) as [Hl Ht].
  rewrite (bone_weights_table wtot raw Hn) in Hb.
  remember (map (fun '(bname, vg) => (bname, bone_weights_of wtot vg))
                (filter (fun '(_, vg) => nonempty vg) raw)) as bw eqn:Ebw.
  assert (Hkeys : NoDup (map fst bw)) by (subst bw; apply table_keys, Hn).
  assert (Htot : stored_total bw p = fold_right (fun '(_, vg) s => kept_weight wtot vg p + s) 0 raw)
    by (subst bw; apply stored_total_table).
  assert (Hroot : exists vs ws,
             match dict_find root bw with Some e => e | None => ([], []) end = (vs, ws) /\
             List.length ws = List.length vs /\
             entry_weight p (dict_find root bw) = wsum p (combine vs ws) /\
             (nth p wtot 0 = 0 -> wsum p (combine vs ws) = 0)).
  { destruct (dict_find root bw) as [[vs ws]|] eqn:Ef.
    - exists vs, ws. subst bw. destruct (table_entry _ _ _ _ Ef) as [vg Evg].
      destruct (bone_weights_of_spec wtot vg) as [L W]. rewrite <- Evg in L, W.
      split; [reflexivity|]. split; [exact L|]. split; [reflexivity|].
      intros Hz. rewrite W. apply kept_weight_zero, Hz.
    - exists [], []. repeat split. }
  destruct Hroot as (vs & ws & Er & Hlen & Hew & Hz). rewrite Er in Hb.
  assert (HZ : existsb (Nat.eqb p) (zero_total_indices wtot) = qc_eqb (nth p wtot 0) 0)
    by (apply zero_total_indices_spec; lia).
  assert (Hnew : wsum p (combine (vs ++ zero_total_indices wtot)
                         (ws ++ repeat 1 (List.length (zero_total_indices wtot)))) =
                 wsum p (combine vs ws) + (if qc_eqb (nth p wtot 0) 0 then 1 else 0)).
  { rewrite combine_app' by lia. rewrite wsum_app, wsum_ones, HZ
      by apply zero_total_indices_nodup. reflexivity. }
  assert (Hsum : stored_total out p =
                 fold_right (fun '(_, vg) s => kept_weight wtot vg p + s) 0 raw +
                 (if qc_eqb (nth p wtot 0) 0 then 1 else 0) /\
                 (qc_eqb (nth p wtot 0) 0 = true ->
                  entry_weight p (dict_find root out) = wsum p (combine vs ws) + 1)).
  { destruct (vs ++ zero_total_indices wtot)%list as [|n l] eqn:Ev.
    - injection Hb as <-. apply app_eq_nil in Ev. destruct Ev as [_ Ev].
      rewrite Ev in HZ. simpl in HZ. rewrite <- HZ, Htot.
      split; [ring|discriminate].
    - injection Hb as <-. split.
      + rewrite stored_total_set by exact Hkeys. cbn [fst snd].
        rewrite Hnew, Htot, Hew. ring.
      + intros Hq. rewrite dict_find_set, String.eqb_refl. cbn [entry_weight].
        rewrite Hnew, Hq. reflexivity. }
  destruct Hsum as [Hs He]. rewrite (Ht p Hp) in Hs, He, Hz.
  destruct (qc_eqb (raw_total raw p) 0) eqn:Eq.
  - apply qc_eqb_eq in Eq. split.
    + rewrite Hs, kept_sum_zero by (rewrite Ht by exact Hp; exact Eq). ring.
    + intros _. rewrite He by reflexivity. rewrite Hz by exact Eq. ring.
  - split; [|discriminate].
    assert (Hne : raw_total raw p <> 0)
      by (intros E; rewrite E, qc_eqb_refl in Eq; discriminate).
    rewrite Hs, (kept_dropped_split wtot p (raw_total raw p) raw (Ht p Hp)).
    change (fold_right (fun '(_, vg) s => wsum p vg + s) 0 raw) with (raw_total raw p).
    rewrite Qcmult_inv_r by exact Hne. unfold dropped_weight. ring.
Qed.

Definition nonneg_rawb (raw : raw_weights) : bool :=
  forallb (fun '(_, vg) => forallb (fun '(_, w) => Qle_bool 0 (this w)) vg) raw.

Lemma nonneg_rawb_spec raw :
  nonneg_rawb raw = true -> Forall (fun '(_, vg) => Forall (fun '(_, w) => 0 <= w) vg) raw.
Proof.
  intros H. apply Forall_forall. intros [bn vg] Hin. unfold nonneg_rawb in H.
  rewrite forallb_forall in H. specialize (H _ Hin). simpl in H.
  apply Forall_forall. intros [vn w] Hw. rewrite forallb_forall in H.
  specialize (H _ Hw). simpl in H. apply Qle_bool_iff in H. exact H.
Qed.

(** A vertex weighted 1 by [boneA] and 0.00001 by [boneB]. *)
Definition small_weight_raw : raw_weights :=
  [("boneA", [(0%nat, 1)]); ("boneB", [(0%nat, q 0.00001)])].

(** C5, counterexample: vertex 0 has a positive raw total, yet its stored
    weights sum to [100000/100001]: the normalised weight of [boneB] is
    below the threshold and dropped without renormalising the rest. *)
Lemma vertex_weights_sum_below_one :
  exists out, build_vertex_weights_data small_weight_raw None "root" = Some out /\
  raw_total small_weight_raw 0 <> 0 /\ stored_total out 0 <> 1.
Proof.
  eexists. split; [vm_compute; reflexivity|]. split.
  - intros H. apply (f_equal this) in H. vm_compute in H. discriminate.
  - intros H. apply (f_equal this) in H. vm_compute in H. discriminate.
Qed.

(** Three bones over four vertices; vertex 3 is weighted by none. *)
Definition witness_raw : raw_weights :=
  [("root", [(1%nat, 0)]); ("boneA", [(0%nat, 1); (2%nat, 1)]);
   ("boneB", [(0%nat, q 0.00001); (2%nat, q 3)])].

Definition witness_weights : weights_data :=
  match build_vertex_weights_data witness_raw (Some 4%nat) "root" with
  | Some o => o
  | None => []
  end.

Lemma build_vertex_weights_sum_witness :
  NoDup (map fst witness_raw) /\
  Forall (fun '(_, vg) => Forall (fun '(_, w) => 0 <= w) vg) witness_raw /\
  build_vertex_weights_data witness_raw (Some 4%nat) "root" = Some witness_weights /\
  (3 < vertex_count (Some 4%nat) witness_raw)%nat /\
  stored_total witness_weights 3 =
    (if qc_eqb (raw_total witness_raw 3) 0 then 1 else 1 - dropped_weight witness_raw 3) /\
  (qc_eqb (raw_total witness_raw 3) 0 = true ->
   entry_weight 3 (dict_find "root" witness_weights) = 1).
Proof.
  assert (H1 : NoDup (map fst witness_raw)) by (repeat constructor; cbn; intuition discriminate).
  assert (H2 : Forall (fun '(_, vg) => Forall (fun '(_, w) => 0 <= w) vg) witness_raw)
    by (apply nonneg_rawb_spec; vm_compute; reflexivity).
  assert (H3 : build_vertex_weights_data witness_raw (Some 4%nat) "root" = Some witness_weights)
    by (vm_compute; reflexivity).
  assert (H4 : (3 < vertex_count (Some 4%nat) witness_raw)%nat) by (simpl; lia).
  split; [exact H1|]. split; [exact H2|]. split; [exact H3|]. split; [exact H4|].
  exact (build_vertex_weights_sum witness_raw (Some 4%nat) "root" witness_weights 3 H1 H2 H3 H4).
Defined.

(* ------------------------------------------------------------------ *)
(** ** [PoseTransfer.apply_pose] (nodes/pose_transfer.py) *)

Definition vsub (a b : vec3) : vec3 := V3 (vx a - vx b) (vy a - vy b) (vz a - vz b).
Definition dot3 (a b : vec3) : Qc := vx a * vx b + vy a * vy b + vz a * vz b.
(** [np.cross] *)
Definition cross (a b : vec3) : vec3 :=
  V3 (vy a * vz b - vz a * vy b) (vz a * vx b - vx a * vz b) (vx a * vy b - vy a * vx b).

(** [np.array([d[0], d[1], d[2], 0])]: a direction in homogeneous form. *)
Definition dir4 (d : vec3) : vec4 Qc := V4 (vx d) (vy d) (vz d) 0.
(** [np.array(h).flatten()[:3]] *)
Definition xyz (h : vec4 Qc) : vec3 := V3 (e0 h) (e1 h) (e2 h).

(** [np.identity(4)] as the new local pose. *)
Definition with_pose (P : mat4 Qc) (b : bone) : bone :=
  Bone (bname b) (bparent b) (matRestGlobal b) (matRestRelative b) P
       (matPoseGlobal b) (matPoseVerts b).

(** The reset loop of [apply_pose]: [bone.matPose = np.identity(4)] then
    [bone.update()] for each bone of [getBones()], in order; a bone reads
    the current global pose of its parent. *)
Fixpoint reset_sweep (done rest : list bone) : list bone :=
  match rest with
  | [] => rev done
  | b :: rest' =>
      let ppg := match bparent b with
                 | Some p => option_map matPoseGlobal (find_bone p (rev done ++ rest))
                 | None => None
                 end in
      reset_sweep (bone_update ppg (with_pose identity4 b) :: done) rest'
  end.

(** The bone object [getBone(name)] is updated in place. *)
Fixpoint replace_bone (n : string) (nb : bone) (bs : list bone) : list bone :=
  match bs with
  | [] => []
  | b :: r => if String.eqb (bname b) n then nb :: r else b :: replace_bone n nb r
  end.

Definition CHAINS : list (string * string * string) :=
  [("upperarm_l", "r_shoulder", "r_elbow"); ("lowerarm_l", "r_elbow", "r_wrist");
   ("upperarm_r", "l_shoulder", "l_elbow"); ("lowerarm_r", "l_elbow", "l_wrist");
   ("thigh_l", "r_hip", "r_knee"); ("calf_l", "r_knee", "r_ankle");
   ("thigh_r", "l_hip", "l_knee"); ("calf_r", "l_knee", "l_ankle")].

(** The numerical helpers of [CharacterData/matrix.py], a module that is
    not among the sources, and the trigonometry are parameters here:
    [normalize], [rotate(angle_deg, axis)], [rotx(angle_deg)] and
    [np.degrees(np.arccos(.))]. The rest positions [(headPos, tailPos)] of
    the bones are fixed by the skeleton and never written by
    [apply_pose]. *)
Section PoseTransfer.
Variable normalize : vec3 -> vec3.
Variable rotate : Qc -> vec3 -> mat4 Qc.
Variable rotx : Qc -> mat4 Qc.
Variable arccos_deg : Qc -> Qc.
Variable bone_pos : string -> vec3 * vec3.

(** One iteration of [for bone_name, op_start, op_end in self.CHAINS];
    [None] when [la.inv(pre_pose_mat)] raises. *)
Definition chain_step (op_dict : pydict vec3) (bs : list bone)
    (c : string * string * string) : option (list bone) :=
  let '(bone_name, op_start, op_end) := c in
  match dict_find op_start op_dict, dict_find op_end op_dict with
  | Some s, Some e =>
      match find_bone bone_name bs with
      | None => Some bs
      | Some bone =>
          let d := vsub e s in
          let v_target_user := V3 (vx d) (- vy d) (vz d) in
          let target_dir := normalize v_target_user in
          let parent_pg := match bparent bone with
                           | Some p => option_map matPoseGlobal (find_bone p bs)
                           | None => None
                           end in
          let parent_mat := match parent_pg with Some P => P | None => identity4 end in
          let pre_pose_mat := mat_mul parent_mat (matRestRelative bone) in
          let '(headPos, tailPos) := bone_pos (bname bone) in
          let rest_dir_global := normalize (vsub tailPos headPos) in
          match inv4 pre_pose_mat with
          | None => None
          | Some inv_pre_pose =>
              let local_target := normalize (xyz (mat_vec inv_pre_pose (dir4 target_dir))) in
              let local_axis := normalize (xyz (mat_vec inv_pre_pose (dir4 rest_dir_global))) in
              let dt := dot3 local_axis local_target in
              let rot_mat :=
                if qc_ltb (q 0.999) dt then identity4
                else if qc_ltb dt (q (-0.999)) then rotx (q 180)
                else rotate (arccos_deg dt) (normalize (cross local_axis local_target)) in
              let scale_mat := identity4 in
              let bone' := with_pose (mat_mul rot_mat scale_mat) bone in
              Some (replace_bone bone_name (bone_update parent_pg bone') bs)
          end
      end
  | _, _ => Some bs
  end.

Definition apply_pose (bs : list bone) (openpose_data : pydict vec3) : option (list bone) :=
  fold_opt (chain_step openpose_data) CHAINS (reset_sweep [] bs).

End PoseTransfer.

(** What a skeleton keeps between calls: names, parents and rest
    matrices, but not the pose. *)
Definition skel_view (b : bone) :=
  (bname b, bparent b, matRestGlobal b, matRestRelative b).

Lemma bone_update_reset ppg b1 b2 :
  skel_view b1 = skel_view b2 ->
  bone_update ppg (with_pose identity4 b1) = bone_update ppg (with_pose identity4 b2).
Proof.
  unfold skel_view. intros H. injection H as Hn Hp Hg Hr.
  unfold bone_update, with_pose; cbn [bname bparent matRestGlobal matRestRelative matPose].
  rewrite Hn, Hp, Hg, Hr. reflexivity.
Qed.

Lemma find_bone_seen p done rest :
  In p (map bname done) ->
  find_bone p (rev done ++ rest) = find_bone p (rev done).
Proof.
  intros H. rewrite find_bone_app.
  destruct (find_bone_names p (rev done)) as [b Hb].
  - rewrite map_rev, <- in_rev. exact H.
  - rewrite Hb. reflexivity.
Qed.

Lemma reset_sweep_view done rest1 rest2 :
  map skel_view rest1 = map skel_view rest2 ->
  parents_first (map bname done) rest1 ->
  reset_sweep done rest1 = reset_sweep done rest2.
Proof.
  revert done rest2; induction rest1 as [|b1 rest1 IH]; intros done [|b2 rest2] Hv Hpf;
    simpl in Hv; try discriminate; [reflexivity|].
  pose proof (f_equal (hd (skel_view b1)) Hv) as Hb. simpl in Hb.
  pose proof (f_equal (@tl _) Hv) as Hv'. simpl in Hv'. clear Hv. cbn [reset_sweep].
  assert (Hn : bname b1 = bname b2) by (unfold skel_view in Hb; congruence).
  assert (Hp : bparent b1 = bparent b2) by (unfold skel_view in Hb; congruence).
  simpl in Hpf. destruct Hpf as [Hpar Hpf].
  rewrite <- Hp. rewrite (bone_update_reset _ _ _ Hb).
  destruct (bparent b1) as [p|] eqn:Ep.
  - rewrite !(find_bone_seen p done) by exact Hpar.
    apply IH; [exact Hv'|]. simpl. rewrite <- Hn. exact Hpf.
  - apply IH; [exact Hv'|]. simpl. rewrite <- Hn. exact Hpf.
Qed.

(** C10: the bones are reset before the chains are aligned. For two
    states of a skeleton with the same names, parents and rest matrices, in
    the parents-first order of [boneslist], [apply_pose] with the same
    landmarks gives the same bones, whatever local, global and skinning
    pose matrices the bones held before. *)
Theorem apply_pose_ignores_prior_pose normalize rotate rotx arccos_deg bone_pos
    (bs1 bs2 : list bone) (openpose_data : pydict vec3) :
  map skel_view bs1 = map skel_view bs2 ->
  parents_first [] bs1 ->
  apply_pose normalize rotate rotx arccos_deg bone_pos bs1 openpose_data =
  apply_pose normalize rotate rotx arccos_deg bone_pos bs2 openpose_data.
Proof.
  intros Hv Hpf. unfold apply_pose.
  rewrite (reset_sweep_view [] bs1 bs2 Hv Hpf). reflexivity.
Qed.

(** A root and an upper arm at rest, and the same skeleton left in some
    other pose by an earlier call. *)
Definition arm_bones : list bone :=
  [bone_at_rest "root" None; bone_at_rest "upperarm_l" (Some "root")].

Definition flat_pose (b : bone) : bone :=
  Bone (bname b) (bparent b) (matRestGlobal b) (matRestRelative b) flat_rest flat_rest
       flat_rest.

Definition arm_landmarks : pydict vec3 :=
  [("r_shoulder", V3 0 0 0); ("r_elbow", V3 1 0 0)].

Lemma apply_pose_ignores_prior_pose_witness :
  map skel_view arm_bones = map skel_view (map flat_pose arm_bones) /\
  parents_first [] arm_bones /\
  apply_pose (fun v => v) (fun _ _ => identity4) (fun _ => identity4) (fun x => x)
    (fun _ => (vzero, V3 0 1 0)) arm_bones arm_landmarks =
  apply_pose (fun v => v) (fun _ _ => identity4) (fun _ => identity4) (fun x => x)
    (fun _ => (vzero, V3 0 1 0)) (map flat_pose arm_bones) arm_landmarks.
Proof.
  assert (H1 : map skel_view arm_bones = map skel_view (map flat_pose arm_bones))
    by reflexivity.
  assert (H2 : parents_first [] arm_bones)
    by (apply parents_firstb_spec; vm_compute; reflexivity).
  split; [exact H1|]. split; [exact H2|].
  exact (apply_pose_ignores_prior_pose _ _ _ _ _ arm_bones (map flat_pose arm_bones)
           arm_landmarks H1 H2).
Defined.
From Stdlib Require Import Reals Psatz.

(* ------------------------------------------------------------------ *)
(** ** One step of the CCD loop ([ik_solver.py], [IKSolver.solve_ik])

    The IK step works on [float64] arrays; it is modelled over the reals,
    with [la.norm] the square root of the sum of squares. *)

Module IKStep.
Local Open Scope R_scope.

#[export] Instance RFieldOps : FieldOps R := {
  k0 := 0; k1 := 1; kadd := Rplus; kmul := Rmult; ksub := Rminus;
  kopp := Ropp; kinv := Rinv; kdiv := Rdiv; keq_dec := Req_EM_T
}.

Lemma R_field_ops :
  field_theory k0 k1 kadd kmul ksub kopp kdiv kinv (@eq R).
Proof. exact Rfield. Qed.

(** A 3-vector of [float64] as a triple. *)
Definition rvec3 := (R * R * R)%type.

Definition vsub (u v : rvec3) : rvec3 :=
  let '(a, b, c) := u in let '(x, y, z) := v in (a - x, b - y, c - z).

(** [v / k], componentwise *)
Definition vdiv (v : rvec3) (k : R) : rvec3 :=
  let '(a, b, c) := v in (a / k, b / k, c / k).

(** [np.dot] of two 3-vectors *)
Definition dot (u v : rvec3) : R :=
  let '(a, b, c) := u in let '(x, y, z) := v in a * x + b * y + c * z.

(** [np.cross] *)
Definition cross (u v : rvec3) : rvec3 :=
  let '(a, b, c) := u in let '(x, y, z) := v in
  (b * z - c * y, c * x - a * z, a * y - b * x).

(** [la.norm] of a 3-vector *)
Definition norm (v : rvec3) : R := sqrt (dot v v).

(** [np.append(v, 0)] *)
Definition append0 (v : rvec3) : vec4 R := let '(a, b, c) := v in V4 a b c 0.

(** [v[:3]] of a 4-vector *)
Definition head3 (v : vec4 R) : rvec3 := (e0 v, e1 v, e2 v).

(** [M[:3, j]] *)
Definition col (M : mat4 R) (j : nat) : rvec3 :=
  (mget M 0 j, mget M 1 j, mget M 2 j).

(** [M[:3, 3] = t] *)
Definition set_col3 (M : mat4 R) (t : rvec3) : mat4 R :=
  let '(x, y, z) := t in
  mmk (fun i j =>
         if Nat.eqb j 3 then
           match i with 0%nat => x | 1%nat => y | 2%nat => z | _ => mget M i j end
         else mget M i j).

(** [M[:, j]] *)
Definition col4 (M : mat4 R) (j : nat) : vec4 R :=
  V4 (mget M 0 j) (mget M 1 j) (mget M 2 j) (mget M 3 j).

(** [M[:3, j] /= la.norm(M[:3, j])] *)
Definition normalize_col (j : nat) (M : mat4 R) : mat4 R :=
  let n := norm (col M j) in
  mmk (fun i k => if (Nat.eqb k j && Nat.ltb i 3)%bool then mget M i k / n else mget M i k).

(** Modelled from the spec: [tm.rotation_matrix(angle, axis)] of the module
    [transformations], which is not part of the sources. The model follows the
    stand-in of the repository's own test of the solver
    ([tests/test_ik_solver.py]): the axis is normalised when its norm is
    positive, and the matrix is the one of the unit quaternion
    [(cos(angle/2), axis * sin(angle/2))]. *)
Definition rotation_matrix (angle : R) (axis : rvec3) : mat4 R :=
  let n := norm axis in
  let '(x, y, z) := if Rlt_dec 0 n then vdiv axis n else axis in
  let a := cos (angle / 2) in
  let b := x * sin (angle / 2) in
  let c := y * sin (angle / 2) in
  let d := z * sin (angle / 2) in
  let aa := a * a in let bb := b * b in let cc := c * c in let dd := d * d in
  let bc := b * c in let ad := a * d in let ac := a * c in
  let ab := a * b in let bd := b * d in let cd := c * d in
  V4 (V4 (aa + bb - cc - dd) (2 * (bc - ad)) (2 * (bd + ac)) 0)
     (V4 (2 * (bc + ad)) (aa + cc - bb - dd) (2 * (cd - ab)) 0)
     (V4 (2 * (bd - ac)) (2 * (cd + ab)) (aa + dd - bb - cc) 0)
     (V4 0 0 0 1).

(** Outcome of one pass of the inner loop for one bone: [continue], the
    [LinAlgError] raised by [la.inv], or the bone's new [matPose]. *)
Inductive step_result :=
| Continue
| LinAlgError
| Rotated (matPose : mat4 R).

Section CCDStep.

(** [np.arctan2]; only its value enters the step. *)
Variable arctan2 : R -> R -> R.

(** The body of [for bone in chain:] after the pivot is computed: [matPose]
    and [matPoseGlobal] are the bone's matrices, [pivot] its head in global
    space, [cur_global] the current effector position. The global rotation
    [rot_delta_global] is computed by the source but never used, and is
    left out. *)
Definition ccd_step (matPose matPoseGlobal : mat4 R)
    (pivot cur_global target : rvec3) : step_result :=
  let to_effector := vsub cur_global pivot in
  let to_target := vsub target pivot in
  let len_eff := norm to_effector in
  let len_tgt := norm to_target in
  if Rlt_dec len_eff 1e-6 then Continue else
  if Rlt_dec len_tgt 1e-6 then Continue else
  let to_effector := vdiv to_effector len_eff in
  let to_target := vdiv to_target len_tgt in
  let axis := cross to_effector to_target in
  let sin_angle := norm axis in
  let cos_angle := dot to_effector to_target in
  if Rlt_dec sin_angle 1e-6 then Continue else
  let axis := vdiv axis sin_angle in
  let angle := arctan2 sin_angle cos_angle in
  match inv4 matPoseGlobal with
  | None => LinAlgError
  | Some inv_global =>
      let local_axis := head3 (mat_vec inv_global (append0 axis)) in
      let local_axis := vdiv local_axis (norm local_axis) in
      let rot_local := rotation_matrix angle local_axis in
      let orig_pos := col matPose 3 in
      let matPose := mat_mul matPose rot_local in
      let matPose := set_col3 matPose orig_pos in
      let matPose := normalize_col 0 matPose in
      let matPose := normalize_col 1 matPose in
      Rotated (normalize_col 2 matPose)
  end.

End CCDStep.

(** Determinant of the rotation-scale block [M[:3, :3]]. *)
Definition block_det (M : mat4 R) : R := det3 (fun i j => mget M i j).

(** [M[:3, :3] . v] *)
Definition block_mul (M : mat4 R) (v : rvec3) : rvec3 :=
  let '(x, y, z) := v in
  (mget M 0 0 * x + mget M 0 1 * y + mget M 0 2 * z,
   mget M 1 0 * x + mget M 1 1 * y + mget M 1 2 * z,
   mget M 2 0 * x + mget M 2 1 * y + mget M 2 2 * z).

Ltac rops := cbv [k0 k1 kadd kmul ksub kopp kinv kdiv RFieldOps] in *.

Lemma dot_nonneg (v : rvec3) : 0 <= dot v v.
Proof. destruct v as [[a b] c]; simpl; nra. Qed.

Lemma dot_zero (v : rvec3) : dot v v = 0 -> v = (0, 0, 0).
Proof.
  destruct v as [[a b] c]; simpl; intros H.
  assert (a = 0) by nra. assert (b = 0) by nra. assert (c = 0) by nra.
  subst; reflexivity.
Qed.

Lemma norm_pos (v : rvec3) : dot v v <> 0 -> 0 < norm v.
Proof.
  intros H. unfold norm. apply sqrt_lt_R0.
  pose proof (dot_nonneg v). lra.
Qed.

Lemma norm_pos_dot (v : rvec3) : 0 < norm v -> dot v v <> 0.
Proof. unfold norm; intros H E; rewrite E, sqrt_0 in H; lra. Qed.

Lemma dot_vdiv_norm (v : rvec3) :
  dot v v <> 0 -> dot (vdiv v (norm v)) (vdiv v (norm v)) = 1.
Proof.
  intros H. pose proof (norm_pos v H) as Hp.
  assert (Hn : norm v * norm v = dot v v)
    by (unfold norm; apply sqrt_sqrt, dot_nonneg).
  destruct v as [[a b] c]. cbn [vdiv dot] in *.
  set (n := norm (a, b, c)) in *.
  replace (a / n * (a / n) + b / n * (b / n) + c / n * (c / n))
    with ((a * a + b * b + c * c) / (n * n)) by (field; lra).
  rewrite Hn. field. exact H.
Qed.

Lemma norm_vdiv_norm (v : rvec3) : dot v v <> 0 -> norm (vdiv v (norm v)) = 1.
Proof. intros H. unfold norm at 1. rewrite dot_vdiv_norm by exact H. apply sqrt_1. Qed.

Lemma rotation_matrix_unit_cols (angle : R) (v : rvec3) :
  dot v v = 1 ->
  forall j, (j < 3)%nat ->
  dot (col (rotation_matrix angle v) j) (col (rotation_matrix angle v) j) = 1.
Proof.
  intros Hv j Hj. unfold rotation_matrix.
  assert (Hn : norm v = 1) by (unfold norm; rewrite Hv; apply sqrt_1).
  rewrite Hn. destruct (Rlt_dec 0 1) as [_|C]; [|lra].
  pose proof (dot_vdiv_norm v) as Hw. rewrite Hn in Hw.
  specialize (Hw ltac:(lra)).
  destruct (vdiv v 1) as [[x y] z]. cbn [dot] in Hw.
  pose proof (sin2_cos2 (angle / 2)) as Hsc.
  set (s := sin (angle / 2)) in *. set (a := cos (angle / 2)) in *.
  assert (Hq : a * a + x * s * (x * s) + y * s * (y * s) + z * s * (z * s) = 1).
  { replace (a * a + x * s * (x * s) + y * s * (y * s) + z * s * (z * s))
      with (a * a + (x * x + y * y + z * z) * (s * s)) by ring.
    unfold Rsqr in Hsc. rewrite Hw. lra. }
  set (b := x * s) in *. set (c := y * s) in *. set (d := z * s) in *.
  destruct j as [|[|[|j]]]; [| | |lia]; unfold col, mget, vget, dot; cbn;
    transitivity ((a * a + b * b + c * c + d * d) ^ 2);
    (try ring); rewrite Hq; ring.
Qed.

Lemma rotation_matrix_row3 (angle : R) (v : rvec3) :
  mget (rotation_matrix angle v) 3 0 = 0 /\ mget (rotation_matrix angle v) 3 1 = 0 /\
  mget (rotation_matrix angle v) 3 2 = 0 /\ mget (rotation_matrix angle v) 3 3 = 1.
Proof.
  unfold rotation_matrix. destruct (if Rlt_dec 0 (norm v) then _ else _) as [[x y] z].
  repeat split.
Qed.

Lemma rotation_matrix_col3 (angle : R) (v : rvec3) (i : nat) :
  (i < 3)%nat -> mget (rotation_matrix angle v) i 3 = 0.
Proof.
  intros Hi. unfold rotation_matrix.
  destruct (if Rlt_dec 0 (norm v) then _ else _) as [[x y] z].
  destruct i as [|[|[|i]]]; [reflexivity..|lia].
Qed.

(** [det M[:3,:3] * v = adj(M[:3,:3]) . (M[:3,:3] . v)] *)
Lemma block_mul_zero (M : mat4 R) (v : rvec3) :
  block_det M <> 0 -> block_mul M v = (0, 0, 0) -> v = (0, 0, 0).
Proof.
  intros Hd Hm. destruct v as [[x y] z].
  destruct M as [[m00 m01 m02 m03] [m10 m11 m12 m13] [m20 m21 m22 m23] [m30 m31 m32 m33]].
  unfold block_det, det3, block_mul, mget, vget in *. cbn [e0 e1 e2 e3] in *. rops.
  injection Hm as H0 H1 H2.
  set (det := m00 * (m11 * m22 - m12 * m21) - m01 * (m10 * m22 - m12 * m20)
              + m02 * (m10 * m21 - m11 * m20)) in *.
  assert (Ex : det * x =
    (m11 * m22 - m12 * m21) * (m00 * x + m01 * y + m02 * z)
    - (m01 * m22 - m02 * m21) * (m10 * x + m11 * y + m12 * z)
    + (m01 * m12 - m02 * m11) * (m20 * x + m21 * y + m22 * z)) by (unfold det; ring).
  assert (Ey : det * y =
    - (m10 * m22 - m12 * m20) * (m00 * x + m01 * y + m02 * z)
    + (m00 * m22 - m02 * m20) * (m10 * x + m11 * y + m12 * z)
    - (m00 * m12 - m02 * m10) * (m20 * x + m21 * y + m22 * z)) by (unfold det; ring).
  assert (Ez : det * z =
    (m10 * m21 - m11 * m20) * (m00 * x + m01 * y + m02 * z)
    - (m00 * m21 - m01 * m20) * (m10 * x + m11 * y + m12 * z)
    + (m00 * m11 - m01 * m10) * (m20 * x + m21 * y + m22 * z)) by (unfold det; ring).
  rewrite H0, H1, H2 in Ex, Ey, Ez.
  assert (x = 0) by (apply (Rmult_eq_reg_l det); [lra|exact Hd]).
  assert (y = 0) by (apply (Rmult_eq_reg_l det); [lra|exact Hd]).
  assert (z = 0) by (apply (Rmult_eq_reg_l det); [lra|exact Hd]).
  subst; reflexivity.
Qed.

Lemma mget_mmk (f : nat -> nat -> R) (i k : nat) :
  (i < 4)%nat -> (k < 4)%nat -> mget (mmk f) i k = f i k.
Proof.
  intros Hi Hk.
  destruct i as [|[|[|[|i]]]]; [| | | |lia];
  (destruct k as [|[|[|[|k]]]]; [reflexivity..|lia]).
Qed.

Lemma mat_vec_mul (A B : mat4 R) (v : vec4 R) :
  mat_vec (mat_mul A B) v = mat_vec A (mat_vec B v).
Proof.
  destruct A as [[a00 a01 a02 a03] [a10 a11 a12 a13] [a20 a21 a22 a23] [a30 a31 a32 a33]].
  destruct B as [[b00 b01 b02 b03] [b10 b11 b12 b13] [b20 b21 b22 b23] [b30 b31 b32 b33]].
  destruct v as [v0 v1 v2 v3].
  cbv [mat_mul mat_vec mmk vmk mget vget dot4]. cbn [e0 e1 e2 e3]. rops.
  f_equal; ring.
Qed.

Lemma mat_vec_id (v : vec4 R) : mat_vec identity4 v = v.
Proof.
  destruct v as [v0 v1 v2 v3].
  cbv [mat_vec identity4 mmk vmk mget vget dot4 Nat.eqb]. cbn [e0 e1 e2 e3]. rops.
  f_equal; ring.
Qed.

(** The local axis [inv(matPoseGlobal) . [axis, 0]] keeps a nonzero
    spatial part when [matPoseGlobal[3, 3]] is nonzero. *)
Lemma local_axis_nonzero (G N : mat4 R) (v : rvec3) :
  inv4 G = Some N -> mget G 3 3 <> 0 -> dot v v <> 0 ->
  dot (head3 (mat_vec N (append0 v))) (head3 (mat_vec N (append0 v))) <> 0.
Proof.
  intros HN HG Hv E. apply dot_zero in E.
  pose proof (inv4_right R_field_ops G N HN) as HI.
  assert (Hc : mat_vec G (mat_vec N (append0 v)) = append0 v)
    by (rewrite <- mat_vec_mul, HI; apply mat_vec_id).
  destruct (mat_vec N (append0 v)) as [w0 w1 w2 w3].
  unfold head3 in E; cbn [e0 e1 e2] in E. injection E as -> -> ->.
  destruct v as [[a b] c].
  destruct G as [[g00 g01 g02 g03] [g10 g11 g12 g13] [g20 g21 g22 g23] [g30 g31 g32 g33]].
  cbv [mat_vec mmk vmk mget vget dot4 append0] in Hc, HG. cbn [e0 e1 e2 e3] in Hc, HG. rops.
  injection Hc as Ha Hb Hc H3.
  assert (w3 = 0).
  { apply (Rmult_eq_reg_l g33); [|exact HG]. lra. }
  subst w3. apply Hv. cbn [dot]. nra.
Qed.

Lemma normalize_col_other (j k i : nat) (M : mat4 R) :
  k <> j -> (i < 4)%nat -> (k < 4)%nat ->
  mget (normalize_col j M) i k = mget M i k.
Proof.
  intros Hkj Hi Hk. unfold normalize_col. rewrite mget_mmk by assumption.
  apply Nat.eqb_neq in Hkj. rewrite Hkj. reflexivity.
Qed.

Lemma normalize_col_col_other (j k : nat) (M : mat4 R) :
  k <> j -> (k < 4)%nat -> col (normalize_col j M) k = col M k.
Proof.
  intros Hkj Hk. unfold col.
  rewrite !normalize_col_other by (assumption || lia). reflexivity.
Qed.

Lemma normalize_col_col (j : nat) (M : mat4 R) :
  (j < 4)%nat -> col (normalize_col j M) j = vdiv (col M j) (norm (col M j)).
Proof.
  intros Hj. unfold normalize_col, col at 1.
  rewrite !mget_mmk by lia. rewrite Nat.eqb_refl. reflexivity.
Qed.

Lemma set_col3_col (M : mat4 R) (t : rvec3) (j : nat) :
  (j < 3)%nat -> col (set_col3 M t) j = col M j.
Proof.
  intros Hj. destruct t as [[x y] z]. unfold set_col3, col.
  rewrite !mget_mmk by lia.
  destruct j as [|[|[|j]]]; [reflexivity..|lia].
Qed.

Lemma mat_mul_rotation_col (M : mat4 R) (angle : R) (v : rvec3) (j : nat) :
  (j < 3)%nat ->
  col (mat_mul M (rotation_matrix angle v)) j = block_mul M (col (rotation_matrix angle v) j).
Proof.
  intros Hj. destruct (rotation_matrix_row3 angle v) as (R0 & R1 & R2 & _).
  set (Rm := rotation_matrix angle v) in *. clearbody Rm.
  unfold col, block_mul, mat_mul. rewrite !mget_mmk by lia.
  unfold dot4. rops.
  destruct j as [|[|[|j]]]; [| | |lia]; 
    [rewrite R0|rewrite R1|rewrite R2]; rewrite !Rmult_0_r, !Rplus_0_r; reflexivity.
Qed.

Lemma mat_mul_rotation_33 (M : mat4 R) (angle : R) (v : rvec3) :
  mget (mat_mul M (rotation_matrix angle v)) 3 3 = mget M 3 3.
Proof.
  destruct (rotation_matrix_row3 angle v) as (_ & _ & _ & R3).
  pose proof (rotation_matrix_col3 angle v 0 ltac:(lia)) as C0.
  pose proof (rotation_matrix_col3 angle v 1 ltac:(lia)) as C1.
  pose proof (rotation_matrix_col3 angle v 2 ltac:(lia)) as C2.
  set (Rm := rotation_matrix angle v) in *. clearbody Rm.
  unfold mat_mul. rewrite mget_mmk by lia. unfold dot4. rops.
  rewrite C0, C1, C2, R3. ring.
Qed.

Lemma set_col3_translation (M P : mat4 R) :
  mget M 3 3 = mget P 3 3 -> col4 (set_col3 M (col P 3)) 3 = col4 P 3.
Proof.
  intros H. unfold set_col3, col, col4. rewrite !mget_mmk by lia.
  cbn [Nat.eqb]. rewrite H. reflexivity.
Qed.

Lemma normalize_col_translation (j : nat) (M : mat4 R) :
  (j < 3)%nat -> col4 (normalize_col j M) 3 = col4 M 3.
Proof.
  intros Hj. unfold col4. rewrite !normalize_col_other by lia. reflexivity.
Qed.

Lemma normalize_col_unit (j : nat) (M : mat4 R) :
  (j < 4)%nat -> dot (col M j) (col M j) <> 0 -> norm (col (normalize_col j M) j) = 1.
Proof.
  intros Hj Hd. rewrite normalize_col_col by exact Hj. apply norm_vdiv_norm, Hd.
Qed.

Lemma block_mul_nonzero (M : mat4 R) (v : rvec3) :
  block_det M <> 0 -> dot v v <> 0 -> dot (block_mul M v) (block_mul M v) <> 0.
Proof.
  intros HM Hv E. apply dot_zero, block_mul_zero in E; [|exact HM].
  apply Hv. rewrite E. cbn [dot]. ring.
Qed.

(** The update of [matPose] once the local axis is a unit vector: rotate,
    put the translation back, normalise the three basis columns. *)
Lemma rotate_local_pose (angle : R) (la : rvec3) (P : mat4 R) :
  block_det P <> 0 -> dot la la = 1 ->
  col4 (normalize_col 2 (normalize_col 1 (normalize_col 0
          (set_col3 (mat_mul P (rotation_matrix angle la)) (col P 3))))) 3 = col4 P 3 /\
  norm (col (normalize_col 2 (normalize_col 1 (normalize_col 0
          (set_col3 (mat_mul P (rotation_matrix angle la)) (col P 3))))) 0) = 1 /\
  norm (col (normalize_col 2 (normalize_col 1 (normalize_col 0
          (set_col3 (mat_mul P (rotation_matrix angle la)) (col P 3))))) 1) = 1 /\
  norm (col (normalize_col 2 (normalize_col 1 (normalize_col 0
          (set_col3 (mat_mul P (rotation_matrix angle la)) (col P 3))))) 2) = 1.
Proof.
  intros HP Hla.
  assert (Hc : forall j, (j < 3)%nat ->
    dot (col (set_col3 (mat_mul P (rotation_matrix angle la)) (col P 3)) j)
        (col (set_col3 (mat_mul P (rotation_matrix angle la)) (col P 3)) j) <> 0).
  { intros j Hj. rewrite set_col3_col, mat_mul_rotation_col by exact Hj.
    apply block_mul_nonzero; [exact HP|].
    rewrite rotation_matrix_unit_cols by assumption. lra. }
  set (Q := set_col3 (mat_mul P (rotation_matrix angle la)) (col P 3)) in *.
  assert (HQ : col4 Q 3 = col4 P 3)
    by (apply set_col3_translation, mat_mul_rotation_33).
  split; [|split; [|split]].
  - rewrite !normalize_col_translation by lia. exact HQ.
  - rewrite !normalize_col_col_other by lia. apply normalize_col_unit; [lia|].
    apply Hc; lia.
  - rewrite normalize_col_col_other by lia. apply normalize_col_unit; [lia|].
    rewrite normalize_col_col_other by lia. apply Hc; lia.
  - apply normalize_col_unit; [lia|].
    rewrite !normalize_col_col_other by lia. apply Hc; lia.
Qed.

(** C9: in a per-bone step of the CCD loop that applies a rotation (the step
    ends in [Rotated P']), the new local pose matrix [P'] has the same
    translation column [P'[:, 3]] as the old one [P], and each of its three
    basis columns [P'[:3, j]], [j < 3], has Euclidean norm 1. Assumptions: the
    rotation-scale block [P[:3, :3]] is invertible and
    [matPoseGlobal[3, 3]] is nonzero, as for every affine pose matrix. *)
Theorem ccd_step_translation_and_unit_columns (arctan2 : R -> R -> R)
    (P G : mat4 R) (pivot cur_global target : rvec3) (P' : mat4 R) :
  block_det P <> 0 -> mget G 3 3 <> 0 ->
  ccd_step arctan2 P G pivot cur_global target = Rotated P' ->
  col4 P' 3 = col4 P 3 /\
  norm (col P' 0) = 1 /\ norm (col P' 1) = 1 /\ norm (col P' 2) = 1.
Proof.
  intros HP HG. unfold ccd_step. cbv zeta.
  destruct (Rlt_dec (norm (vsub cur_global pivot)) 1e-6) as [_|H1];
    [intros E; discriminate E|].
  destruct (Rlt_dec (norm (vsub target pivot)) 1e-6) as [_|H2];
    [intros E; discriminate E|].
  set (c := cross (vdiv (vsub cur_global pivot) (norm (vsub cur_global pivot)))
                  (vdiv (vsub target pivot) (norm (vsub target pivot)))).
  destruct (Rlt_dec (norm c) 1e-6) as [_|H3]; [intros E; discriminate E|].
  destruct (inv4 G) as [N|] eqn:HN; [|intros E; discriminate E].
  intros E. match type of E with
  | Rotated ?X = _ => replace P' with X by congruence
  end.
  apply rotate_local_pose; [exact HP|].
  apply dot_vdiv_norm, (local_axis_nonzero G N); [exact HN|exact HG|].
  rewrite dot_vdiv_norm; [lra|]. apply norm_pos_dot. lra.
Qed.

(** A bone raised by 10 along [y], at rest otherwise. *)
Definition raised_pose : mat4 R :=
  V4 (V4 1 0 0 0) (V4 0 1 0 10) (V4 0 0 1 0) (V4 0 0 0 1).

Lemma ccd_step_translation_and_unit_columns_witness :
  exists P',
    (block_det raised_pose <> 0 /\ mget raised_pose 3 3 <> 0 /\
     ccd_step (fun _ _ => PI / 2) raised_pose raised_pose
       (0, 0, 0) (0, 1, 0) (1, 0, 0) = Rotated P') /\
    (col4 P' 3 = col4 raised_pose 3 /\
     norm (col P' 0) = 1 /\ norm (col P' 1) = 1 /\ norm (col P' 2) = 1).
Proof.
  assert (HP : block_det raised_pose <> 0).
  { cbv [block_det det3 mget vget raised_pose]. cbn [e0 e1 e2 e3]. rops. lra. }
  assert (HG : mget raised_pose 3 3 <> 0).
  { cbv [mget vget raised_pose]. cbn [e0 e1 e2 e3]. lra. }
  assert (Hd : det4 raised_pose <> k0).
  { cbv [det4 dot4 cofactor det3 skip mget vget raised_pose
         Nat.ltb Nat.leb Nat.even Nat.odd Nat.add].
    cbn [e0 e1 e2 e3]. rops. lra. }
  destruct (proj1 (proj2 (inv4_det raised_pose)) Hd) as [N HN].
  assert (N1 : norm (vsub (0, 1, 0) (0, 0, 0)) = 1).
  { unfold norm, vsub, dot. transitivity (sqrt 1); [f_equal; ring | apply sqrt_1]. }
  assert (N2 : norm (vsub (1, 0, 0) (0, 0, 0)) = 1).
  { unfold norm, vsub, dot. transitivity (sqrt 1); [f_equal; ring | apply sqrt_1]. }
  assert (N3 : norm (cross (vdiv (vsub (0, 1, 0) (0, 0, 0)) 1)
                           (vdiv (vsub (1, 0, 0) (0, 0, 0)) 1)) = 1).
  { unfold norm, cross, vdiv, vsub, dot.
    transitivity (sqrt 1); [f_equal; field | apply sqrt_1]. }
  assert (Hs : exists P', ccd_step (fun _ _ => PI / 2) raised_pose raised_pose
                 (0, 0, 0) (0, 1, 0) (1, 0, 0) = Rotated P').
  { unfold ccd_step. cbv zeta. rewrite N1, N2, N3, HN.
    destruct (Rlt_dec 1 1e-6); [lra|]. eexists; reflexivity. }
  destruct Hs as [P' Hs]. exists P'.
  split; [split; [exact HP|split; [exact HG|exact Hs]]|].
  exact (ccd_step_translation_and_unit_columns _ _ _ _ _ _ _ HP HG Hs).
Defined.

End IKStep.
From Stdlib Require Import Ascii.

(* ------------------------------------------------------------------ *)
(** ** Target file names ([mh_parser.py], [TargetParser])

    File names are ASCII strings. *)

Module TargetFiles.
Local Open Scope nat_scope.
Local Open Scope string_scope.
Local Open Scope list_scope.

(** [str.lower] on one ASCII character *)
Definition lower_char (c : ascii) : ascii :=
  let n := nat_of_ascii c in
  if Nat.leb 65 n && Nat.leb n 90 then ascii_of_nat (n + 32) else c.

(** [str.lower] *)
Fixpoint lower (s : string) : string :=
  match s with
  | EmptyString => EmptyString
  | String c r => String (lower_char c) (lower r)
  end.

(** [s.replace(old, new)] for a nonempty [old]: occurrences are replaced
    left to right without overlap. Every step consumes at least one
    character, so [length s] steps reach the end of [s]. *)
Fixpoint replace_fuel (fuel : nat) (old new s : string) : string :=
  match fuel with
  | 0 => s
  | S fuel' =>
      match s with
      | EmptyString => EmptyString
      | String c r =>
          if String.prefix old s
          then new ++ replace_fuel fuel' old new
                        (substring (String.length old) (String.length s - String.length old) s)
          else String c (replace_fuel fuel' old new r)
      end
  end.

Definition str_replace (old new s : string) : string :=
  replace_fuel (String.length s) old new s.

(** [s.split(sep)] for a one-character separator *)
Fixpoint split_on (sep : ascii) (s : string) : list string :=
  match s with
  | EmptyString => [EmptyString]
  | String c r =>
      let parts := split_on sep r in
      if Ascii.eqb c sep then EmptyString :: parts
      else match parts with
           | p :: ps => String c p :: ps
           | [] => [String c EmptyString]
           end
  end.

(** [self.categories], in the dict's order *)
Definition categories : list (string * list string) := [
  ("gender", ["male"; "female"]);
  ("age", ["baby"; "child"; "young"; "old"]);
  ("muscle", ["minmuscle"; "averagemuscle"; "maxmuscle"]);
  ("weight", ["minweight"; "averageweight"; "maxweight"]);
  ("height", ["minheight"; "averageheight"; "maxheight"]);
  ("race", ["african"; "asian"; "caucasian"]);
  ("cup", ["mincup"; "averagecup"; "maxcup"]);
  ("firmness", ["minfirmness"; "averagefirmness"; "maxfirmness"]);
  ("universal", ["universal"]);
  ("penis_len", ["penis-length-decr"; "penis-length-incr"]);
  ("penis_circ", ["penis-circ-decr"; "penis-circ-incr"]);
  ("penis_test", ["penis-testicles-decr"; "penis-testicles-incr"])
].

Definition str_mem (x : string) (l : list string) : bool := existsb (String.eqb x) l.

(** [for cat, values in self.categories.items(): if part in values: tags[cat] = part] *)
Definition match_part (tags : pydict tagval) (part : string) : pydict tagval :=
  fold_left (fun t (cv : string * list string) =>
               if str_mem part (snd cv) then dict_set (fst cv) (TagStr part) t else t)
            categories tags.

(** [if w in parts: if 'decr' in parts: ...; if 'incr' in parts: ...] *)
Definition composite (parts : list string) (w cat decr incr : string)
    (t : pydict tagval) : pydict tagval :=
  if str_mem w parts then
    let t := if str_mem "decr" parts then dict_set cat (TagStr decr) t else t in
    if str_mem "incr" parts then dict_set cat (TagStr incr) t else t
  else t.

(** [name = filename.lower().replace('.target', '')] *)
Definition target_name (filename : string) : string :=
  str_replace ".target" "" (lower filename).

(** [parts = name.replace('_', '-').split('-')] *)
Definition name_parts (filename : string) : list string :=
  split_on "-"%char (str_replace "_" "-" (target_name filename)).

(** [TargetParser._parse_filename]. The first loop over the categories
    only tests substrings and changes nothing; it is left out. *)
Definition parse_filename (filename : string) : pydict tagval :=
  let parts := name_parts filename in
  let tags := fold_left match_part parts [] in
  let tags :=
    if str_mem "penis" parts then
      composite parts "testicles" "penis_test" "penis-testicles-decr" "penis-testicles-incr"
        (composite parts "circ" "penis_circ" "penis-circ-decr" "penis-circ-incr"
          (composite parts "length" "penis_len" "penis-length-decr" "penis-length-incr" tags))
    else tags in
  if str_mem "universal" parts then dict_set "universal" TagTrue tags else tags.

(** The [keep] filter of [scan_targets] for a file of [folder] with
    parsed [tags]. Only the three folders are walked. *)
Definition keep_target (folder : string) (tags : pydict tagval) : bool :=
  if String.eqb folder "macrodetails" then negb (Nat.eqb (List.length tags) 0)
  else if String.eqb folder "breast" then existsb (fun kv => String.eqb (fst kv) "cup") tags
  else if String.eqb folder "genitals" then
    existsb (fun kv => String.prefix "penis" (fst kv)) tags
  else false.

(** The last element of a list. *)
Fixpoint last_opt {A} (l : list A) : option A :=
  match l with
  | [] => None
  | [x] => Some x
  | _ :: r => last_opt r
  end.

(** [self.categories.get(cat, [])] *)
Definition cat_values (cat : string) : list string := dict_get cat categories [].

(** The tag a genital composite gets: [incr] wins over [decr]. *)
Definition composite_tag (parts : list string) (w incr decr : string) : option tagval :=
  if str_mem "penis" parts && str_mem w parts then
    if str_mem "incr" parts then Some (TagStr incr)
    else if str_mem "decr" parts then Some (TagStr decr)
    else None
  else None.

(** The tag of category [cat] read off the name's parts. *)
Definition expected_tag (parts : list string) (cat : string) : option tagval :=
  if String.eqb cat "universal" then
    (if str_mem "universal" parts then Some TagTrue else None)
  else if String.eqb cat "penis_len" then
    composite_tag parts "length" "penis-length-incr" "penis-length-decr"
  else if String.eqb cat "penis_circ" then
    composite_tag parts "circ" "penis-circ-incr" "penis-circ-decr"
  else if String.eqb cat "penis_test" then
    composite_tag parts "testicles" "penis-testicles-incr" "penis-testicles-decr"
  else option_map TagStr (last_opt (filter (fun p => str_mem p (cat_values cat)) parts)).

Lemma last_opt_snoc {A} (l : list A) (x : A) : last_opt (l ++ [x]) = Some x.
Proof.
  induction l as [|a l IH]; [reflexivity|].
  simpl. rewrite IH. destruct (l ++ [x]) eqn:E; [|reflexivity].
  destruct l; discriminate.
Qed.

Lemma str_mem_In x l : str_mem x l = true <-> In x l.
Proof.
  unfold str_mem. rewrite existsb_exists. split.
  - intros [y [Hy E]]. apply String.eqb_eq in E. subst. exact Hy.
  - intros H. exists x. split; [exact H|apply String.eqb_refl].
Qed.

Lemma dict_set_keys {V} k (v : V) (d : pydict V) x :
  In x (map fst (dict_set k v d)) -> x = k \/ In x (map fst d).
Proof.
  induction d as [|[k' v'] d IH]; simpl.
  - intros [<-|[]]; left; reflexivity.
  - destruct (String.eqb k k'); simpl.
    + intros [<-|H]; [left; reflexivity|right; right; exact H].
    + intros [<-|H]; [right; left; reflexivity|].
      destruct (IH H) as [H1|H1]; [left; exact H1|right; right; exact H1].
Qed.

Lemma nodup_dict_set {V} k (v : V) (d : pydict V) :
  NoDup (map fst d) -> NoDup (map fst (dict_set k v d)).
Proof.
  induction d as [|[k' v'] d IH]; simpl; intros H.
  - constructor; [intros []|constructor].
  - inversion H as [|? ? Hn Hd]; subst.
    destruct (String.eqb k k') eqn:E.
    + apply String.eqb_eq in E; subst. simpl. constructor; assumption.
    + simpl. constructor; [|apply IH, Hd].
      intros Hi. apply dict_set_keys in Hi. destruct Hi as [Hi|Hi].
      * subst. rewrite String.eqb_refl in E. discriminate.
      * exact (Hn Hi).
Qed.

(** One part against every category: the categories' names are distinct. *)
Lemma match_part_find (t : pydict tagval) (p cat : string) :
  dict_find cat (match_part t p) =
  if str_mem p (cat_values cat) then Some (TagStr p) else dict_find cat t.
Proof.
  unfold match_part, cat_values.
  assert (Hnd : NoDup (map fst categories)) by (repeat constructor; simpl; intuition discriminate).
  revert Hnd. generalize categories as cs. intros cs. revert t.
  induction cs as [|[c vs] cs IH]; intros t0 Hnd; simpl.
  - reflexivity.
  - inversion Hnd as [|? ? Hn Hd]; subst. rewrite IH by exact Hd. cbn [fst snd].
    destruct (String.eqb cat c) eqn:E.
    + apply String.eqb_eq in E; subst c.
      assert (Hg : dict_get cat cs [] = []).
      { clear -Hn. induction cs as [|[c' v'] cs IH]; simpl in *; [reflexivity|].
        destruct (String.eqb cat c') eqn:E'.
        - apply String.eqb_eq in E'; subst. exfalso; apply Hn; left; reflexivity.
        - apply IH. intros H; apply Hn; right; exact H. }
      rewrite Hg. simpl. destruct (str_mem p vs); [|reflexivity].
      rewrite dict_find_set, String.eqb_refl. reflexivity.
    + destruct (str_mem p (dict_get cat cs [])); [reflexivity|].
      destruct (str_mem p vs); [|reflexivity].
      rewrite dict_find_set, E. reflexivity.
Qed.

Lemma fold_match_part_find (parts : list string) (t : pydict tagval) (cat : string) :
  dict_find cat (fold_left match_part parts t) =
  match last_opt (filter (fun p => str_mem p (cat_values cat)) parts) with
  | Some p => Some (TagStr p)
  | None => dict_find cat t
  end.
Proof.
  induction parts as [|p parts IH] using rev_ind; [reflexivity|].
  rewrite fold_left_app. simpl. rewrite match_part_find, filter_app. simpl.
  destruct (str_mem p (cat_values cat)).
  - rewrite last_opt_snoc. reflexivity.
  - rewrite app_nil_r. exact IH.
Qed.

Lemma fold_match_part_nodup (parts : list string) (t : pydict tagval) :
  NoDup (map fst t) -> NoDup (map fst (fold_left match_part parts t)).
Proof.
  revert t. induction parts as [|p parts IH]; intros t H; simpl; [exact H|].
  apply IH. unfold match_part. generalize categories as cs. intros cs. revert t H.
  induction cs as [|c cs IHc]; intros t0 H; simpl; [exact H|].
  apply IHc. destruct (str_mem p (snd c)); [apply nodup_dict_set|]; exact H.
Qed.

(** A part of [s.split(sep)] never contains [sep]. *)
Fixpoint has_char (c : ascii) (s : string) : bool :=
  match s with
  | EmptyString => false
  | String c' r => Ascii.eqb c' c || has_char c r
  end.

Lemma split_on_no_sep sep s p : In p (split_on sep s) -> has_char sep p = false.
Proof.
  revert p. induction s as [|c r IH]; simpl; intros p Hp.
  - destruct Hp as [<-|[]]; reflexivity.
  - destruct (Ascii.eqb c sep) eqn:E.
    + destruct Hp as [<-|Hp]; [reflexivity|apply IH, Hp].
    + destruct (split_on sep r) as [|p0 ps] eqn:Es.
      * destruct Hp as [<-|[]]; simpl; rewrite E; reflexivity.
      * destruct Hp as [<-|Hp].
        -- simpl. rewrite E. apply IH. left; reflexivity.
        -- apply IH. right; exact Hp.
Qed.

Lemma composite_find parts w cat decr incr t k :
  dict_find k (composite parts w cat decr incr t) =
  if String.eqb k cat then
    (if str_mem w parts then
       (if str_mem "incr" parts then Some (TagStr incr)
        else if str_mem "decr" parts then Some (TagStr decr) else dict_find k t)
     else dict_find k t)
  else dict_find k t.
Proof.
  unfold composite.
  destruct (String.eqb k cat) eqn:E;
  destruct (str_mem w parts), (str_mem "incr" parts), (str_mem "decr" parts);
  rewrite ?dict_find_set, ?E; reflexivity.
Qed.

Lemma last_opt_In {A} (l : list A) x : last_opt l = Some x -> In x l.
Proof.
  induction l as [|a l IH]; simpl; [discriminate|].
  destruct l as [|b l].
  - intros E; injection E as <-; left; reflexivity.
  - intros E; right; apply IH, E.
Qed.

Lemma composite_nodup parts w cat decr incr t :
  NoDup (map fst t) -> NoDup (map fst (composite parts w cat decr incr t)).
Proof.
  intros H. unfold composite.
  destruct (str_mem w parts); [|exact H].
  destruct (str_mem "decr" parts), (str_mem "incr" parts);
    repeat apply nodup_dict_set; exact H.
Qed.

(** No part of a name holds a '-', so no genital value matches a single part. *)
Lemma genital_values_unmatched filename c :
  In c ["penis_len"; "penis_circ"; "penis_test"] ->
  dict_find c (fold_left match_part (name_parts filename) []) = None.
Proof.
  intros Hc. rewrite fold_match_part_find.
  destruct (last_opt _) as [s|] eqn:E; [|reflexivity].
  exfalso. apply last_opt_In, filter_In in E. destruct E as [Hs Hm].
  apply split_on_no_sep in Hs. apply str_mem_In in Hm.
  destruct Hc as [<-|[<-|[<-|[]]]]; simpl in Hm;
    repeat (destruct Hm as [<-|Hm]; [discriminate|]); destruct Hm.
Qed.

Lemma universal_find_fold filename :
  dict_find "universal" (fold_left match_part (name_parts filename) []) =
  if str_mem "universal" (name_parts filename) then Some (TagStr "universal") else None.
Proof.
  rewrite fold_match_part_find.
  change (cat_values "universal") with ["universal"].
  generalize (name_parts filename) as parts. intros parts.
  induction parts as [|p parts IH] using rev_ind; [reflexivity|].
  rewrite filter_app. unfold str_mem in *. rewrite existsb_app. cbn [filter existsb].
  rewrite (String.eqb_sym "universal" p).
  destruct (String.eqb p "universal") eqn:E; cbn [orb].
  - rewrite last_opt_snoc, orb_true_r. apply String.eqb_eq in E; subst. reflexivity.
  - rewrite app_nil_r, orb_false_r. exact IH.
Qed.

(** [_parse_filename] gives each category the tag read off the parts of
    the lower-cased name (with ".target" removed and '_' read as '-'):
    for the single-word categories the LAST part among the category's
    values, for a genital composite ("penis", the word, "incr"/"decr")
    the "incr" value over the "decr" one, and [True] for "universal";
    no category appears twice. *)
Theorem parse_filename_tags (filename cat : string) :
  dict_find cat (parse_filename filename) = expected_tag (name_parts filename) cat /\
  NoDup (map fst (parse_filename filename)).
Proof.
  pose proof (genital_values_unmatched filename) as Hg.
  pose proof (universal_find_fold filename) as Hu.
  pose proof (fold_match_part_find (name_parts filename) [] cat) as Hf.
  unfold parse_filename, expected_tag.
  set (parts := name_parts filename) in *.
  set (t1 := fold_left match_part parts []) in *.
  split.
  - destruct (String.eqb cat "universal") eqn:E1;
      [apply String.eqb_eq in E1; subst cat|].
    { destruct (str_mem "universal" parts) eqn:EU.
      - rewrite dict_find_set. reflexivity.
      - destruct (str_mem "penis" parts); rewrite ?composite_find; simpl String.eqb;
          cbv iota; rewrite Hu; reflexivity. }
    assert (HU : forall X, dict_find cat
                   (if str_mem "universal" parts then dict_set "universal" TagTrue X else X)
                 = dict_find cat X).
    { intros X. destruct (str_mem "universal" parts); [rewrite dict_find_set, E1|]; reflexivity. }
    rewrite HU. clear HU.
    destruct (str_mem "penis" parts) eqn:EP.
    + rewrite !composite_find.
      destruct (String.eqb cat "penis_len") eqn:E2; [apply String.eqb_eq in E2; subst cat|].
      { rewrite (Hg "penis_len") by (simpl; auto). unfold composite_tag. rewrite EP.
        simpl String.eqb; cbv iota; cbn [andb].
        destruct (str_mem "length" parts), (str_mem "incr" parts), (str_mem "decr" parts);
          reflexivity. }
      destruct (String.eqb cat "penis_circ") eqn:E3; [apply String.eqb_eq in E3; subst cat|].
      { rewrite (Hg "penis_circ") by (simpl; auto). unfold composite_tag. rewrite EP.
        simpl String.eqb; cbv iota; cbn [andb].
        destruct (str_mem "circ" parts), (str_mem "incr" parts), (str_mem "decr" parts);
          reflexivity. }
      destruct (String.eqb cat "penis_test") eqn:E4; [apply String.eqb_eq in E4; subst cat|].
      { rewrite (Hg "penis_test") by (simpl; auto). unfold composite_tag. rewrite EP.
        simpl String.eqb; cbv iota; cbn [andb].
        destruct (str_mem "testicles" parts), (str_mem "incr" parts), (str_mem "decr" parts);
          reflexivity. }
      rewrite Hf. destruct (last_opt _); reflexivity.
    + unfold composite_tag. rewrite EP. cbn [andb].
      destruct (String.eqb cat "penis_len") eqn:E2; [apply String.eqb_eq in E2; subst cat;
        apply (Hg "penis_len"); simpl; auto|].
      destruct (String.eqb cat "penis_circ") eqn:E3; [apply String.eqb_eq in E3; subst cat;
        apply (Hg "penis_circ"); simpl; auto|].
      destruct (String.eqb cat "penis_test") eqn:E4; [apply String.eqb_eq in E4; subst cat;
        apply (Hg "penis_test"); simpl; auto|].
      rewrite Hf. destruct (last_opt _); reflexivity.
  - destruct (str_mem "universal" parts); [apply nodup_dict_set|];
    (destruct (str_mem "penis" parts); [repeat apply composite_nodup|]);
    apply fold_match_part_nodup; constructor.
Qed.

Lemma existsb_keys_find {V} (P : string -> bool) (d : pydict V) :
  existsb (fun kv => P (fst kv)) d = true <-> exists k, P k = true /\ dict_find k d <> None.
Proof.
  induction d as [|[k' v'] d IH]; simpl.
  - split; [discriminate|]. intros [k [_ H]]. exfalso; apply H; reflexivity.
  - rewrite orb_true_iff, IH. split.
    + intros [H|[k [Hk Hf]]].
      * exists k'. rewrite String.eqb_refl. split; [exact H|discriminate].
      * exists k. split; [exact Hk|]. destruct (String.eqb k k'); [discriminate|exact Hf].
    + intros [k [Hk Hf]]. destruct (String.eqb k k') eqn:E.
      * apply String.eqb_eq in E; subst. left; exact Hk.
      * right. exists k. split; assumption.
Qed.

Lemma last_opt_None {A} (l : list A) : last_opt l = None <-> l = [].
Proof.
  split; [|intros ->; reflexivity].
  induction l as [|a l IH]; [reflexivity|]. simpl.
  destruct l as [|b l]; [discriminate|]. intros H. specialize (IH H). discriminate.
Qed.

Lemma filter_nil_existsb {A} (f : A -> bool) (l : list A) :
  filter f l = [] <-> existsb f l = false.
Proof.
  induction l as [|a l IH]; simpl; [tauto|].
  destruct (f a); simpl; [split; discriminate|exact IH].
Qed.

(** Outside the category names there are no values. *)
Lemma cat_values_other k :
  String.eqb k "gender" = false -> String.eqb k "age" = false ->
  String.eqb k "muscle" = false -> String.eqb k "weight" = false ->
  String.eqb k "height" = false -> String.eqb k "race" = false ->
  String.eqb k "cup" = false -> String.eqb k "firmness" = false ->
  String.eqb k "universal" = false -> String.eqb k "penis_len" = false ->
  String.eqb k "penis_circ" = false -> String.eqb k "penis_test" = false ->
  cat_values k = [].
Proof.
  intros. unfold cat_values, categories, dict_get.
  repeat match goal with H : String.eqb k _ = false |- _ => rewrite H; clear H end.
  reflexivity.
Qed.

Lemma composite_tag_some parts w incr decr :
  composite_tag parts w incr decr <> None <->
  (str_mem "penis" parts && str_mem w parts && (str_mem "incr" parts || str_mem "decr" parts))
  = true.
Proof.
  unfold composite_tag.
  destruct (str_mem "penis" parts), (str_mem w parts), (str_mem "incr" parts),
    (str_mem "decr" parts); simpl; split; congruence.
Qed.

(** The filter of [scan_targets]: a file of the "breast" folder is kept
    exactly when a part of its name is one of the cup values, and a file of
    the "genitals" folder exactly when its name has the parts "penis", one of
    "length", "circ", "testicles", and one of "incr", "decr". *)
Theorem scan_targets_keep (filename : string) :
  keep_target "breast" (parse_filename filename) =
    existsb (fun p => str_mem p ["mincup"; "averagecup"; "maxcup"]) (name_parts filename) /\
  keep_target "genitals" (parse_filename filename) =
    str_mem "penis" (name_parts filename) &&
    (str_mem "length" (name_parts filename) || str_mem "circ" (name_parts filename) ||
     str_mem "testicles" (name_parts filename)) &&
    (str_mem "incr" (name_parts filename) || str_mem "decr" (name_parts filename)).
Proof.
  pose proof (fun cat => proj1 (parse_filename_tags filename cat)) as Ht.
  set (parts := name_parts filename) in *.
  set (tags := parse_filename filename) in *.
  split.
  - change (keep_target "breast" tags) with
      (existsb (fun kv => String.eqb (fst kv) "cup") tags).
    apply eq_true_iff_eq. rewrite (existsb_keys_find (fun k => String.eqb k "cup")).
    split.
    + intros [k [Hk Hf]]. apply String.eqb_eq in Hk; subst k.
      rewrite Ht in Hf. unfold expected_tag in Hf. simpl String.eqb in Hf. cbv iota in Hf.
      destruct (existsb _ parts) eqn:E; [reflexivity|exfalso].
      apply Hf. change (cat_values "cup") with ["mincup"; "averagecup"; "maxcup"].
      apply filter_nil_existsb in E. rewrite E. reflexivity.
    + intros H. exists "cup". split; [reflexivity|]. rewrite Ht. unfold expected_tag.
      simpl String.eqb. cbv iota.
      change (cat_values "cup") with ["mincup"; "averagecup"; "maxcup"].
      destruct (last_opt _) eqn:E; [discriminate|].
      apply last_opt_None, filter_nil_existsb in E. congruence.
  - change (keep_target "genitals" tags) with
      (existsb (fun kv => String.prefix "penis" (fst kv)) tags).
    apply eq_true_iff_eq. rewrite (existsb_keys_find (String.prefix "penis")).
    rewrite !andb_true_iff, !orb_true_iff.
    split.
    + intros [k [Hk Hf]]. rewrite Ht in Hf. unfold expected_tag in Hf.
      destruct (String.eqb k "universal") eqn:E1;
        [apply String.eqb_eq in E1; subst k; discriminate|].
      destruct (String.eqb k "penis_len") eqn:E2.
      { apply composite_tag_some in Hf. rewrite !andb_true_iff, orb_true_iff in Hf.
        destruct Hf as [[H1 H2] H3]. split; [split; [exact H1|left; left; exact H2]|].
        destruct H3; [left|right]; assumption. }
      destruct (String.eqb k "penis_circ") eqn:E3.
      { apply composite_tag_some in Hf. rewrite !andb_true_iff, orb_true_iff in Hf.
        destruct Hf as [[H1 H2] H3]. split; [split; [exact H1|left; right; exact H2]|].
        destruct H3; [left|right]; assumption. }
      destruct (String.eqb k "penis_test") eqn:E4.
      { apply composite_tag_some in Hf. rewrite !andb_true_iff, orb_true_iff in Hf.
        destruct Hf as [[H1 H2] H3]. split; [split; [exact H1|right; exact H2]|].
        destruct H3; [left|right]; assumption. }
      exfalso. apply Hf. rewrite cat_values_other;
        [generalize parts; intros l; induction l as [|a l IHl]; [reflexivity|exact IHl]|..];
        apply String.eqb_neq; intros ->; try discriminate; simpl in Hk; discriminate.
    + intros [[H1 H2] H3].
      assert (H3' : (str_mem "incr" parts || str_mem "decr" parts) = true)
        by (apply orb_true_iff; exact H3).
      destruct H2 as [[H2|H2]|H2].
      * exists "penis_len". split; [reflexivity|]. rewrite Ht. unfold expected_tag.
        simpl String.eqb. cbv iota. apply composite_tag_some. rewrite H1, H2, H3'. reflexivity.
      * exists "penis_circ". split; [reflexivity|]. rewrite Ht. unfold expected_tag.
        simpl String.eqb. cbv iota. apply composite_tag_some. rewrite H1, H2, H3'. reflexivity.
      * exists "penis_test". split; [reflexivity|]. rewrite Ht. unfold expected_tag.
        simpl String.eqb. cbv iota. apply composite_tag_some. rewrite H1, H2, H3'. reflexivity.
Qed.

Lemma lower_char_idem (c : ascii) : lower_char (lower_char c) = lower_char c.
Proof.
  destruct c as [[] [] [] [] [] [] [] []]; reflexivity.
Qed.

Lemma lower_idem (s : string) : lower (lower s) = lower s.
Proof.
  induction s as [|c s IH]; simpl; [reflexivity|]. rewrite lower_char_idem, IH. reflexivity.
Qed.

(** Tag parsing ignores letter case: a file name and its lower-case form
    get the same tags. *)
Theorem parse_filename_lower (filename : string) :
  parse_filename (lower filename) = parse_filename filename.
Proof.
  unfold parse_filename, name_parts, target_name. rewrite lower_idem. reflexivity.
Qed.
End TargetFiles.

(* ------------------------------------------------------------------ *)
(** ** Loading a skeleton ([mh_skeleton.py], [Skeleton.fromFile])

    The bone definitions of the file, [skelData["bones"]], are an ordered
    dict with distinct keys. Of each definition the loader reads the keys
    "parent", "head", "tail" and "rotation_plane"; the keys "reference" and
    "weights_reference" are left out of this model. *)

Module SkeletonLoad.
Local Open Scope nat_scope.
Local Open Scope string_scope.
Local Open Scope list_scope.

(** The values [rotation_plane] takes in the files: [0], a plane name, or a
    list of plane names whose entries may be [null]. *)
Inductive rplane := RP_zero | RP_name (s : string) | RP_names (l : list (option string)).

(** One entry of [skelData["bones"]]. [bd_parent] is
    [bdef.get("parent", None)]; [bd_roll] is the "rotation_plane" value,
    [None] when the key is absent. *)
Record bonedef := BoneDef {
  bd_parent : option string;
  bd_head : string;
  bd_tail : string;
  bd_roll : option rplane
}.

(** [not parent]: [None] and the empty string are false. *)
Definition falsy (p : option string) : bool :=
  match p with None => true | Some s => String.eqb s "" end.

(** [input_bones[bname].get("parent", None)]; [bname] is always a key. *)
Definition parent_of (inp : pydict bonedef) (b : string) : option string :=
  match dict_find b inp with Some d => bd_parent d | None => None end.

(** [list.remove]: drops the first occurrence. The bone removed is always
    in the list, so the [ValueError] branch is never reached. *)
Fixpoint remove_first (x : string) (l : list string) : list string :=
  match l with
  | [] => []
  | y :: r => if String.eqb x y then r else y :: remove_first x r
  end.

(** The test [not parent or parent in added]. The set [added] always holds
    the names of [breadthfirst_bones] ([out] below), so membership in it is
    membership in [out]. *)
Definition ready (inp : pydict bonedef) (out : list string) (b : string) : bool :=
  falsy (parent_of inp b) ||
  match parent_of inp b with Some p => TargetFiles.str_mem p out | None => false end.

(** One pass of [for bname in pending[:]]: the loop runs over a snapshot
    while the body appends to [out] and removes from [pending]. *)
Fixpoint sort_round (inp : pydict bonedef) (snap out pending : list string)
    (progress : bool) : list string * list string * bool :=
  match snap with
  | [] => (out, pending, progress)
  | b :: snap' =>
      if ready inp out b
      then sort_round inp snap' (out ++ [b]) (remove_first b pending) true
      else sort_round inp snap' out pending progress
  end.

(** [while pending: ...]. A pass that adds nothing ends the loop with
    [break]. Every other pass removes a bone from [pending], so the number
    of bones bounds the number of passes. *)
Fixpoint sort_loop (inp : pydict bonedef) (fuel : nat) (out pending : list string)
    : list string :=
  match fuel with
  | 0 => out
  | S f =>
      match pending with
      | [] => out
      | _ :: _ =>
          let '(out', pending', progress) := sort_round inp pending out pending false in
          if negb progress && negb (Nat.eqb (List.length pending') 0) then out'
          else sort_loop inp f out' pending'
      end
  end.

(** [breadthfirst_bones], from [pending = list(input_bones.keys())]. *)
Definition breadthfirst (inp : pydict bonedef) : list string :=
  sort_loop inp (List.length inp) [] (map fst inp).

(** A bone has a chain of parents, each one a bone of the file, that ends
    in a bone without parent. *)
Inductive rooted (inp : pydict bonedef) : string -> Prop :=
| rooted_top b : In b (map fst inp) -> falsy (parent_of inp b) = true -> rooted inp b
| rooted_child b p : In b (map fst inp) -> parent_of inp b = Some p ->
    rooted inp p -> rooted inp b.


(** Parents first: a bone with a parent comes after it. *)
Definition ordered (inp : pydict bonedef) (l : list string) : Prop :=
  forall l1 b l2, l = l1 ++ b :: l2 ->
    falsy (parent_of inp b) = true \/ exists p, parent_of inp b = Some p /\ In p l1.

Lemma remove_first_perm x l : In x l -> Permutation l (x :: remove_first x l).
Proof.
  induction l as [|y l IH]; simpl; [tauto|]. intros H.
  destruct (String.eqb x y) eqn:E.
  - apply String.eqb_eq in E; subst. reflexivity.
  - destruct H as [->|H]; [rewrite String.eqb_refl in E; discriminate|].
    rewrite (IH H) at 1. apply perm_swap.
Qed.

Lemma remove_first_in x y l : x <> y -> In y l -> In y (remove_first x l).
Proof.
  induction l as [|z l IH]; simpl; [tauto|]. intros Hxy [->|H].
  - destruct (String.eqb x y) eqn:E; [apply String.eqb_eq in E; congruence|left; reflexivity].
  - destruct (String.eqb x z); [exact H|right; apply IH; assumption].
Qed.

Lemma ordered_nil inp : ordered inp [].
Proof. intros l1 b l2 H. destruct l1; discriminate. Qed.

Lemma ordered_snoc inp out b :
  ordered inp out -> ready inp out b = true -> ordered inp (out ++ [b]).
Proof.
  intros Ho Hr l1 b0 l2 E.
  destruct l2 as [|x l2] using rev_ind.
  - apply app_inj_tail in E as [-> ->].
    unfold ready in Hr. apply orb_true_iff in Hr as [Hr|Hr]; [left; exact Hr|].
    right. destruct (parent_of inp _) as [p|] eqn:Ep; [|discriminate].
    exists p. split; [reflexivity|]. apply TargetFiles.str_mem_In; exact Hr.
  - rewrite app_comm_cons, app_assoc in E. apply app_inj_tail in E as [E _].
    exact (Ho l1 b0 l2 E).
Qed.

Lemma sort_round_spec inp snap : forall out pending progress out' pending' progress',
  NoDup snap -> (forall b, In b snap -> In b pending) ->
  sort_round inp snap out pending progress = (out', pending', progress') ->
  Permutation (out' ++ pending') (out ++ pending) /\
  (progress' = false -> progress = false /\ out' = out /\ pending' = pending /\
     forall b, In b snap -> ready inp out b = false) /\
  (progress' = true -> progress = true \/ List.length pending' < List.length pending) /\
  List.length pending' <= List.length pending /\
  (ordered inp out -> ordered inp out').
Proof.
  induction snap as [|b snap IH]; simpl;
    intros out pending progress out' pending' progress' Hnd Hin Hr.
  - injection Hr as <- <- <-. repeat split; auto; intros; lia.
  - apply NoDup_cons_iff in Hnd as [Hb Hnd].
    destruct (ready inp out b) eqn:Er.
    + assert (Hbp : In b pending) by (apply Hin; left; reflexivity).
      pose proof (remove_first_perm b pending Hbp) as Hp.
      destruct (IH _ _ _ _ _ _ Hnd
        (fun x Hx => remove_first_in b x pending
          (fun E => Hb (eq_ind_r (fun y => In y snap) Hx E)) (Hin x (or_intror Hx))) Hr)
        as (P1 & P2 & P3 & P4 & P5).
      assert (Hl : List.length pending = S (List.length (remove_first b pending)))
        by (rewrite (Permutation_length Hp); reflexivity).
      split; [|split; [|split; [|split]]].
      * rewrite P1, <- app_assoc. simpl. apply Permutation_app_head. symmetry. exact Hp.
      * intros Hf. destruct (P2 Hf) as [Hf' _]. discriminate.
      * intros Ht. right. lia.
      * lia.
      * intros Ho. apply P5, ordered_snoc; assumption.
    + destruct (IH _ _ _ _ _ _ Hnd (fun x Hx => Hin x (or_intror Hx)) Hr)
        as (P1 & P2 & P3 & P4 & P5).
      split; [exact P1|split; [|split; [|split; [exact P4|exact P5]]]].
      * intros Hf. destruct (P2 Hf) as (Q1 & Q2 & Q3 & Q4).
        split; [exact Q1|split; [exact Q2|split; [exact Q3|]]].
        intros x [<-|Hx]; [exact Er|]. apply Q4; assumption.
      * exact P3.
Qed.

Lemma sort_loop_spec inp fuel : forall out pending,
  List.length pending <= fuel -> NoDup (out ++ pending) ->
  exists rest, Permutation (sort_loop inp fuel out pending ++ rest) (out ++ pending) /\
    (forall b, In b rest -> ready inp (sort_loop inp fuel out pending) b = false) /\
    (ordered inp out -> ordered inp (sort_loop inp fuel out pending)).
Proof.
  induction fuel as [|f IH]; intros out pending Hl Hnd; simpl.
  - destruct pending; [|simpl in Hl; lia].
    exists []. split; [reflexivity|]. split; [intros b []|auto].
  - destruct pending as [|b0 pend] eqn:Ep.
    + exists []. split; [reflexivity|]. split; [intros b []|auto].
    + rewrite <- Ep in *.
      assert (Hndp : NoDup pending) by (apply NoDup_app_remove_l in Hnd; exact Hnd).
      destruct (sort_round inp pending out pending false) as [[out' pending'] progress] eqn:Er.
      destruct (sort_round_spec inp pending out pending false out' pending' progress
                  Hndp (fun b Hb => Hb) Er) as (P1 & P2 & P3 & P4 & P5).
      destruct progress.
      * destruct (P3 eq_refl) as [H|H]; [discriminate|]. simpl.
        assert (Hnd' : NoDup (out' ++ pending'))
          by (apply (Permutation_NoDup (Permutation_sym P1)); exact Hnd).
        destruct (IH out' pending' ltac:(lia) Hnd') as (rest & R1 & R2 & R3).
        exists rest. split; [rewrite R1; exact P1|]. split; [exact R2|].
        intros Ho. apply R3, P5, Ho.
      * destruct (P2 eq_refl) as (_ & -> & -> & Hready).
        rewrite Ep. simpl. rewrite <- Ep.
        exists pending. split; [reflexivity|]. split; [exact Hready|auto].
Qed.

Lemma ordered_rooted inp l :
  ordered inp l -> (forall b, In b l -> In b (map fst inp)) ->
  forall b, In b l -> rooted inp b.
Proof.
  intros Ho Hk.
  assert (H : forall n l1 b l2, List.length l1 < n -> l = l1 ++ b :: l2 -> rooted inp b).
  { induction n as [|n IH]; intros l1 b l2 Hn E; [lia|].
    assert (Hb : In b (map fst inp))
      by (apply Hk; rewrite E; apply in_or_app; right; left; reflexivity).
    destruct (Ho l1 b l2 E) as [Hf|[p [Hp Hin]]].
    - apply rooted_top; assumption.
    - apply in_split in Hin as (la & lb & ->).
      apply (rooted_child inp b p Hb Hp).
      apply (IH la p (lb ++ b :: l2)).
      + rewrite length_app in Hn. simpl in Hn. lia.
      + rewrite E, <- app_assoc. reflexivity. }
  intros b Hb. apply in_split in Hb as (l1 & l2 & E).
  exact (H (S (List.length l1)) l1 b l2 (Nat.lt_succ_diag_r _) E).
Qed.

(** [Skeleton.fromFile] orders the bones parents first: each bone with a
    parent comes after that parent, no bone comes twice, and a bone of the
    file is loaded exactly when its chain of parents ends in a bone without
    parent. Bones whose parent is missing from the file, or whose parents
    form a cycle, are dropped together with all their descendants. *)
Theorem breadthfirst_bones_spec (inp : pydict bonedef)
    (Hkeys : NoDup (map fst inp)) :
  NoDup (breadthfirst inp) /\
  (forall b, In b (breadthfirst inp) <-> rooted inp b) /\
  (forall l1 b l2, breadthfirst inp = l1 ++ b :: l2 ->
     falsy (parent_of inp b) = true \/ exists p, parent_of inp b = Some p /\ In p l1).
Proof.
  unfold breadthfirst.
  destruct (sort_loop_spec inp (List.length inp) [] (map fst inp)
              ltac:(rewrite length_map; lia) Hkeys) as (rest & R1 & R2 & R3).
  set (res := sort_loop inp (List.length inp) [] (map fst inp)) in *.
  simpl in R1.
  pose proof (R3 (ordered_nil inp)) as Hord.
  assert (Hk : forall b, In b res -> In b (map fst inp))
    by (intros b Hb; apply (Permutation_in _ R1), in_or_app; left; exact Hb).
  split; [|split; [|exact Hord]].
  - apply (Permutation_NoDup (Permutation_sym R1)) in Hkeys.
    apply NoDup_app_remove_r in Hkeys. exact Hkeys.
  - intros b. split; [apply ordered_rooted; assumption|].
    intros Hr. induction Hr as [b Hb Hf|b p Hb Hp Hr IHr].
    + apply (Permutation_in _ (Permutation_sym R1)), in_app_or in Hb as [Hb|Hb];
        [exact Hb|].
      specialize (R2 b Hb). unfold ready in R2. rewrite Hf in R2. discriminate.
    + apply (Permutation_in _ (Permutation_sym R1)), in_app_or in Hb as [Hb|Hb];
        [exact Hb|].
      specialize (R2 b Hb). unfold ready in R2. rewrite Hp in R2.
      apply TargetFiles.str_mem_In in IHr. rewrite IHr, orb_true_r in R2. discriminate.
Qed.


(** Bone objects live in a heap shared by all skeletons; a reference to a
    bone is its index in the heap. Of a [Bone] the model keeps the fields
    that [__init__] sets from its arguments and from the parent; the
    reference lists and the matrices are left out. *)
Record bone_obj := BoneObj {
  bo_name : string;
  bo_parent : option nat;
  bo_level : nat;
  bo_children : list nat;
  bo_head : string;
  bo_tail : string;
  bo_roll : rplane
}.

Definition heap := list bone_obj.

(** A [Skeleton]. [sk_joints_pos_idxs] is the attribute [joints_pos_idxs],
    which only [copy] sets ([None]: the attribute does not exist). The
    vertex weights are kept as their data. *)
Record skel := Skel {
  sk_name : string;
  sk_bones : pydict nat;
  sk_boneslist : list nat;
  sk_roots : list nat;
  sk_joint_pos_idxs : pydict (list Z);
  sk_joints_pos_idxs : option (pydict (list Z));
  sk_planes : pydict (list string);
  sk_vertexWeights : option (pydict (list Z * list Qc));
  sk_scale : Qc
}.

(** [Skeleton.__init__(name)] *)
Definition new_skeleton (name : string) : skel :=
  Skel name [] [] [] [] None [] None 1.

(** [Skeleton.getBone]: [self.bones.get(name)]. *)
Definition getBone (s : skel) (name : string) : option nat := dict_find name (sk_bones s).

(** [Bone.__init__]: the new bone gets the next free reference. When
    [parentName] is true and names a bone of the skeleton, that bone becomes
    the parent and gets the new bone appended to its [children]. *)
Definition make_bone (h : heap) (s : skel) (name : string) (parentName : option string)
    (head tail : string) (roll : rplane) : heap * nat :=
  let id := List.length h in
  let parent := if falsy parentName then None
                else match parentName with Some pn => getBone s pn | None => None end in
  let pobj := match parent with Some pid => nth_error h pid | None => None end in
  let h := match parent, pobj with
           | Some pid, Some pb =>
               list_set h pid (BoneObj (bo_name pb) (bo_parent pb) (bo_level pb)
                                 (bo_children pb ++ [id]) (bo_head pb) (bo_tail pb) (bo_roll pb))
           | _, _ => h
           end in
  let level := match pobj with Some pb => S (bo_level pb) | None => 0 end in
  (h ++ [BoneObj name parent level [] head tail roll], id).

(** [Skeleton.addBone] *)
Definition addBone (st : heap * skel) (name : string) (parentName : option string)
    (head tail : string) (roll : rplane) : heap * skel :=
  let '(h, s) := st in
  let '(h', id) := make_bone h s name parentName head tail roll in
  let is_root := match nth_error h' id with
                 | Some b => match bo_parent b with Some _ => false | None => true end
                 | None => true
                 end in
  (h', Skel (sk_name s) (dict_set name id (sk_bones s)) (sk_boneslist s ++ [id])
            (if is_root then sk_roots s ++ [id] else sk_roots s)
            (sk_joint_pos_idxs s) (sk_joints_pos_idxs s) (sk_planes s)
            (sk_vertexWeights s) (sk_scale s)).

(** [rotation_plane = bone_defs.get("rotation_plane", 0)], then
    [if rotation_plane == [None, None, None]: rotation_plane = 0]. *)
Definition roll_of (d : bonedef) : rplane :=
  match bd_roll d with
  | None => RP_zero
  | Some (RP_names [None; None; None]) => RP_zero
  | Some r => r
  end.

(** The JSON data [fromFile] reads. A value of "joints" is [None] when it is
    not a list. *)
Record skeldata := SkelData {
  sd_name : option string;
  sd_joints : pydict (option (list Z));
  sd_planes : option (pydict (list string));
  sd_bones : pydict bonedef
}.

Definition add_joint (acc : pydict (list Z)) (jv : string * option (list Z)) : pydict (list Z) :=
  match snd jv with
  | Some ((_ :: _) as v) => dict_set (fst jv) v acc
  | _ => acc
  end.

(** [Skeleton.fromFile] up to the bones ([mesh=None]; the weights files are
    not modelled). [input_bones[bone_name]] always exists. *)
Definition fromFile (st : heap * skel) (d : skeldata) : heap * skel :=
  let '(h, s) := st in
  let s := Skel (match sd_name d with Some n => n | None => sk_name s end)
                (sk_bones s) (sk_boneslist s) (sk_roots s)
                (fold_left add_joint (sd_joints d) (sk_joint_pos_idxs s))
                (sk_joints_pos_idxs s)
                (match sd_planes d with Some p => p | None => [] end)
                (sk_vertexWeights s) (sk_scale s) in
  let inp := sd_bones d in
  fold_left (fun st bn =>
               match dict_find bn inp with
               | Some bd => addBone st bn (bd_parent bd) (bd_head bd) (bd_tail bd) (roll_of bd)
               | None => st
               end)
            (breadthfirst inp) (h, s).

(** [Skeleton.copy]. The joint table is stored under the misspelt attribute
    [joints_pos_idxs]; [joint_pos_idxs] of the copy keeps the empty dict of
    [__init__]. *)
Definition copy (st : heap * skel) : heap * skel :=
  let '(h, s) := st in
  let ns := new_skeleton (sk_name s) in
  let ns := Skel (sk_name ns) (sk_bones ns) (sk_boneslist ns) (sk_roots ns)
                 (sk_joint_pos_idxs ns) (Some (sk_joint_pos_idxs s)) (sk_planes s)
                 (sk_vertexWeights s) (sk_scale ns) in
  let '(h', ns) :=
    fold_left (fun st bid =>
                 match nth_error h bid with
                 | Some b =>
                     let parent_name := match bo_parent b with
                                        | Some pid => option_map bo_name (nth_error h pid)
                                        | None => None
                                        end in
                     addBone st (bo_name b) parent_name (bo_head b) (bo_tail b) (bo_roll b)
                 | None => st
                 end)
              (sk_boneslist s) (h, ns) in
  (h', Skel (sk_name ns) (sk_bones ns) (sk_boneslist ns) (sk_roots ns)
            (sk_joint_pos_idxs ns) (sk_joints_pos_idxs ns) (sk_planes ns)
            (sk_vertexWeights ns) (sk_scale s)).

(** [Skeleton.getJointPosition] on [mesh.vertices]: the mean of the
    vertices of the joint, numpy indexing raising [IndexError] out of
    range; the mean of no vertex is NaN. A joint without entry gives the
    origin. *)
Inductive jpos := JPos (v : vec3) | JNaN | JIndexError.

Fixpoint gather (verts : list vec3) (idxs : list Z) : option (list vec3) :=
  match idxs with
  | [] => Some []
  | i :: r =>
      match norm_index (List.length verts) i, gather verts r with
      | Some p, Some vs => Some (nth p verts vzero :: vs)
      | _, _ => None
      end
  end.

Definition getJointPosition (s : skel) (joint_name : string) (verts : list vec3) : jpos :=
  match dict_find joint_name (sk_joint_pos_idxs s) with
  | Some v_idxs =>
      match gather verts v_idxs with
      | None => JIndexError
      | Some [] => JNaN
      | Some vs => JPos (vscale_r (fold_left vadd vs vzero) ((1 / Q2Qc (inject_Z (Z.of_nat (List.length vs))))%Qc))
      end
  | None => JPos vzero
  end.

(** What a bone shows through its references: its name, the name of its
    parent, its joints and its rotation plane. *)
Definition pname (h : heap) (bo : bone_obj) : option string :=
  match bo_parent bo with Some pid => option_map bo_name (nth_error h pid) | None => None end.

Definition bview (h : heap) (id : nat) : option (string * option string * string * string * rplane) :=
  option_map (fun bo => (bo_name bo, pname h bo, bo_head bo, bo_tail bo, bo_roll bo)) (nth_error h id).

Definition bones_view (st : heap * skel) := map (bview (fst st)) (sk_boneslist (snd st)).
Definition roots_view (st : heap * skel) := map (bview (fst st)) (sk_roots (snd st)).

(** The parent a definition names, [None] when it is false. *)
Definition truthy (p : option string) : option string := if falsy p then None else p.

Definition bone_op := (string * option string * string * string * rplane)%type.

(** A run of [addBone] calls. *)
Definition build (st : heap * skel) (ops : list bone_op) : heap * skel :=
  fold_left (fun st '(b, P, hd, tl, r) => addBone st b P hd tl r) ops st.

Lemma nth_error_list_set {A} (l : list A) n x m :
  nth_error (list_set l n x) m =
    if Nat.eqb n m then (if Nat.ltb n (List.length l) then Some x else None)
    else nth_error l m.
Proof.
  revert n m. induction l as [|y l IH]; intros n m; simpl.
  - destruct (Nat.eqb n m), m; reflexivity.
  - destruct n as [|n], m as [|m]; simpl; try reflexivity.
    rewrite IH. reflexivity.
Qed.

Lemma length_list_set' {A} (l : list A) n x : List.length (list_set l n x) = List.length l.
Proof. revert n. induction l; intros [|n]; simpl; auto. Qed.

(** The invariant of a skeleton under construction: every dict entry
    refers to a bone of that name; every bone of [boneslist] and [roots]
    exists, and so does its parent. *)
Definition valid_ref (h : heap) (id : nat) : Prop :=
  exists bo, nth_error h id = Some bo /\
    forall pid, bo_parent bo = Some pid -> pid < List.length h.

Definition skel_ok (st : heap * skel) : Prop :=
  (forall k id, dict_find k (sk_bones (snd st)) = Some id ->
     exists bo, nth_error (fst st) id = Some bo /\ bo_name bo = k) /\
  (forall id, In id (sk_boneslist (snd st)) -> valid_ref (fst st) id) /\
  (forall id, In id (sk_roots (snd st)) -> valid_ref (fst st) id).

(** The heap only grows, and only [children] of existing bones changes. *)
Definition heap_ext (h h' : heap) : Prop :=
  List.length h <= List.length h' /\
  forall id bo, nth_error h id = Some bo -> exists bo', nth_error h' id = Some bo' /\
    bo_name bo' = bo_name bo /\ bo_parent bo' = bo_parent bo /\
    bo_head bo' = bo_head bo /\ bo_tail bo' = bo_tail bo /\ bo_roll bo' = bo_roll bo.

Lemma heap_ext_valid h h' id : heap_ext h h' -> valid_ref h id -> valid_ref h' id.
Proof.
  intros [Hl He] [bo [Hb Hp]]. destruct (He _ _ Hb) as (bo' & Hb' & _ & Hpar & _).
  exists bo'. split; [exact Hb'|]. intros pid E. rewrite Hpar in E. specialize (Hp _ E). lia.
Qed.

Lemma heap_ext_bview h h' id : heap_ext h h' -> valid_ref h id -> bview h' id = bview h id.
Proof.
  intros [Hl He] [bo [Hb Hp]]. destruct (He _ _ Hb) as (bo' & Hb' & E1 & E2 & E3 & E4 & E5).
  unfold bview. rewrite Hb, Hb'. simpl. unfold pname. rewrite E1, E2, E3, E4, E5.
  destruct (bo_parent bo) as [pid|] eqn:Ep; [|reflexivity].
  specialize (Hp _ eq_refl).
  destruct (nth_error h pid) as [pb|] eqn:Epb.
  - destruct (He _ _ Epb) as (pb' & -> & F1 & _). simpl. rewrite F1. reflexivity.
  - apply nth_error_None in Epb. lia.
Qed.

(** The parent [Bone.__init__] resolves. *)
Definition resolved (s : skel) (P : option string) : option nat :=
  if falsy P then None else match P with Some pn => getBone s pn | None => None end.

Lemma addBone_spec h s b P hd tl r :
  skel_ok (h, s) ->
  let id := List.length h in
  let st' := addBone (h, s) b P hd tl r in
  heap_ext h (fst st') /\ List.length (fst st') = S id /\
  (exists bo, nth_error (fst st') id = Some bo /\ bo_name bo = b /\
     bo_parent bo = resolved s P /\ bo_head bo = hd /\ bo_tail bo = tl /\ bo_roll bo = r) /\
  sk_bones (snd st') = dict_set b id (sk_bones s) /\
  sk_boneslist (snd st') = sk_boneslist s ++ [id] /\
  sk_roots (snd st') = sk_roots s ++ (match resolved s P with None => [id] | Some _ => [] end) /\
  sk_name (snd st') = sk_name s /\ sk_joint_pos_idxs (snd st') = sk_joint_pos_idxs s /\
  sk_joints_pos_idxs (snd st') = sk_joints_pos_idxs s /\ sk_planes (snd st') = sk_planes s /\
  sk_vertexWeights (snd st') = sk_vertexWeights s /\ sk_scale (snd st') = sk_scale s /\
  skel_ok (fst st', snd st').
Proof.
  intros [Hd [Hbl Hro]] id st'. unfold st', addBone, make_bone.
  fold (resolved s P). fold id.
  (* the heap after the parent's [children] is updated *)
  set (h1 := match resolved s P, match resolved s P with
                                  | Some pid => nth_error h pid | None => None end with
             | Some pid, Some pb =>
                 list_set h pid (BoneObj (bo_name pb) (bo_parent pb) (bo_level pb)
                   (bo_children pb ++ [id]) (bo_head pb) (bo_tail pb) (bo_roll pb))
             | _, _ => h end).
  assert (Hl1 : List.length h1 = id).
  { unfold h1. destruct (resolved s P) as [pid|]; [|reflexivity].
    destruct (nth_error h pid); [apply length_list_set'|reflexivity]. }
  assert (He1 : heap_ext h h1).
  { split; [lia|]. intros i bo Hi. unfold h1.
    destruct (resolved s P) as [pid|]; [|exists bo; repeat split; assumption].
    destruct (nth_error h pid) as [pb|] eqn:Epb; [|exists bo; repeat split; assumption].
    rewrite nth_error_list_set.
    destruct (Nat.eqb pid i) eqn:E.
    - apply Nat.eqb_eq in E; subst i. rewrite Epb in Hi. injection Hi as <-.
      assert (Hlt : Nat.ltb pid (List.length h) = true)
        by (apply Nat.ltb_lt, nth_error_Some; congruence).
      rewrite Hlt. eexists; repeat split.
    - exists bo. repeat split; assumption. }
  assert (Hres : forall pid, resolved s P = Some pid -> pid < id).
  { intros pid E. unfold resolved in E. destruct (falsy P); [discriminate|].
    destruct P as [pn|]; [|discriminate]. unfold getBone in E.
    destruct (Hd _ _ E) as (bo & Hb & _). unfold id. apply nth_error_Some. simpl in Hb. congruence. }
  set (nb := BoneObj b (resolved s P)
               (match match resolved s P with Some pid => nth_error h pid | None => None end with
                | Some pb => S (bo_level pb) | None => 0 end) [] hd tl r).
  assert (Hnew : nth_error (h1 ++ [nb]) id = Some nb).
  { rewrite nth_error_app2 by lia. rewrite Hl1, Nat.sub_diag. reflexivity. }
  assert (He : heap_ext h (h1 ++ [nb])).
  { destruct He1 as [Hl He1]. split; [rewrite length_app; lia|].
    intros i bo Hi. destruct (He1 _ _ Hi) as (bo' & Hi' & R).
    exists bo'. split; [|exact R]. rewrite nth_error_app1; [exact Hi'|].
    apply nth_error_Some. congruence. }
  rewrite Hnew. simpl.
  assert (Hvn : valid_ref (h1 ++ [nb]) id).
  { exists nb. split; [exact Hnew|]. intros pid E. simpl in E. specialize (Hres _ E).
    rewrite length_app. simpl. lia. }
  split; [exact He|]. split; [rewrite length_app, Hl1; simpl; lia|].
  split; [exists nb; repeat split; assumption|].
  split; [reflexivity|]. split; [reflexivity|].
  split; [destruct (resolved s P); [rewrite app_nil_r|]; reflexivity|].
  do 6 (split; [reflexivity|]).
  split; [|split]; simpl.
  - intros k i Hk. rewrite dict_find_set in Hk. destruct (String.eqb k b) eqn:E.
    + injection Hk as <-. apply String.eqb_eq in E. subst k. exists nb. split; [exact Hnew|reflexivity].
    + destruct (Hd _ _ Hk) as (bo & Hb & Hn). destruct (proj2 He _ _ Hb) as (bo' & Hb' & Hn' & _).
      exists bo'. split; [exact Hb'|congruence].
  - intros i Hi. apply in_app_or in Hi as [Hi|[<-|[]]]; [|exact Hvn].
    apply (heap_ext_valid h); [exact He|]. apply Hbl, Hi.
  - intros i Hi.
    assert (Hi' : In i (sk_roots s) \/ i = id).
    { destruct (resolved s P); simpl in Hi; [left; exact Hi|].
      apply in_app_or in Hi as [Hi|[<-|[]]]; [left; exact Hi|right; reflexivity]. }
    destruct Hi' as [Hi'| ->]; [|exact Hvn].
    apply (heap_ext_valid h); [exact He|apply Hro, Hi'].
Qed.

(** Each call names as parent a false value or a bone added before. *)
Fixpoint ops_good (seen : list string) (ops : list bone_op) : Prop :=
  match ops with
  | [] => True
  | (b, P, _, _, _) :: r =>
      (falsy P = true \/ exists p, P = Some p /\ In p seen) /\ ops_good (seen ++ [b]) r
  end.

Definition op_view (op : bone_op) : option (string * option string * string * string * rplane) :=
  let '(b, P, hd, tl, r) := op in Some (b, truthy P, hd, tl, r).

Definition op_root (op : bone_op) : bool := let '(_, P, _, _, _) := op in falsy P.

Lemma map_bview_ext h h' ids :
  heap_ext h h' -> (forall id, In id ids -> valid_ref h id) -> map (bview h') ids = map (bview h) ids.
Proof.
  intros He Hv. apply map_ext_in. intros id Hid. apply heap_ext_bview; [exact He|apply Hv, Hid].
Qed.

Lemma addBone_view st b P hd tl r seen :
  skel_ok st -> (forall k, In k seen -> dict_find k (sk_bones (snd st)) <> None) ->
  (falsy P = true \/ exists p, P = Some p /\ In p seen) ->
  let st' := addBone st b P hd tl r in
  bones_view st' = bones_view st ++ [op_view (b, P, hd, tl, r)] /\
  roots_view st' = roots_view st ++ (if falsy P then [op_view (b, P, hd, tl, r)] else []) /\
  skel_ok st' /\
  (forall k, In k (seen ++ [b]) -> dict_find k (sk_bones (snd st')) <> None) /\
  sk_name (snd st') = sk_name (snd st) /\
  sk_joint_pos_idxs (snd st') = sk_joint_pos_idxs (snd st) /\
  sk_joints_pos_idxs (snd st') = sk_joints_pos_idxs (snd st) /\
  sk_planes (snd st') = sk_planes (snd st) /\
  sk_vertexWeights (snd st') = sk_vertexWeights (snd st) /\ sk_scale (snd st') = sk_scale (snd st).
Proof.
  destruct st as [h s]. intros Hok Hseen HP st'.
  destruct (addBone_spec h s b P hd tl r Hok) as
    (He & Hlen & (bo & Hbo & N1 & N2 & N3 & N4 & N5) & Bd & Bl & Ro & F1 & F2 & F3 & F4 & F5 & F6 & Hok').
  fold st' in He, Hlen, Hbo, Bd, Bl, Ro, F1, F2, F3, F4, F5, F6, Hok'.
  clearbody st'. destruct st' as [h' s']. simpl in *.
  destruct Hok as [Hd [Hbl Hro]].
  (* the resolved parent *)
  assert (Hres : resolved s P = None /\ falsy P = true \/
                 exists p pid, P = Some p /\ falsy P = false /\ resolved s P = Some pid /\
                   exists pb, nth_error h pid = Some pb /\ bo_name pb = p).
  { destruct HP as [Hf|[p [-> Hp]]].
    - left. unfold resolved. rewrite Hf. split; reflexivity.
    - destruct (falsy (Some p)) eqn:Ef.
      + left. unfold resolved. rewrite Ef. split; reflexivity.
      + right. specialize (Hseen p Hp). unfold resolved. rewrite Ef. unfold getBone.
        destruct (dict_find p (sk_bones s)) as [pid|] eqn:Eb; [|congruence].
        exists p, pid. split; [reflexivity|]. split; [first [exact Ef|reflexivity]|]. split; [reflexivity|].
        apply (Hd _ _ Eb). }
  assert (Hnew : bview h' (List.length h) = op_view (b, P, hd, tl, r)).
  { unfold bview. rewrite Hbo. simpl. rewrite N1, N3, N4, N5. unfold pname. rewrite N2.
    destruct Hres as [[-> Hf]|(p & pid & -> & Hf & -> & pb & Hpb & Hpn)].
    - unfold truthy. rewrite Hf. reflexivity.
    - destruct (proj2 He _ _ Hpb) as (pb' & -> & Hn & _). simpl. unfold truthy. rewrite Hf, Hn, Hpn.
      reflexivity. }
  unfold bones_view, roots_view. simpl. rewrite Bl.
  split; [rewrite map_app, (map_bview_ext h h'); [simpl; rewrite Hnew; reflexivity|exact He|exact Hbl]|].
  split.
  - rewrite Ro, map_app, (map_bview_ext h h' (sk_roots s)); [|exact He|exact Hro].
    destruct Hres as [[-> ->]|(p & pid & _ & -> & -> & _)]; simpl; [rewrite Hnew|rewrite app_nil_r];
      reflexivity.
  - split; [exact Hok'|]. split; [|repeat split; assumption].
    intros k Hk. rewrite Bd, dict_find_set. destruct (String.eqb k b) eqn:E; [discriminate|].
    apply in_app_or in Hk as [Hk|[<-|[]]]; [apply Hseen, Hk|].
    rewrite String.eqb_refl in E. discriminate.
Qed.

Lemma build_spec ops : forall st seen,
  skel_ok st -> (forall k, In k seen -> dict_find k (sk_bones (snd st)) <> None) ->
  ops_good seen ops ->
  bones_view (build st ops) = bones_view st ++ map op_view ops /\
  roots_view (build st ops) = roots_view st ++ map op_view (filter op_root ops) /\
  sk_name (snd (build st ops)) = sk_name (snd st) /\
  sk_joint_pos_idxs (snd (build st ops)) = sk_joint_pos_idxs (snd st) /\
  sk_joints_pos_idxs (snd (build st ops)) = sk_joints_pos_idxs (snd st) /\
  sk_planes (snd (build st ops)) = sk_planes (snd st) /\
  sk_vertexWeights (snd (build st ops)) = sk_vertexWeights (snd st) /\
  sk_scale (snd (build st ops)) = sk_scale (snd st).
Proof.
  induction ops as [|[[[[b P] hd] tl] r] ops IH]; intros st seen Hok Hseen Hg.
  - unfold build. simpl. rewrite !app_nil_r. repeat split; reflexivity.
  - destruct Hg as [HP Hg].
    destruct (addBone_view st b P hd tl r seen Hok Hseen HP)
      as (V1 & V2 & Ok' & Seen' & F1 & F2 & F3 & F4 & F5 & F6).
    change (build st ((b, P, hd, tl, r) :: ops)) with (build (addBone st b P hd tl r) ops).
    destruct (IH _ _ Ok' Seen' Hg) as (W1 & W2 & G1 & G2 & G3 & G4 & G5 & G6).
    rewrite W1, W2, V1, V2, G1, G2, G3, G4, G5, G6, F1, F2, F3, F4, F5, F6.
    rewrite <- !app_assoc. simpl.
    split; [reflexivity|]. split; [|repeat split; reflexivity].
    destruct (falsy P); reflexivity.
Qed.

Lemma skel_ok_new h nm : skel_ok (h, new_skeleton nm).
Proof. repeat split; simpl; intros; try discriminate; contradiction. Qed.

Definition op_of (inp : pydict bonedef) (b : string) : bone_op :=
  match dict_find b inp with
  | Some bd => (b, bd_parent bd, bd_head bd, bd_tail bd, roll_of bd)
  | None => (b, None, "", "", RP_zero)
  end.

Lemma dict_find_key {V} k (d : pydict V) : In k (map fst d) -> dict_find k d <> None.
Proof.
  induction d as [|[k' v'] d IH]; simpl; [tauto|]. intros [->|H].
  - rewrite String.eqb_refl. discriminate.
  - destruct (String.eqb k k'); [discriminate|apply IH, H].
Qed.

Lemma fold_bones_build inp out st :
  (forall b, In b out -> dict_find b inp <> None) ->
  fold_left (fun st bn =>
               match dict_find bn inp with
               | Some bd => addBone st bn (bd_parent bd) (bd_head bd) (bd_tail bd) (roll_of bd)
               | None => st
               end) out st = build st (map (op_of inp) out).
Proof.
  revert st. induction out as [|b out IH]; intros st Hin; [reflexivity|].
  simpl. unfold op_of at 1. destruct (dict_find b inp) eqn:E.
  - rewrite IH; [reflexivity|]. intros x Hx. apply Hin. right. exact Hx.
  - exfalso. apply (Hin b); [left; reflexivity|exact E].
Qed.

Lemma ordered_ops_good inp out : forall pre,
  (forall l1 b l2, out = l1 ++ b :: l2 ->
     falsy (parent_of inp b) = true \/ exists p, parent_of inp b = Some p /\ In p (pre ++ l1)) ->
  ops_good pre (map (op_of inp) out).
Proof.
  induction out as [|b out IH]; intros pre Ho; simpl; [exact I|].
  assert (Hop : exists P hd tl r, op_of inp b = (b, P, hd, tl, r) /\ P = parent_of inp b).
  { unfold op_of, parent_of. destruct (dict_find b inp); eexists _, _, _, _; split; reflexivity. }
  destruct Hop as (P & hd & tl & r & -> & ->). split.
  - destruct (Ho [] b out eq_refl) as [H|[p [Hp Hin]]]; [left; exact H|right].
    exists p. split; [exact Hp|]. rewrite app_nil_r in Hin. exact Hin.
  - apply IH. intros l1 b' l2 E. rewrite <- app_assoc. apply (Ho (b :: l1) b' l2).
    rewrite E. reflexivity.
Qed.

(** Loading with [Skeleton.fromFile] into a fresh skeleton: [boneslist]
    holds the bones of the sort, each bone linked to the parent its
    definition names (and to no parent when that name is false), with the
    joints and rotation plane of its definition; [roots] holds, in the same
    order, the bones whose parent is false. *)
Theorem fromFile_bones (h : heap) (nm : string) (d : skeldata)
    (Hkeys : NoDup (map fst (sd_bones d))) :
  let view b := match dict_find b (sd_bones d) with
                | Some bd => Some (b, truthy (bd_parent bd), bd_head bd, bd_tail bd, roll_of bd)
                | None => None
                end in
  bones_view (fromFile (h, new_skeleton nm) d) = map view (breadthfirst (sd_bones d)) /\
  roots_view (fromFile (h, new_skeleton nm) d) =
    map view (filter (fun b => falsy (parent_of (sd_bones d) b)) (breadthfirst (sd_bones d))).
Proof.
  intros view. set (inp := sd_bones d) in *.
  destruct (breadthfirst_bones_spec inp Hkeys) as (_ & Hroot & Hord).
  assert (Hin : forall b, In b (breadthfirst inp) -> dict_find b inp <> None).
  { intros b Hb. apply dict_find_key. apply Hroot in Hb. destruct Hb; assumption. }
  unfold fromFile. fold inp. rewrite fold_bones_build by exact Hin.
  match goal with |- context [build (h, ?s0) _] => set (s1 := s0) end.
  assert (Hok : skel_ok (h, s1)) by (repeat split; simpl; intros; try discriminate; contradiction).
  destruct (build_spec (map (op_of inp) (breadthfirst inp)) (h, s1) [] Hok
              (fun k Hk => match Hk with end) (ordered_ops_good inp _ [] Hord))
    as (V1 & V2 & _).
  rewrite V1, V2. unfold bones_view, roots_view. simpl.
  assert (Hv : forall b, In b (breadthfirst inp) -> op_view (op_of inp b) = view b).
  { intros b Hb. unfold op_view, op_of, view. fold inp. specialize (Hin b Hb).
    destruct (dict_find b inp); [reflexivity|congruence]. }
  split.
  - rewrite map_map. apply map_ext_in. exact Hv.
  - assert (Hf : forall l, filter op_root (map (op_of inp) l) =
                        map (op_of inp) (filter (fun b => falsy (parent_of inp b)) l)).
    { induction l as [|b l IH]; [reflexivity|]. simpl.
      replace (op_root (op_of inp b)) with (falsy (parent_of inp b))
        by (unfold op_root, op_of, parent_of; destruct (dict_find b inp); reflexivity).
      destruct (falsy (parent_of inp b)); simpl; rewrite IH; reflexivity. }
    rewrite Hf, map_map. apply map_ext_in. intros b Hb.
    apply filter_In in Hb as [Hb _]. apply Hv, Hb.
Qed.

(** [strip_op] turns a parent that is false into [None]. *)
Definition strip_op (op : bone_op) : bone_op :=
  let '(b, P, hd, tl, r) := op in (b, truthy P, hd, tl, r).

Lemma falsy_truthy P : falsy (truthy P) = falsy P.
Proof. unfold truthy. destruct (falsy P) eqn:E; [reflexivity|exact E]. Qed.

Lemma truthy_truthy P : truthy (truthy P) = truthy P.
Proof. unfold truthy at 1. rewrite falsy_truthy. unfold truthy. destruct (falsy P); reflexivity. Qed.

Lemma ops_good_strip ops : forall seen, ops_good seen ops -> ops_good seen (map strip_op ops).
Proof.
  induction ops as [|[[[[b P] hd] tl] r] ops IH]; intros seen Hg; simpl in *; [exact I|].
  destruct Hg as [HP Hg]. split; [|apply IH, Hg].
  unfold truthy. destruct (falsy P) eqn:E; [left; reflexivity|].
  destruct HP as [H|H]; [congruence|right; exact H].
Qed.

Lemma fold_copy_build (h : heap) ids ops st :
  map (bview h) ids = map op_view ops ->
  fold_left (fun st bid =>
               match nth_error h bid with
               | Some b =>
                   let parent_name := match bo_parent b with
                                      | Some pid => option_map bo_name (nth_error h pid)
                                      | None => None
                                      end in
                   addBone st (bo_name b) parent_name (bo_head b) (bo_tail b) (bo_roll b)
               | None => st
               end) ids st = build st (map strip_op ops).
Proof.
  revert ops st. induction ids as [|bid ids IH]; intros [|[[[[b P] hd] tl] r] ops] st E;
    try discriminate; [reflexivity|].
  simpl in E. injection E as E1 E2. simpl.
  unfold bview in E1. destruct (nth_error h bid) as [bo|]; [|discriminate].
  simpl in E1. injection E1 as -> HP -> -> ->. unfold pname in HP.
  rewrite (IH _ _ E2). unfold build at 2. simpl. rewrite HP. reflexivity.
Qed.

(** [Skeleton.copy] of a skeleton loaded by [fromFile] has the same bones
    in the same order, with the same parents, joints and rotation planes,
    and the same roots. But it stores the joint table under the misspelt
    attribute [joints_pos_idxs]: its own [joint_pos_idxs] stays empty, so
    [getJointPosition] on the copy answers the origin for every joint, on
    any mesh. *)
Theorem copy_spec (h : heap) (nm : string) (d : skeldata)
    (Hkeys : NoDup (map fst (sd_bones d))) :
  let st := fromFile (h, new_skeleton nm) d in
  bones_view (copy st) = bones_view st /\
  roots_view (copy st) = roots_view st /\
  sk_joint_pos_idxs (snd (copy st)) = [] /\
  sk_joints_pos_idxs (snd (copy st)) = Some (sk_joint_pos_idxs (snd st)) /\
  (forall joint verts, getJointPosition (snd (copy st)) joint verts = JPos vzero).
Proof.
  intros st. set (inp := sd_bones d) in *.
  destruct (breadthfirst_bones_spec inp Hkeys) as (_ & Hroot & Hord).
  assert (Hin : forall b, In b (breadthfirst inp) -> dict_find b inp <> None).
  { intros b Hb. apply dict_find_key. apply Hroot in Hb. destruct Hb; assumption. }
  set (ops := map (op_of inp) (breadthfirst inp)).
  assert (Hg : ops_good [] ops) by exact (ordered_ops_good inp _ [] Hord).
  unfold st, fromFile in *. fold inp. rewrite fold_bones_build by exact Hin. fold ops.
  match goal with |- context [build (h, ?s0) ops] => set (s1 := s0) end.
  assert (Hok : skel_ok (h, s1)) by (repeat split; simpl; intros; try discriminate; contradiction).
  destruct (build_spec ops (h, s1) [] Hok (fun k Hk => match Hk with end) Hg)
    as (V1 & V2 & _).
  set (st1 := build (h, s1) ops) in *.
  clearbody st1. destruct st1 as [h1 s1'].
  unfold bones_view, roots_view in V1, V2. simpl in V1, V2.
  unfold copy.
  rewrite (fold_copy_build h1 (sk_boneslist s1') ops) by exact V1.
  match goal with |- context [build (h1, ?s0) _] => set (s2 := s0) end.
  assert (Hok2 : skel_ok (h1, s2)) by (repeat split; simpl; intros; try discriminate; contradiction).
  destruct (build_spec (map strip_op ops) (h1, s2) [] Hok2 (fun k Hk => match Hk with end)
              (ops_good_strip ops [] Hg)) as (W1 & W2 & _ & W4 & W5 & _).
  set (st2 := build (h1, s2) (map strip_op ops)) in *.
  clearbody st2. destruct st2 as [h2 s2'].
  unfold bones_view, roots_view in W1, W2 |- *. simpl in W1, W2, W4, W5 |- *.
  split; [|split; [|split; [exact W4|split; [exact W5|]]]].
  - rewrite W1, V1, map_map. apply map_ext. intros [[[[b P] hd] tl] r]. simpl.
    rewrite truthy_truthy. reflexivity.
  - rewrite W2, V2. clear. induction ops as [|[[[[b P] hd] tl] r] ops IH]; [reflexivity|].
    simpl. rewrite falsy_truthy. destruct (falsy P); simpl; [|exact IH].
    rewrite truthy_truthy, IH. reflexivity.
  - intros joint verts. unfold getJointPosition. simpl. rewrite W4. reflexivity.
Qed.

(** A file with a root, a chain, two bones in a cycle, one with a missing
    parent and one whose parent is the empty string. *)
Definition ex_bones : pydict bonedef :=
  [("hand", BoneDef (Some "arm") "j_hand" "j_tip" None);
   ("root", BoneDef None "j_root" "j_neck" None);
   ("arm", BoneDef (Some "root") "j_neck" "j_hand" (Some (RP_names [None; None; None])));
   ("loop1", BoneDef (Some "loop2") "j_a" "j_b" None);
   ("loop2", BoneDef (Some "loop1") "j_b" "j_a" None);
   ("orphan", BoneDef (Some "nobody") "j_a" "j_b" None);
   ("top2", BoneDef (Some "") "j_c" "j_d" (Some (RP_name "p")))].

Definition ex_data : skeldata :=
  SkelData (Some "body") [("j_neck", Some [0%Z; 1%Z]); ("bad", None); ("j_empty", Some [])]
           (Some []) ex_bones.

Definition ex_verts : list vec3 := [V3 0 0 0; V3 (q 2) (q 4) (q 6)].

Lemma ex_bones_nodup : NoDup (map fst ex_bones).
Proof. repeat constructor; simpl; intuition discriminate. Qed.

Lemma breadthfirst_bones_spec_witness :
  NoDup (map fst ex_bones) /\ NoDup (breadthfirst ex_bones) /\
  breadthfirst ex_bones = ["root"; "arm"; "top2"; "hand"].
Proof.
  split; [exact ex_bones_nodup|]. split; [|vm_compute; reflexivity].
  exact (proj1 (breadthfirst_bones_spec ex_bones ex_bones_nodup)).
Defined.

Lemma fromFile_bones_witness :
  NoDup (map fst (sd_bones ex_data)) /\
  roots_view (fromFile ([], new_skeleton "skel") ex_data) =
    [Some ("root", None, "j_root", "j_neck", RP_zero);
     Some ("top2", None, "j_c", "j_d", RP_name "p")].
Proof.
  split; [exact ex_bones_nodup|].
  etransitivity; [exact (proj2 (fromFile_bones [] "skel" ex_data ex_bones_nodup))|].
  vm_compute. reflexivity.
Defined.

Lemma copy_spec_witness :
  NoDup (map fst (sd_bones ex_data)) /\
  match getJointPosition (snd (fromFile ([], new_skeleton "skel") ex_data)) "j_neck" ex_verts with
  | JPos v => vec3_eqb v (V3 1 (q 2) (q 3))
  | _ => false
  end = true /\
  getJointPosition (snd (copy (fromFile ([], new_skeleton "skel") ex_data))) "j_neck" ex_verts
    = JPos vzero.
Proof.
  split; [exact ex_bones_nodup|]. split; [vm_compute; reflexivity|].
  exact (proj2 (proj2 (proj2 (proj2 (copy_spec [] "skel" ex_data ex_bones_nodup)))) "j_neck" ex_verts).
Defined.
End SkeletonLoad.

(* ------------------------------------------------------------------ *)
(** ** [subdivide_catmull_clark_approx] ([mesh_processing.py])

    [vertices] is an (n, 3) array and [faces] an (F, 4) integer array of
    quads. Vertex indices follow numpy: [-n <= i < n], negative ones
    counting from the end. The float constants [0.4] and [0.6] are read as
    the rationals 2/5 and 3/5. *)

Module Subdivide.
Local Open Scope list_scope.

Definition face := (Z * Z * Z * Z)%type.

Definition face_list (f : face) : list Z := let '(a, b, c, d) := f in [a; b; c; d].

Definition vsum (l : list vec3) : vec3 := fold_left vadd l vzero.

(** [vertices[i]] for an index already checked. *)
Definition vat (verts : list vec3) (i : Z) : vec3 :=
  match norm_index (List.length verts) i with Some p => nth p verts vzero | None => vzero end.

Definition valid (n : nat) (i : Z) : bool :=
  match norm_index n i with Some _ => true | None => false end.

(** [vertices[faces].mean(axis=1)] for one face. *)
Definition face_point (verts : list vec3) (f : face) : vec3 :=
  vscale_r (vsum (map (vat verts) (face_list f))) (q (1 # 4)).

(** The rows [(0,1), (1,2), (2,3), (3,0)] of a face, each sorted. *)
Definition sort2 (a b : Z) : Z * Z := if (a <=? b)%Z then (a, b) else (b, a).

Definition face_edges (f : face) : list (Z * Z) :=
  let '(a, b, c, d) := f in [sort2 a b; sort2 b c; sort2 c d; sort2 d a].

Definition all_edges (faces : list face) : list (Z * Z) := flat_map face_edges faces.

Definition edge_eqb (e e' : Z * Z) : bool := (fst e =? fst e')%Z && (snd e =? snd e')%Z.
Definition edge_ltb (e e' : Z * Z) : bool :=
  (fst e <? fst e')%Z || ((fst e =? fst e')%Z && (snd e <? snd e')%Z).

(** [np.unique(all_edges, axis=0)]: the distinct rows in increasing
    lexicographic order. *)
Fixpoint ins_uniq (e : Z * Z) (l : list (Z * Z)) : list (Z * Z) :=
  match l with
  | [] => [e]
  | x :: r => if edge_ltb e x then e :: l else if edge_eqb e x then l else x :: ins_uniq e r
  end.

Definition unique_edges (faces : list face) : list (Z * Z) :=
  fold_left (fun acc e => ins_uniq e acc) (all_edges faces) [].

(** [inverse_indices]: the position of a row in [unique_edges]. *)
Fixpoint index_of (e : Z * Z) (l : list (Z * Z)) : nat :=
  match l with
  | [] => 0
  | x :: r => if edge_eqb e x then 0 else S (index_of e r)
  end.

(** The face points added by [np.add.at] to an edge: one for each side of
    a face that is this edge. *)
Definition edge_faces (verts : list vec3) (faces : list face) (e : Z * Z) : list vec3 :=
  flat_map (fun f => map (fun _ => face_point verts f) (filter (edge_eqb e) (face_edges f))) faces.

(** [edge_points_sum / edge_counts] *)
Definition edge_point (verts : list vec3) (faces : list face) (e : Z * Z) : vec3 :=
  let fs := edge_faces verts faces e in
  vscale_r (vsum (vat verts (fst e) :: vat verts (snd e) :: fs))
           (1 / Q2Qc (inject_Z (Z.of_nat (2 + List.length fs)))).

Definition at_index (n p : nat) (i : Z) : bool :=
  match norm_index n i with Some p' => Nat.eqb p p' | None => false end.

(** [vert_sum] and [vert_count] at vertex [p]: the edge points of the
    unique edges whose first, then whose second, end is [p]. *)
Definition vert_edges (verts : list vec3) (faces : list face) (p : nat) : list vec3 :=
  let n := List.length verts in
  let ue := unique_edges faces in
  map (edge_point verts faces) (filter (fun e => at_index n p (fst e)) ue) ++
  map (edge_point verts faces) (filter (fun e => at_index n p (snd e)) ue).

(** [0.4 * vertices + 0.6 * vert_avg_edges], with a count of 0 read as 1. *)
Definition new_orig_vert (verts : list vec3) (faces : list face) (p : nat) : vec3 :=
  let es := vert_edges verts faces p in
  let cnt := match List.length es with O => 1%nat | c => c end in
  vadd (vscale_r (nth p verts vzero) (q (2 # 5)))
       (vscale_r (vscale_r (vsum es) (1 / Q2Qc (inject_Z (Z.of_nat cnt)))) (q (3 # 5))).

Definition final_verts (verts : list vec3) (faces : list face) : list vec3 :=
  map (new_orig_vert verts faces) (seq 0 (List.length verts)) ++
  map (edge_point verts faces) (unique_edges faces) ++
  map (face_point verts) faces.

(** The four new quads of face number [k]. *)
Definition sub_quads (n ne : nat) (ue : list (Z * Z)) (k : nat) (f : face) : list face :=
  let '(v0, v1, v2, v3) := f in
  let e i := (Z.of_nat n + Z.of_nat (index_of (nth i (face_edges f) (0, 0)%Z) ue))%Z in
  let c := Z.of_nat (n + ne + k) in
  [(v0, e 0%nat, c, e 3%nat); (e 0%nat, v1, e 1%nat, c); (e 1%nat, v2, e 2%nat, c);
   (e 2%nat, v3, e 3%nat, c)].

(** [np.concatenate([q1, q2, q3, q4])]: all first quads, then all second
    quads, and so on. *)
Definition new_faces (n : nat) (faces : list face) : list face :=
  let ue := unique_edges faces in
  let qs := map (fun kf => sub_quads n (List.length ue) ue (fst kf) (snd kf))
                (combine (seq 0 (List.length faces)) faces) in
  map (fun l => nth 0 l (0, 0, 0, 0)%Z) qs ++ map (fun l => nth 1 l (0, 0, 0, 0)%Z) qs ++
  map (fun l => nth 2 l (0, 0, 0, 0)%Z) qs ++ map (fun l => nth 3 l (0, 0, 0, 0)%Z) qs.

(** The whole function. [vertices[faces]] raises [IndexError] for an
    index out of range, and for [faces = []], whose array has a float
    dtype; nothing after it raises. *)
Definition subdivide (verts : list vec3) (faces : list face) : option (list vec3 * list face) :=
  match faces with
  | [] => None
  | _ =>
      if forallb (valid (List.length verts)) (flat_map face_list faces)
      then Some (final_verts verts faces, new_faces (List.length verts) faces)
      else None
  end.


Lemma edge_eqb_eq e e' : edge_eqb e e' = true -> e = e'.
Proof.
  destruct e as [a b], e' as [c d]. unfold edge_eqb. simpl.
  rewrite andb_true_iff, !Z.eqb_eq. intros [-> ->]. reflexivity.
Qed.

Lemma ins_uniq_In x e l : In x (ins_uniq e l) <-> x = e \/ In x l.
Proof.
  induction l as [|y l IH]; simpl; [intuition congruence|].
  destruct (edge_ltb e y); simpl; [intuition congruence|].
  destruct (edge_eqb e y) eqn:E.
  - apply edge_eqb_eq in E. subst y. split; [tauto|]. intros [->|H]; [left; reflexivity|exact H].
  - simpl. rewrite IH. intuition congruence.
Qed.

Lemma fold_ins_uniq_In x l : forall acc,
  In x (fold_left (fun acc e => ins_uniq e acc) l acc) <-> In x l \/ In x acc.
Proof.
  induction l as [|e l IH]; intros acc; simpl; [tauto|].
  rewrite IH, ins_uniq_In. split; intros H; intuition (subst; auto).
Qed.

Lemma unique_edges_In x faces : In x (unique_edges faces) <-> In x (all_edges faces).
Proof. unfold unique_edges. rewrite fold_ins_uniq_In. simpl. tauto. Qed.

Lemma index_of_lt e l : In e l -> (index_of e l < List.length l)%nat.
Proof.
  induction l as [|x l IH]; simpl; [tauto|]. intros [->|H].
  - unfold edge_eqb. rewrite !Z.eqb_refl. simpl. lia.
  - destruct (edge_eqb e x); [lia|]. specialize (IH H). lia.
Qed.


(** Every end of a unique edge is an index of some face. *)
Lemma unique_edges_ends faces e :
  In e (unique_edges faces) ->
  exists f, In f faces /\ In (fst e) (face_list f) /\ In (snd e) (face_list f).
Proof.
  rewrite unique_edges_In. unfold all_edges. rewrite in_flat_map.
  intros [f [Hf He]]. exists f. split; [exact Hf|].
  destruct f as [[[a b] c] d]. simpl in He |- *.
  destruct He as [<-|[<-|[<-|[<-|[]]]]]; unfold sort2;
    match goal with |- context [(?x <=? ?y)%Z] => destruct (x <=? y)%Z end; simpl; tauto.
Qed.

Lemma length_new_faces n faces :
  List.length (new_faces n faces) = (4 * List.length faces)%nat.
Proof.
  unfold new_faces. rewrite !length_app, !length_map, length_combine, length_seq.
  rewrite Nat.min_id. lia.
Qed.

Lemma length_final_verts verts faces :
  List.length (final_verts verts faces) =
    (List.length verts + List.length (unique_edges faces) + List.length faces)%nat.
Proof. unfold final_verts. rewrite !length_app, !length_map, length_seq. lia. Qed.


Lemma valid_nonneg n i : valid n i = true -> (0 <= i)%Z -> (i < Z.of_nat n)%Z.
Proof.
  unfold valid, norm_index. intros H Hi.
  destruct ((0 <=? i)%Z && (i <? Z.of_nat n)%Z) eqn:E.
  - apply andb_true_iff in E as [_ E]. apply Z.ltb_lt, E.
  - destruct ((- Z.of_nat n <=? i)%Z && (i <? 0)%Z) eqn:E2; [|discriminate].
    apply andb_true_iff in E2 as [_ E2]. apply Z.ltb_lt in E2. lia.
Qed.

Lemma edge_idx_lt faces f j :
  In f faces -> (j < 4)%nat ->
  (index_of (nth j (face_edges f) (0, 0)%Z) (unique_edges faces)
     < List.length (unique_edges faces))%nat.
Proof.
  intros Hf Hj. apply index_of_lt, unique_edges_In. unfold all_edges. apply in_flat_map.
  exists f. split; [exact Hf|]. apply nth_In.
  destruct f as [[[a b] c] d]. simpl. exact Hj.
Qed.

Lemma sub_quads_ends n ne ue k f q i :
  In q (sub_quads n ne ue k f) -> In i (face_list q) ->
  In i (face_list f) \/
  (exists j, (j < 4)%nat /\ i = (Z.of_nat n + Z.of_nat (index_of (nth j (face_edges f) (0, 0)%Z) ue))%Z) \/
  i = Z.of_nat (n + ne + k).
Proof.
  destruct f as [[[a b] c] d]. simpl.
  intros Hq Hi.
  destruct Hq as [<-|[<-|[<-|[<-|[]]]]]; simpl in Hi;
    repeat (destruct Hi as [<-|Hi]);
    try contradiction;
    first [ left; simpl; tauto
          | right; right; reflexivity
          | right; left; exists 0%nat; split; [lia|reflexivity]
          | right; left; exists 1%nat; split; [lia|reflexivity]
          | right; left; exists 2%nat; split; [lia|reflexivity]
          | right; left; exists 3%nat; split; [lia|reflexivity] ].
Qed.

Lemma new_faces_In n faces q :
  In q (new_faces n faces) ->
  exists k f, (k < List.length faces)%nat /\ In f faces /\
    In q (sub_quads n (List.length (unique_edges faces)) (unique_edges faces) k f).
Proof.
  unfold new_faces.
  set (qs := map _ (combine (seq 0 (List.length faces)) faces)).
  assert (Hqs : forall l, In l qs -> exists k f, (k < List.length faces)%nat /\ In f faces /\
      l = sub_quads n (List.length (unique_edges faces)) (unique_edges faces) k f).
  { intros l Hl. unfold qs in Hl. apply in_map_iff in Hl as [[k f] [<- Hkf]].
    exists k, f. split; [|split; [|reflexivity]].
    - apply in_combine_l, in_seq in Hkf. lia.
    - apply in_combine_r in Hkf. exact Hkf. }
  assert (Hnth : forall j, (j < 4)%nat ->
    In q (map (fun l => nth j l (0, 0, 0, 0)%Z) qs) -> exists k f, (k < List.length faces)%nat /\
      In f faces /\ In q (sub_quads n (List.length (unique_edges faces)) (unique_edges faces) k f)).
  { intros j Hj Hq. apply in_map_iff in Hq as [l [<- Hl]].
    destruct (Hqs l Hl) as (k & f & Hk & Hf & ->). exists k, f. split; [exact Hk|split; [exact Hf|]].
    apply nth_In. destruct f as [[[a b] c] d]. simpl. exact Hj. }
  intros Hq.
  apply in_app_or in Hq as [Hq|Hq]; [exact (Hnth 0%nat ltac:(lia) Hq)|].
  apply in_app_or in Hq as [Hq|Hq]; [exact (Hnth 1%nat ltac:(lia) Hq)|].
  apply in_app_or in Hq as [Hq|Hq]; [exact (Hnth 2%nat ltac:(lia) Hq)|].
  exact (Hnth 3%nat ltac:(lia) Hq).
Qed.

Lemma forallb_false_ex {A} (f : A -> bool) l :
  forallb f l = false -> exists x, In x l /\ f x = false.
Proof.
  induction l as [|x l IH]; simpl; [discriminate|].
  destruct (f x) eqn:E; simpl.
  - intros H. destruct (IH H) as [y [Hy Hf]]. exists y. split; [right; exact Hy|exact Hf].
  - intros _. exists x. split; [left; reflexivity|exact E].
Qed.

(** The function fails exactly when [faces] is empty or an index is out
    of range. Otherwise it returns n + E + F vertices (the smoothed
    originals, one point per distinct edge, one per face) and 4F quads. *)
Theorem subdivide_shape (verts : list vec3) (faces : list face) :
  (subdivide verts faces = None <->
     faces = [] \/ exists f i, In f faces /\ In i (face_list f) /\
                               valid (List.length verts) i = false) /\
  (forall vs fs, subdivide verts faces = Some (vs, fs) ->
     List.length vs = (List.length verts + List.length (unique_edges faces) + List.length faces)%nat /\
     List.length fs = (4 * List.length faces)%nat).
Proof.
  split.
  - unfold subdivide. destruct faces as [|f0 fr] eqn:Ef; [split; [left; reflexivity|reflexivity]|].
    rewrite <- Ef. destruct (forallb _ _) eqn:Ea.
    + split; [discriminate|]. intros [Hn|(f & i & Hf & Hi & Hv)]; [rewrite Ef in Hn; discriminate|].
      rewrite forallb_forall in Ea.
      rewrite (Ea i) in Hv; [discriminate|]. apply in_flat_map. exists f. split; assumption.
    + split; [intros _|reflexivity]. right.
      apply forallb_false_ex in Ea as [i [Hi Hv]].
      apply in_flat_map in Hi as [f [Hf Hi]]. exists f, i. split; [exact Hf|split; assumption].
  - intros vs fs. unfold subdivide. destruct faces as [|f0 fr] eqn:Ef; [discriminate|].
    rewrite <- Ef. destruct (forallb _ _); [|discriminate].
    intros H. injection H as <- <-. rewrite length_final_verts, length_new_faces. split; reflexivity.
Qed.

(** When no index is negative, every index of the new faces is a vertex of
    the result. *)
Theorem subdivide_indices_in_range (verts : list vec3) (faces : list face) vs fs
    (Hnonneg : forall f i, In f faces -> In i (face_list f) -> (0 <= i)%Z)
    (Hsub : subdivide verts faces = Some (vs, fs)) :
  forall q i, In q fs -> In i (face_list q) -> (0 <= i < Z.of_nat (List.length vs))%Z.
Proof.
  unfold subdivide in Hsub. destruct faces as [|f0 fr] eqn:Ef; [discriminate|].
  rewrite <- Ef in *. destruct (forallb _ _) eqn:Ea; [|discriminate].
  injection Hsub as <- <-. rewrite length_final_verts. rewrite forallb_forall in Ea.
  intros q i Hq Hi.
  destruct (new_faces_In _ _ _ Hq) as (k & f & Hk & Hf & Hqf).
  destruct (sub_quads_ends _ _ _ _ _ _ _ Hqf Hi) as [Hv|[(j & Hj & ->)| ->]].
  - assert (Hval : valid (List.length verts) i = true)
      by (apply Ea, in_flat_map; exists f; split; assumption).
    pose proof (valid_nonneg _ _ Hval (Hnonneg f i Hf Hv)). specialize (Hnonneg f i Hf Hv). lia.
  - pose proof (edge_idx_lt faces f j Hf Hj). lia.
  - lia.
Qed.

Lemma filter_none {A} (f : A -> bool) l : (forall x, In x l -> f x = false) -> filter f l = [].
Proof.
  induction l as [|x l IH]; simpl; intros H; [reflexivity|].
  rewrite (H x (or_introl eq_refl)). apply IH. intros y Hy. apply H. right. exact Hy.
Qed.

(** A vertex that no face uses has no edge, so its smoothing average is
    empty: the vertex comes out scaled by 0.4, pulled towards the
    origin. *)
Theorem subdivide_unreferenced_vertex (verts : list vec3) (faces : list face) vs fs (p : nat)
    (Hsub : subdivide verts faces = Some (vs, fs))
    (Hp : (p < List.length verts)%nat)
    (Hunused : forall f i, In f faces -> In i (face_list f) ->
                 norm_index (List.length verts) i <> Some p) :
  nth p vs vzero = vscale_r (nth p verts vzero) (q (2 # 5)).
Proof.
  unfold subdivide in Hsub. destruct faces as [|f0 fr] eqn:Ef; [discriminate|].
  rewrite <- Ef in *. destruct (forallb _ _); [|discriminate].
  injection Hsub as <- <-. unfold final_verts.
  rewrite app_nth1 by (rewrite length_map, length_seq; exact Hp).
  rewrite nth_indep with (d' := new_orig_vert verts faces 0%nat)
    by (rewrite length_map, length_seq; exact Hp).
  rewrite map_nth, seq_nth by exact Hp. simpl.
  assert (Hnone : forall e, In e (unique_edges faces) ->
            at_index (List.length verts) p (fst e) = false /\
            at_index (List.length verts) p (snd e) = false).
  { intros e He. destruct (unique_edges_ends faces e He) as (f & Hf & H1 & H2).
    unfold at_index.
    split; [destruct (norm_index _ (fst e)) eqn:E|destruct (norm_index _ (snd e)) eqn:E];
      try reflexivity; apply Nat.eqb_neq; intros <-;
      [apply (Hunused f (fst e) Hf H1 E)|apply (Hunused f (snd e) Hf H2 E)]. }
  unfold new_orig_vert, vert_edges.
  rewrite !filter_none by (intros e He; apply (Hnone e He)).
  simpl. destruct (nth p verts vzero). unfold vadd, vscale_r, vsum. simpl.
  f_equal; ring.
Qed.

(** The unit square as one quad, and a fifth vertex that no face uses. *)
Definition ex_square : list vec3 := [V3 0 0 0; V3 1 0 0; V3 1 1 0; V3 0 1 0].
Definition ex_quad : list face := [(0, 1, 2, 3)%Z].
Definition ex_loose : list vec3 := ex_square ++ [V3 (q 5) (q 5) (q 5)].

Lemma subdivide_indices_in_range_witness :
  (forall f i, In f ex_quad -> In i (face_list f) -> (0 <= i)%Z) /\
  subdivide ex_square ex_quad =
    Some (final_verts ex_square ex_quad, new_faces 4 ex_quad) /\
  (forall q i, In q (new_faces 4 ex_quad) -> In i (face_list q) ->
     (0 <= i < Z.of_nat (List.length (final_verts ex_square ex_quad)))%Z).
Proof.
  assert (H1 : forall f i, In f ex_quad -> In i (face_list f) -> (0 <= i)%Z).
  { intros f i [<-|[]] Hi. simpl in Hi. intuition (subst; lia). }
  assert (H2 : subdivide ex_square ex_quad =
                 Some (final_verts ex_square ex_quad, new_faces 4 ex_quad)) by reflexivity.
  split; [exact H1|split; [exact H2|]].
  exact (subdivide_indices_in_range ex_square ex_quad _ _ H1 H2).
Defined.

Lemma subdivide_unreferenced_vertex_witness :
  subdivide ex_loose ex_quad = Some (final_verts ex_loose ex_quad, new_faces 5 ex_quad) /\
  (4 < List.length ex_loose)%nat /\
  (forall f i, In f ex_quad -> In i (face_list f) ->
     norm_index (List.length ex_loose) i <> Some 4%nat) /\
  nth 4 (final_verts ex_loose ex_quad) vzero = vscale_r (V3 (q 5) (q 5) (q 5)) (q (2 # 5)).
Proof.
  assert (H1 : subdivide ex_loose ex_quad =
                 Some (final_verts ex_loose ex_quad, new_faces 5 ex_quad)) by reflexivity.
  assert (H2 : (4 < List.length ex_loose)%nat) by (simpl; lia).
  assert (H3 : forall f i, In f ex_quad -> In i (face_list f) ->
                 norm_index (List.length ex_loose) i <> Some 4%nat).
  { intros f i [<-|[]] Hi. simpl in Hi.
    intuition (subst; vm_compute; discriminate). }
  split; [exact H1|split; [exact H2|split; [exact H3|]]].
  exact (subdivide_unreferenced_vertex ex_loose ex_quad _ _ 4 H1 H2 H3).
Defined.
End Subdivide.

(* ------------------------------------------------------------------ *)
(** ** [load_obj] ([obj_loader.py])

    The file is given as its lines, each with its line end, as iterating
    over a text file yields them; the text is ASCII. Python's [float] and
    [int] conversions are parameters: [None] is the [ValueError] they
    raise. Any exception ends [load_obj]: the result is [None]. The
    vertex coordinates are kept exact: the rounding of
    [np.array(vertices, dtype=np.float32)] is left out. *)

Module ObjLoad.
Local Open Scope string_scope.
Local Open Scope list_scope.

(** The characters [str.split()] and [str.strip()] treat as white space,
    restricted to ASCII. *)
Definition is_ws (c : ascii) : bool :=
  let n := nat_of_ascii c in
  (Nat.leb 9 n && Nat.leb n 13) || Nat.eqb n 32 || (Nat.leb 28 n && Nat.leb n 31).

(** [str.split()]: the maximal runs of non-white characters. [cur] is the
    word being read, reversed. *)
Fixpoint words_acc (s : string) (cur : list ascii) : list string :=
  match s with
  | EmptyString =>
      match cur with [] => [] | _ => [string_of_list_ascii (rev cur)] end
  | String c r =>
      if is_ws c then
        match cur with
        | [] => words_acc r []
        | _ => string_of_list_ascii (rev cur) :: words_acc r []
        end
      else words_acc r (c :: cur)
  end.

Definition words (s : string) : list string := words_acc s [].

Section Loader.
Variable parse_float : string -> option Qc.
Variable parse_int : string -> option Z.

Record obj_state := ObjState {
  o_vertices : list vec3;
  o_faces : list (list Z);
  o_groups : list string;
  o_group : string
}.

(** [int(p.split('/')[0]) - 1] *)
Definition face_index (p : string) : option Z :=
  match parse_int (hd "" (TargetFiles.split_on "/"%char p)) with
  | Some i => Some (i - 1)%Z
  | None => None
  end.

Fixpoint map_opt {A B} (f : A -> option B) (l : list A) : option (list B) :=
  match l with
  | [] => Some []
  | x :: r => match f x, map_opt f r with Some y, Some ys => Some (y :: ys) | _, _ => None end
  end.

(** One line of the loop. *)
Definition obj_line (st : obj_state) (line : string) : option obj_state :=
  if String.prefix "v " line then
    match words line with
    | _ :: a :: b :: c :: _ =>
        match parse_float a, parse_float b, parse_float c with
        | Some x, Some y, Some z =>
            Some (ObjState (o_vertices st ++ [V3 x y z]) (o_faces st) (o_groups st) (o_group st))
        | _, _, _ => None
        end
    | _ => None
    end
  else if String.prefix "g " line then
    match words line with
    | _ :: nm :: _ => Some (ObjState (o_vertices st) (o_faces st) (o_groups st) nm)
    | _ => Some (ObjState (o_vertices st) (o_faces st) (o_groups st) "default")
    end
  else if String.prefix "f " line then
    match map_opt face_index (tl (words line)) with
    | Some idx =>
        Some (ObjState (o_vertices st) (o_faces st ++ [idx]) (o_groups st ++ [o_group st])
                       (o_group st))
    | None => None
    end
  else Some st.

(** [load_obj]: vertices, faces and face groups of the [Mesh]. *)
Definition load_obj (lines : list string) : option (list vec3 * list (list Z) * list string) :=
  match fold_opt obj_line lines (ObjState [] [] [] "default") with
  | Some st => Some (o_vertices st, o_faces st, o_groups st)
  | None => None
  end.


Definition count_pre (p : string) (lines : list string) : nat :=
  List.length (filter (String.prefix p) lines).

(** The group a ["g "] line selects. *)
Definition group_name (gl : string) : string :=
  match words gl with _ :: nm :: _ => nm | _ => "default" end.

Lemma fold_opt_app {A B} (f : A -> B -> option A) l1 l2 a :
  fold_opt f (l1 ++ l2) a = match fold_opt f l1 a with Some a' => fold_opt f l2 a' | None => None end.
Proof.
  revert a. induction l1 as [|x l1 IH]; intros a; simpl; [reflexivity|].
  destruct (f a x); [apply IH|reflexivity].
Qed.

Lemma prefix_head (c : ascii) (s l : string) :
  String.prefix (String c s) l = true -> exists r, l = String c r.
Proof.
  destruct l as [|c' r]; simpl; [discriminate|].
  destruct (ascii_dec c c'); [subst; eexists; reflexivity|discriminate].
Qed.

Ltac prefix_clash :=
  repeat match goal with
  | H : String.prefix (String ?c _) ?l = true |- _ =>
      let r := fresh "r" in destruct (prefix_head _ _ _ H) as [r ->]; clear H
  end; simpl; reflexivity.

Lemma obj_fold_spec lines : forall st st',
  fold_opt obj_line lines st = Some st' ->
  List.length (o_vertices st') = (List.length (o_vertices st) + count_pre "v " lines)%nat /\
  List.length (o_faces st') = (List.length (o_faces st) + count_pre "f " lines)%nat /\
  List.length (o_groups st') = (List.length (o_groups st) + count_pre "f " lines)%nat /\
  (count_pre "g " lines = 0%nat ->
     o_group st' = o_group st /\
     o_groups st' = o_groups st ++ repeat (o_group st) (count_pre "f " lines)).
Proof.
  unfold count_pre. induction lines as [|l lines IH]; intros st st' H; simpl in H.
  - injection H as <-. simpl. rewrite !Nat.add_0_r, app_nil_r. repeat split; reflexivity.
  - destruct (obj_line st l) as [st1|] eqn:El; [|discriminate].
    destruct (IH _ _ H) as (A1 & A2 & A3 & A4).
    unfold obj_line in El. simpl.
    destruct (String.prefix "v " l) eqn:Ev.
    + assert (Hf : String.prefix "f " l = false) by prefix_clash.
      assert (Hg : String.prefix "g " l = false) by prefix_clash.
      rewrite Hf, Hg.
      destruct (words l) as [|? [|a [|b [|c ?]]]]; try discriminate.
      destruct (parse_float a), (parse_float b), (parse_float c); try discriminate.
      injection El as <-. simpl in *. rewrite length_app in A1. simpl in A1.
      split; [lia|split; [lia|split; [lia|]]]. exact A4.
    + destruct (String.prefix "g " l) eqn:Eg.
      * assert (Hf : String.prefix "f " l = false) by prefix_clash.
        rewrite Hf. simpl.
        assert (E : o_vertices st1 = o_vertices st /\ o_faces st1 = o_faces st /\
                    o_groups st1 = o_groups st)
          by (destruct (words l) as [|? [|? ?]]; injection El as <-; repeat split).
        destruct E as (E1 & E2 & E3). rewrite E1, E2, E3 in *.
        split; [lia|split; [lia|split; [lia|]]]. discriminate.
      * destruct (String.prefix "f " l) eqn:Ef.
        -- destruct (map_opt face_index (tl (words l))); [|discriminate].
           injection El as <-. simpl in *. rewrite length_app in A2, A3. simpl in A2, A3.
           split; [lia|split; [lia|split; [lia|]]]. intros Hc. destruct (A4 Hc) as [G1 G2].
           split; [exact G1|]. rewrite G2, <- app_assoc. reflexivity.
        -- injection El as <-. split; [exact A1|split; [exact A2|split; [exact A3|exact A4]]].
Qed.

(** Whether a line makes the loop raise does not depend on the lines
    before it. *)
Lemma obj_line_none st st' l : obj_line st l = None -> obj_line st' l = None.
Proof.
  unfold obj_line.
  destruct (String.prefix "v " l).
  - destruct (words l) as [|? [|a [|b [|c ?]]]]; try reflexivity.
    destruct (parse_float a), (parse_float b), (parse_float c); easy.
  - destruct (String.prefix "g " l).
    + destruct (words l) as [|? [|? ?]]; discriminate.
    + destruct (String.prefix "f " l); [|discriminate].
      destruct (map_opt face_index (tl (words l))); easy.
Qed.

Definition obj_init : obj_state := ObjState [] [] [] "default".

(** [load_obj] returns one vertex per ["v "] line and one face per ["f "]
    line, with one group name per face; without a ["g "] line every face is
    in the group "default". It raises exactly when some line raises on its
    own. *)
Theorem load_obj_counts (lines : list string) :
  (load_obj lines = None <-> exists l, In l lines /\ obj_line obj_init l = None) /\
  (forall v f g, load_obj lines = Some (v, f, g) ->
     List.length v = count_pre "v " lines /\ List.length f = count_pre "f " lines /\
     List.length g = List.length f /\
     (count_pre "g " lines = 0%nat -> g = repeat "default" (List.length f))).
Proof.
  split.
  - unfold load_obj. change (ObjState [] [] [] "default") with obj_init.
    generalize obj_init as st. induction lines as [|l lines IH]; intros st; simpl.
    + split; [discriminate|]. intros (l & [] & _).
    + destruct (obj_line st l) as [st1|] eqn:E.
      * rewrite IH. split.
        -- intros (l' & Hl' & Hn). exists l'.
           split; [right; exact Hl'|exact (obj_line_none st1 st l' Hn)].
        -- intros (l' & [<-|Hl'] & Hn).
           ++ congruence.
           ++ exists l'. split; [assumption|exact (obj_line_none st st1 l' Hn)].
      * split; [intros _|reflexivity]. exists l. split; [left; reflexivity|].
        apply (obj_line_none st). exact E.
  - intros v f g H. unfold load_obj in H.
    destruct (fold_opt obj_line lines (ObjState [] [] [] "default")) as [st|] eqn:E;
      [|discriminate].
    injection H as <- <- <-.
    destruct (obj_fold_spec _ _ _ E) as (A1 & A2 & A3 & A4). simpl in *.
    split; [exact A1|split; [exact A2|split; [lia|]]].
    intros Hc. destruct (A4 Hc) as [_ G]. rewrite G, A2. reflexivity.
Qed.

(** After a ["g "] line and up to the next one, every face gets the group
    that line names, or "default" when the line names none; the faces of
    the lines before keep the groups [load_obj] gives them on those lines
    alone. *)
Theorem load_obj_group_after (pre : list string) (gl : string) (post : list string) v f g
    (Hg : String.prefix "g " gl = true)
    (Hpost : count_pre "g " post = 0%nat)
    (Hload : load_obj (pre ++ gl :: post) = Some (v, f, g)) :
  exists vpre fpre gpre,
    load_obj pre = Some (vpre, fpre, gpre) /\
    g = gpre ++ repeat (group_name gl) (count_pre "f " post) /\
    List.length gpre = count_pre "f " pre.
Proof.
  unfold load_obj in Hload. rewrite fold_opt_app in Hload.
  destruct (fold_opt obj_line pre (ObjState [] [] [] "default")) as [st0|] eqn:E0;
    [|discriminate].
  simpl in Hload. unfold obj_line at 1 in Hload.
  assert (Hv : String.prefix "v " gl = false) by prefix_clash.
  rewrite Hv, Hg in Hload.
  set (st1 := ObjState (o_vertices st0) (o_faces st0) (o_groups st0) (group_name gl)).
  replace (match words gl with
           | _ :: nm :: _ => Some (ObjState (o_vertices st0) (o_faces st0) (o_groups st0) nm)
           | _ => Some (ObjState (o_vertices st0) (o_faces st0) (o_groups st0) "default")
           end) with (Some st1) in Hload
    by (unfold st1, group_name; destruct (words gl) as [|? [|? ?]]; reflexivity).
  destruct (fold_opt obj_line post st1) as [st2|] eqn:E2; [|discriminate].
  injection Hload as <- <- <-.
  destruct (obj_fold_spec _ _ _ E0) as (_ & _ & B3 & _).
  destruct (obj_fold_spec _ _ _ E2) as (_ & _ & _ & A4).
  destruct (A4 Hpost) as [_ G]. simpl in G, B3.
  exists (o_vertices st0), (o_faces st0), (o_groups st0).
  split; [unfold load_obj; rewrite E0; reflexivity|].
  split; [exact G|exact B3].
Qed.
End Loader.

(** Decimal integer literals, as accepted by [int] and [float]. *)
Fixpoint digits_val (s : string) (acc : Z) : option Z :=
  match s with
  | EmptyString => Some acc
  | String c s' =>
      let n := nat_of_ascii c in
      if (Nat.leb 48 n && Nat.leb n 57)%bool
      then digits_val s' (10 * acc + Z.of_nat (n - 48))%Z else None
  end.

Definition ex_int (s : string) : option Z :=
  match s with
  | EmptyString => None
  | String "-" EmptyString => None
  | String "-" s' => option_map Z.opp (digits_val s' 0%Z)
  | _ => digits_val s 0%Z
  end.

Definition ex_float (s : string) : option Qc :=
  option_map (fun z => Q2Qc (inject_Z z)) (ex_int s).

Definition ex_obj_pre : list string :=
  ["# cube"; "v 0 0 0"; "v 1 0 0"; "v 1 1 0"; "f 1/1 2//2 3"].
Definition ex_obj_post : list string := ["f 3 2 1"; "v 0 1 0"; "f 1/2/3 2 3 4"].

Lemma load_obj_counts_witness :
  (forall v f g, load_obj ex_float ex_int ex_obj_pre = Some (v, f, g) ->
     List.length v = 3%nat /\ List.length f = 1%nat /\ List.length g = List.length f /\
     g = repeat "default" (List.length f)) /\
  load_obj ex_float ex_int ["v 1 2"] = None /\
  (exists l, In l ["v 1 2"] /\ obj_line ex_float ex_int obj_init l = None).
Proof.
  split.
  { intros v f g Hl.
    destruct (proj2 (load_obj_counts ex_float ex_int ex_obj_pre) v f g Hl)
      as (A & B & C & D).
    split; [exact A|split; [exact B|split; [exact C|exact (D eq_refl)]]]. }
  pose proof (load_obj_counts ex_float ex_int ["v 1 2"]) as [H _].
  split; [vm_compute; reflexivity|].
  apply H. vm_compute. reflexivity.
Defined.

Lemma load_obj_group_after_witness :
  String.prefix "g " "g arm" = true /\ count_pre "g " ex_obj_post = 0%nat /\
  exists v f g,
    load_obj ex_float ex_int (ex_obj_pre ++ "g arm" :: ex_obj_post) = Some (v, f, g) /\
    exists vpre fpre gpre,
      load_obj ex_float ex_int ex_obj_pre = Some (vpre, fpre, gpre) /\
      g = gpre ++ repeat "arm" 2 /\ List.length gpre = 1%nat.
Proof.
  split; [reflexivity|split; [reflexivity|]].
  exists [V3 0 0 0; V3 1 0 0; V3 1 1 0; V3 0 1 0],
         [[0%Z; 1%Z; 2%Z]; [2%Z; 1%Z; 0%Z]; [0%Z; 1%Z; 2%Z; 3%Z]],
         ["default"; "arm"; "arm"].
  assert (H : load_obj ex_float ex_int (ex_obj_pre ++ "g arm" :: ex_obj_post) =
              Some ([V3 0 0 0; V3 1 0 0; V3 1 1 0; V3 0 1 0],
                    [[0%Z; 1%Z; 2%Z]; [2%Z; 1%Z; 0%Z]; [0%Z; 1%Z; 2%Z; 3%Z]],
                    ["default"; "arm"; "arm"])) by (vm_compute; reflexivity).
  split; [exact H|].
  exact (load_obj_group_after ex_float ex_int ex_obj_pre "g arm" ex_obj_post _ _ _
           eq_refl eq_refl H).
Defined.
End ObjLoad.

(* ------------------------------------------------------------------ *)
(** ** [VertexBoneWeights._calculate_num_weights] (mh_skeleton.py)

    The counts are [np.uint32]: [N] with the wrap-around at [2^32]. *)

Module NumWeights.
Local Open Scope list_scope.

(** [self._wCounts[vs] += 1]: an index out of range raises [IndexError];
    a vertex listed twice is counted once, as numpy's buffered
    fancy-index update does. *)
Definition count_bone (wc : list N) (vs : list nat) : option (list N) :=
  if forallb (fun v => Nat.ltb v (List.length wc)) vs
  then Some (map (fun '(i, c) => if existsb (Nat.eqb i) vs then ((c + 1) mod 2 ^ 32)%N else c)
                 (combine (seq 0 (List.length wc)) wc))
  else None.

(** [max(self._wCounts) if len(self._wCounts) > 0 else 0] *)
Definition max_count (wc : list N) : N :=
  match wc with
  | [] => 0%N
  | c :: r => fold_left N.max r c
  end.

Definition calculate_num_weights (vertexCount : nat) (wd : weights_data)
    : option (list N * N) :=
  match fold_opt (fun wc '(_, (vs, _)) => count_bone wc vs) wd (repeat 0%N vertexCount) with
  | Some wc => Some (wc, max_count wc)
  | None => None
  end.

(** [VertexBoneWeights.__init__] on raw JSON weights: the data built, then
    [_wCounts] and [_nWeights] over [self._vertexCount]. *)
Definition vbw_init (raw : raw_weights) (vertexCount : option nat) (rootBone : string)
    : option (weights_data * list N * N) :=
  match build_vertex_weights_data raw vertexCount rootBone with
  | None => None
  | Some wd =>
      match calculate_num_weights (vertex_count vertexCount raw) wd with
      | Some (wc, n) => Some (wd, wc, n)
      | None => None
      end
  end.

(** The number of bone entries that list vertex [p]. *)
Definition bones_with (wd : weights_data) (p : nat) : nat :=
  List.length (filter (fun '(_, (vs, _)) => existsb (Nat.eqb p) vs) wd).

Lemma count_bone_spec wc vs :
  (forall v, In v vs -> (v < List.length wc)%nat) ->
  exists wc', count_bone wc vs = Some wc' /\ List.length wc' = List.length wc /\
    forall p, (p < List.length wc)%nat ->
      nth p wc' 0%N = if existsb (Nat.eqb p) vs then ((nth p wc 0%N + 1) mod 2 ^ 32)%N
                      else nth p wc 0%N.
Proof.
  intros Hv. unfold count_bone.
  replace (forallb _ vs) with true
    by (symmetry; apply forallb_forall; intros v Hin; apply Nat.ltb_lt, Hv, Hin).
  eexists; split; [reflexivity|]. split.
  - rewrite length_map, length_combine, length_seq. lia.
  - intros p Hp.
    set (f := fun '(i, c) => if existsb (Nat.eqb i) vs then ((c + 1) mod 2 ^ 32)%N else c).
    rewrite (nth_indep _ _ (f (p, 0%N)))
      by (rewrite length_map, length_combine, length_seq; lia).
    rewrite map_nth, combine_nth by (rewrite length_seq; reflexivity).
    rewrite seq_nth by exact Hp. reflexivity.
Qed.

Definition indices_below (n : nat) (wd : weights_data) : Prop :=
  forall bn vs ws, In (bn, (vs, ws)) wd -> forall v, In v vs -> (v < n)%nat.

Lemma counts_fold wd : forall wc0,
  indices_below (List.length wc0) wd ->
  (forall p, (p < List.length wc0)%nat -> (nth p wc0 0 + N.of_nat (List.length wd) < 2 ^ 32)%N) ->
  exists wc, fold_opt (fun wc '(_, (vs, _)) => count_bone wc vs) wd wc0 = Some wc /\
    List.length wc = List.length wc0 /\
    forall p, (p < List.length wc0)%nat -> nth p wc 0%N = (nth p wc0 0 + N.of_nat (bones_with wd p))%N.
Proof.
  induction wd as [|[bn [vs ws]] wd IH]; intros wc0 Hi Hb; simpl.
  - exists wc0. split; [reflexivity|split; [reflexivity|intros p _; lia]].
  - destruct (count_bone_spec wc0 vs) as (wc1 & E1 & L1 & N1).
    { intros v Hv. eapply Hi; [left; reflexivity|exact Hv]. }
    rewrite E1.
    destruct (IH wc1) as (wc & E & L & Nw).
    + intros bn' vs' ws' Hin v Hv. rewrite L1. eapply Hi; [right; exact Hin|exact Hv].
    + intros p Hp. rewrite L1 in Hp. rewrite N1 by exact Hp.
      specialize (Hb p Hp). simpl in Hb.
      destruct (existsb (Nat.eqb p) vs).
      * rewrite N.mod_small by lia. lia.
      * lia.
    + exists wc. split; [exact E|split; [lia|]].
      intros p Hp. rewrite Nw by lia. rewrite N1 by exact Hp.
      specialize (Hb p Hp). simpl in Hb. unfold bones_with. simpl.
      destruct (existsb (Nat.eqb p) vs); simpl.
      * rewrite N.mod_small by lia. lia.
      * fold (bones_with wd p). lia.
Qed.

Lemma max_count_spec wc :
  (forall x, In x wc -> (x <= max_count wc)%N) /\ (wc <> [] -> In (max_count wc) wc).
Proof.
  destruct wc as [|c r]; simpl; [split; [tauto|congruence]|].
  enough (G : forall m, (forall x, In x (m :: r) -> (x <= fold_left N.max r m)%N) /\
                        (m = fold_left N.max r m \/ In (fold_left N.max r m) r)).
  { destruct (G c) as [A B]. split; [exact A|intros _; destruct B as [B|B]; [left; exact B|right; exact B]]. }
  induction r as [|y r IH]; intros m; simpl.
  - split; [intros x [<-|[]]; lia|left; reflexivity].
  - destruct (IH (N.max m y)) as [A B]. split.
    + intros x [<-|[<-|Hx]].
      * specialize (A _ (or_introl eq_refl)). lia.
      * specialize (A _ (or_introl eq_refl)). lia.
      * apply A. right; exact Hx.
    + destruct B as [B|B]; [|right; right; exact B].
      rewrite <- B. destruct (N.max_spec m y) as [[_ ->]|[_ ->]]; [right; left; reflexivity|left; reflexivity].
Qed.

Lemma add_totals_below vg wtot wtot' :
  fold_opt add_total vg wtot = Some wtot' -> forall vn w, In (vn, w) vg -> (vn < List.length wtot)%nat.
Proof.
  revert wtot; induction vg as [|[vn0 w0] vg IH]; intros wtot; cbn [fold_opt]; [intros _ _ _ []|].
  unfold add_total at 1. destruct (Nat.ltb vn0 (List.length wtot)) eqn:E; [|discriminate].
  intros H vn w [Hx|Hx].
  - injection Hx as <- <-. apply Nat.ltb_lt, E.
  - pose proof (IH _ H vn w Hx) as G. rewrite length_list_set in G. exact G.
Qed.

Lemma weight_totals_below vcount raw wtot :
  weight_totals vcount raw = Some wtot ->
  forall bn vg, In (bn, vg) raw -> forall vn w, In (vn, w) vg -> (vn < vcount)%nat.
Proof.
  unfold weight_totals. intros H.
  enough (G : forall w0 wtot, fold_opt (fun wtot '(_, vg) => fold_opt add_total vg wtot) raw w0
                = Some wtot ->
              forall bn vg, In (bn, vg) raw -> forall vn w, In (vn, w) vg ->
              (vn < List.length w0)%nat).
  { intros bn vg Hin vn w Hw. rewrite <- (repeat_length 0 vcount). exact (G _ _ H bn vg Hin vn w Hw). }
  clear H wtot. induction raw as [|[bn0 vg0] raw IH]; intros w0 wtot; simpl; [intros _ _ _ []|].
  destruct (fold_opt add_total vg0 w0) as [w1|] eqn:E; [|discriminate].
  intros H bn vg [Hx|Hx].
  - injection Hx as <- <-. exact (add_totals_below _ _ _ E).
  - destruct (add_totals_spec _ _ _ E) as [L _]. rewrite <- L. exact (IH _ _ H bn vg Hx).
Qed.

Lemma normalise_group_keys wtot vg v :
  In v (map fst (normalise_group wtot vg)) -> In v (map fst vg).
Proof.
  unfold normalise_group.
  enough (G : forall d, In v (map fst (fold_left (fun d '(vn, w) => lookup_add vn (w / nth vn wtot 0) d) vg d)) ->
              In v (map fst d) \/ In v (map fst vg)).
  { intros H. destruct (G [] H) as [[]|H']; exact H'. }
  induction vg as [|[vn w] vg IH]; intros d H; simpl in *; [left; exact H|].
  destruct (IH _ H) as [H1|H1]; [|right; right; exact H1].
  clear IH H. induction d as [|[k y] d IHd]; simpl in *.
  - destruct H1 as [H1|[]]. right; left; exact H1.
  - destruct (Nat.eqb k vn); simpl in H1.
    + left. exact H1.
    + destruct H1 as [H1|H1]; [left; left; exact H1|].
      destruct (IHd H1) as [H2|H2]; [left; right; exact H2|right; exact H2].
Qed.

Lemma bone_weights_of_keys wtot vg v :
  In v (fst (bone_weights_of wtot vg)) -> In v (map fst vg).
Proof.
  unfold bone_weights_of. simpl. intros H. apply normalise_group_keys with (wtot := wtot).
  rewrite in_map_iff in H |- *. destruct H as [x [Hx Hin]]. exists x. split; [exact Hx|].
  apply filter_In in Hin. destruct Hin as [Hin _].
  exact (Permutation_in _ (sort_pairs_perm _) Hin).
Qed.

Lemma dict_set_In' {V} k (v : V) d x : In x (dict_set k v d) -> x = (k, v) \/ In x d.
Proof.
  induction d as [|[k' v'] d IH]; simpl; [intros [H|[]]; left; symmetry; exact H|].
  destruct (String.eqb k k'); simpl; intros [H|H].
  - left; symmetry; exact H.
  - right; right; exact H.
  - right; left; exact H.
  - destruct (IH H) as [H'|H']; [left; exact H'|right; right; exact H'].
Qed.

Lemma build_indices_below raw vc root wd :
  build_vertex_weights_data raw vc root = Some wd ->
  indices_below (vertex_count vc raw) wd.
Proof.
  unfold build_vertex_weights_data.
  set (vcount := vertex_count vc raw).
  destruct (weight_totals vcount raw) as [wtot|] eqn:Ew; [|discriminate].
  pose proof (weight_totals_below _ _ _ Ew) as Hr.
  destruct (weight_totals_spec _ _ _ Ew) as [Lw _].
  match goal with |- context [fold_left ?f raw []] => set (bw := fold_left f raw []) end.
  assert (Hbw : indices_below vcount bw).
  { unfold bw. assert (G : forall acc, indices_below vcount acc ->
       forall l, incl l raw -> indices_below vcount
         (fold_left (fun bw '(bname, vg) => match vg with
                                            | [] => bw
                                            | _ :: _ => dict_set bname (bone_weights_of wtot vg) bw
                                            end) l acc)).
    { intros acc Hacc l. revert acc Hacc. induction l as [|[bn vg] l IH]; intros acc Hacc Hl; simpl;
        [exact Hacc|].
      apply IH; [|intros y Hy; apply Hl; right; exact Hy].
      destruct vg as [|x vg]; [exact Hacc|].
      intros bn' vs ws Hin v Hv. destruct (dict_set_In' _ _ _ _ Hin) as [He|He].
      - injection He as -> Hvs _. rewrite Hvs in Hv.
        apply (bone_weights_of_keys wtot), in_map_iff in Hv. destruct Hv as [[vn w] [<- Hin']].
        exact (Hr bn (x :: vg) (Hl _ (or_introl eq_refl)) vn w Hin').
      - exact (Hacc _ _ _ He v Hv). }
    apply G; [intros ? ? ? []|intros y Hy; exact Hy]. }
  clearbody bw.
  destruct (match dict_find root bw with Some e => e | None => ([], []) end) as [vs ws] eqn:Ee.
  assert (Hvs : forall v, In v vs -> (v < vcount)%nat).
  { destruct (dict_find root bw) as [e|] eqn:Ef.
    - subst e. intros v Hv. exact (Hbw _ _ _ (dict_find_In _ _ _ Ef) v Hv).
    - injection Ee as <- _. intros v []. }
  assert (Hz : forall v, In v (vs ++ zero_total_indices wtot) -> (v < vcount)%nat).
  { intros v Hv. apply in_app_iff in Hv. destruct Hv as [Hv|Hv]; [exact (Hvs v Hv)|].
    unfold zero_total_indices in Hv. apply filter_In in Hv. destruct Hv as [Hv _].
    apply in_seq in Hv. lia. }
  cbv beta iota zeta.
  destruct (vs ++ zero_total_indices wtot) as [|v0 r] eqn:Evs.
  - intros H. injection H as <-. exact Hbw.
  - intros H. injection H as <-. intros bn vs' ws' Hin v Hv.
    destruct (dict_set_In' _ _ _ _ Hin) as [He|He].
    + injection He as _ Hvs' _. subst vs'. exact (Hz v Hv).
    + exact (Hbw _ _ _ He v Hv).
Qed.

(** On weights built from raw JSON data, [_calculate_num_weights] never
    raises: [_wCounts[p]] is the number of bone entries that list vertex
    [p], and [_nWeights] is the largest of these numbers, [0] when there
    are no vertices. *)
Theorem vbw_init_num_weights (raw : raw_weights) (vc : option nat) (root : string) wd
    (Hb : build_vertex_weights_data raw vc root = Some wd)
    (Hn : (N.of_nat (List.length wd) < 2 ^ 32)%N) :
  exists wc n, vbw_init raw vc root = Some (wd, wc, n) /\
    List.length wc = vertex_count vc raw /\
    (forall p, (p < vertex_count vc raw)%nat -> nth p wc 0%N = N.of_nat (bones_with wd p)) /\
    (forall p, (p < vertex_count vc raw)%nat -> (N.of_nat (bones_with wd p) <= n)%N) /\
    (vertex_count vc raw = O -> n = 0%N) /\
    ((0 < vertex_count vc raw)%nat ->
       exists p, (p < vertex_count vc raw)%nat /\ n = N.of_nat (bones_with wd p)).
Proof.
  pose proof (build_indices_below _ _ _ _ Hb) as Hi.
  set (vcount := vertex_count vc raw) in *.
  destruct (counts_fold wd (repeat 0%N vcount)) as (wc & E & L & Nw).
  - rewrite repeat_length. exact Hi.
  - intros p Hp. rewrite repeat_length in Hp. rewrite nth_repeat_lt by exact Hp. lia.
  - rewrite repeat_length in L, Nw.
    assert (Nw' : forall p, (p < vcount)%nat -> nth p wc 0%N = N.of_nat (bones_with wd p)).
    { intros p Hp. rewrite Nw by exact Hp. rewrite nth_repeat_lt by exact Hp. lia. }
    exists wc, (max_count wc). unfold vbw_init, calculate_num_weights. fold vcount.
    rewrite Hb, E. destruct (max_count_spec wc) as [M1 M2].
    split; [reflexivity|split; [exact L|split; [exact Nw'|split; [|split]]]].
    + intros p Hp. rewrite <- Nw' by exact Hp. apply M1, nth_In. lia.
    + intros H0. destruct wc; [reflexivity|simpl in L; lia].
    + intros Hp. assert (Hne : wc <> []) by (intros ->; simpl in L; lia).
      destruct (In_nth _ _ 0%N (M2 Hne)) as (p & Hp' & Hx).
      exists p. split; [lia|]. rewrite <- Hx. apply Nw'. lia.
Qed.

Definition ex_raw : raw_weights :=
  [("root", [(0%nat, q (1#2)); (1%nat, 1)]); ("arm", [(0%nat, q (1#2))])].

Definition ex_wd : weights_data :=
  Eval vm_compute in
    match build_vertex_weights_data ex_raw None "root" with Some wd => wd | None => [] end.

Lemma vbw_init_num_weights_witness :
  build_vertex_weights_data ex_raw None "root" = Some ex_wd /\
  (N.of_nat (List.length ex_wd) < 2 ^ 32)%N /\
  exists wc n, vbw_init ex_raw None "root" = Some (ex_wd, wc, n) /\ n = 2%N.
Proof.
  assert (Hb : build_vertex_weights_data ex_raw None "root" = Some ex_wd)
    by (vm_compute; reflexivity).
  assert (Hn : (N.of_nat (List.length ex_wd) < 2 ^ 32)%N) by (vm_compute; reflexivity).
  split; [exact Hb|split; [exact Hn|]].
  destruct (vbw_init_num_weights ex_raw None "root" ex_wd Hb Hn) as (wc & n & E & _).
  exists wc, n. split; [exact E|].
  assert (E' : vbw_init ex_raw None "root" = Some (ex_wd, [2%N; 1%N], 2%N))
    by (vm_compute; reflexivity).
  rewrite E' in E. injection E as _ <-. reflexivity.
Defined.
End NumWeights.

(* ------------------------------------------------------------------ *)
(** ** [TargetParser.load_target_data] ([mh_parser.py])

    The entry is reduced to its ['data'] field; the file to its lines, or
    [None] when opening or reading it raises (the error is printed and
    [None] returned). [int] and [float] are parameters as in [load_obj]. The
    deltas are kept exact: the [float32] rounding is left out.
    [np.array(indices, dtype=np.int32)] is as numpy 2 has it: an index
    outside the [int32] range raises [OverflowError], outside the [try]. *)

Module TargetData.
Local Open Scope list_scope.

(** [str.strip()], with the white space of [str.split()]. *)
Fixpoint lstrip (s : string) : string :=
  match s with
  | String c r => if ObjLoad.is_ws c then lstrip r else s
  | EmptyString => EmptyString
  end.

Definition rstrip (s : string) : string :=
  string_of_list_ascii (rev (list_ascii_of_string (lstrip (string_of_list_ascii
    (rev (list_ascii_of_string s)))))).

Definition strip (s : string) : string := rstrip (lstrip s).

Definition tdata := (list Z * list vec3)%type.

Inductive load_result :=
| LReturn (r : option tdata)
| LOverflow.

Definition in_int32 (i : Z) : bool := (- 2 ^ 31 <=? i)%Z && (i <? 2 ^ 31)%Z.

Section Load.
Variable parse_float : string -> option Qc.
Variable parse_int : string -> option Z.

(** One line of the loop over the file. *)
Definition target_line (acc : list Z * list vec3) (line0 : string) : list Z * list vec3 :=
  let '(indices, deltas) := acc in
  let line := strip line0 in
  if String.eqb line "" || String.prefix "#" line then acc
  else
    match ObjLoad.words line with
    | [p0; p1; p2; p3] =>
        match parse_int p0, parse_float p1, parse_float p2, parse_float p3 with
        | Some idx, Some dx, Some dy, Some dz =>
            (indices ++ [idx], deltas ++ [V3 dx dy dz])
        | _, _, _, _ => acc
        end
    | _ => acc
    end.

(** [load_target_data]: the value returned, and the entry's ['data']
    afterwards. *)
Definition load_target_data (data : option tdata) (file : option (list string))
    : load_result * option tdata :=
  match data with
  | Some d => (LReturn (Some d), data)
  | None =>
      match file with
      | None => (LReturn None, data)
      | Some lines =>
          let '(indices, deltas) := fold_left target_line lines ([], []) in
          match indices with
          | [] => (LReturn None, data)
          | _ :: _ =>
              if forallb in_int32 indices
              then (LReturn (Some (indices, deltas)), Some (indices, deltas))
              else (LOverflow, data)
          end
      end
  end.

(** The entry a single line yields, read line by line. *)
Definition line_entry (line : string) : option (Z * vec3) :=
  match ObjLoad.words line with
  | [p0; p1; p2; p3] =>
      if String.prefix "#" p0 then None
      else
        match parse_int p0, parse_float p1, parse_float p2, parse_float p3 with
        | Some idx, Some dx, Some dy, Some dz => Some (idx, V3 dx dy dz)
        | _, _, _, _ => None
        end
  | _ => None
  end.

Fixpoint lstrip_l (l : list ascii) : list ascii :=
  match l with
  | c :: r => if ObjLoad.is_ws c then lstrip_l r else l
  | [] => []
  end.

Lemma lstrip_l_eq s : list_ascii_of_string (lstrip s) = lstrip_l (list_ascii_of_string s).
Proof. induction s as [|c s IH]; simpl; [reflexivity|]. destruct (ObjLoad.is_ws c); [exact IH|reflexivity]. Qed.

Definition ws_only (l : list ascii) : Prop := Forall (fun c => ObjLoad.is_ws c = true) l.

Definition head_ok (l : list ascii) : Prop :=
  match l with [] => True | c :: _ => ObjLoad.is_ws c = false end.

Lemma lstrip_l_spec l : exists pre, l = pre ++ lstrip_l l /\ ws_only pre /\ head_ok (lstrip_l l).
Proof.
  induction l as [|c l IH]; simpl.
  - exists []. split; [reflexivity|split; [constructor|exact I]].
  - destruct (ObjLoad.is_ws c) eqn:E.
    + destruct IH as (pre & H1 & H2 & H3). exists (c :: pre).
      split; [simpl; f_equal; exact H1|split; [constructor; assumption|exact H3]].
    + exists []. split; [reflexivity|split; [constructor|exact E]].
Qed.

Lemma strip_spec s : exists pre suf,
  list_ascii_of_string s = pre ++ list_ascii_of_string (strip s) ++ suf /\
  ws_only pre /\ ws_only suf /\ head_ok (list_ascii_of_string (strip s)).
Proof.
  unfold strip, rstrip. rewrite list_ascii_of_string_of_list_ascii, lstrip_l_eq,
    list_ascii_of_string_of_list_ascii, lstrip_l_eq.
  destruct (lstrip_l_spec (list_ascii_of_string s)) as (pre & H1 & H2 & H3).
  set (L1 := lstrip_l (list_ascii_of_string s)) in *.
  destruct (lstrip_l_spec (rev L1)) as (pre2 & G1 & G2 & G3).
  set (M := lstrip_l (rev L1)) in *.
  exists pre, (rev pre2). split; [|split; [exact H2|split]].
  - rewrite H1 at 1. f_equal. rewrite <- (rev_involutive L1) at 1. rewrite G1, rev_app_distr.
    reflexivity.
  - apply Forall_rev, G2.
  - assert (E : L1 = rev M ++ rev pre2)
      by (rewrite <- rev_app_distr, <- G1, rev_involutive; reflexivity).
    destruct (rev M) as [|c m]; [exact I|]. rewrite E in H3. exact H3.
Qed.

Lemma words_ws_prefix pre l cur :
  ws_only pre -> cur = [] ->
  ObjLoad.words_acc (string_of_list_ascii (pre ++ l)) cur =
  ObjLoad.words_acc (string_of_list_ascii l) cur.
Proof.
  intros H ->. induction H as [|c pre Hc _ IH]; [reflexivity|].
  simpl. rewrite Hc. exact IH.
Qed.

Lemma words_ws_only suf : ws_only suf -> ObjLoad.words_acc (string_of_list_ascii suf) [] = [].
Proof. induction 1 as [|c suf Hc _ IH]; [reflexivity|]. simpl. rewrite Hc. exact IH. Qed.

Lemma words_ws_suffix l suf cur :
  ws_only suf ->
  ObjLoad.words_acc (string_of_list_ascii (l ++ suf)) cur =
  ObjLoad.words_acc (string_of_list_ascii l) cur.
Proof.
  intros Hs. revert cur. induction l as [|c l IH]; intros cur; simpl.
  - destruct Hs as [|c suf Hc Hs']; [reflexivity|].
    simpl. rewrite Hc. destruct cur; rewrite (words_ws_only _ Hs'); reflexivity.
  - rewrite !IH. reflexivity.
Qed.

Lemma words_strip s : ObjLoad.words (strip s) = ObjLoad.words s.
Proof.
  destruct (strip_spec s) as (pre & suf & H & Hp & Hs & _). unfold ObjLoad.words.
  transitivity (ObjLoad.words_acc (string_of_list_ascii (pre ++ list_ascii_of_string (strip s) ++ suf)) []).
  - rewrite words_ws_prefix by auto. rewrite words_ws_suffix by exact Hs.
    rewrite string_of_list_ascii_of_string. reflexivity.
  - rewrite <- H, string_of_list_ascii_of_string. reflexivity.
Qed.

Lemma words_acc_head s x cur : exists w rest,
  ObjLoad.words_acc s (x :: cur) = string_of_list_ascii (rev (x :: cur) ++ w) :: rest.
Proof.
  revert x cur. induction s as [|c s IH]; intros x cur; simpl.
  - exists [], []. rewrite app_nil_r. reflexivity.
  - destruct (ObjLoad.is_ws c).
    + exists [], (ObjLoad.words_acc s []). rewrite app_nil_r. reflexivity.
    + destruct (IH c (x :: cur)) as (w & rest & E). rewrite E.
      exists (c :: w), rest. simpl. rewrite <- !app_assoc. reflexivity.
Qed.

Lemma words_strip_head l c r : strip l = String c r ->
  exists w rest, ObjLoad.words l = String c w :: rest.
Proof.
  intros E. destruct (strip_spec l) as (_ & _ & _ & _ & _ & Hh). rewrite E in Hh. simpl in Hh.
  rewrite <- words_strip, E. unfold ObjLoad.words. simpl. rewrite Hh.
  destruct (words_acc_head r c []) as (w & rest & E'). rewrite E'.
  exists (string_of_list_ascii w), rest. reflexivity.
Qed.

Lemma prefix_hash c x y : String.prefix "#" (String c x) = String.prefix "#" (String c y).
Proof.
  change (String.prefix "#" (String c x)) with
    (if ascii_dec "#" c then String.prefix "" x else false).
  change (String.prefix "#" (String c y)) with
    (if ascii_dec "#" c then String.prefix "" y else false).
  destruct (ascii_dec "#" c); [|reflexivity].
  destruct x, y; reflexivity.
Qed.

Lemma target_line_entry acc l :
  target_line acc l =
  match line_entry l with
  | Some (i, d) => (fst acc ++ [i], snd acc ++ [d])
  | None => acc
  end.
Proof.
  destruct acc as [indices deltas]. unfold target_line, line_entry.
  rewrite words_strip. destruct (strip l) as [|c r] eqn:E.
  - assert (W : ObjLoad.words l = []) by (rewrite <- words_strip, E; reflexivity).
    rewrite W. reflexivity.
  - destruct (words_strip_head _ _ _ E) as (w & rest & W). rewrite W.
    rewrite (prefix_hash c r w). simpl (String.eqb _ _).
    destruct (String.prefix "#" (String c w)); simpl; [destruct rest as [|? [|? [|? [|? ?]]]]; reflexivity|].
    destruct rest as [|p1 [|p2 [|p3 [|? ?]]]]; try reflexivity.
    destruct (parse_int (String c w)), (parse_float p1), (parse_float p2), (parse_float p3);
      reflexivity.
Qed.

Definition line_entries (lines : list string) : list (Z * vec3) :=
  flat_map (fun l => match line_entry l with Some e => [e] | None => [] end) lines.

Lemma fold_target_lines lines : forall acc,
  fold_left target_line lines acc =
  (fst acc ++ map fst (line_entries lines), snd acc ++ map snd (line_entries lines)).
Proof.
  induction lines as [|l lines IH]; intros [indices deltas]; cbn [fold_left].
  - simpl. rewrite !app_nil_r. reflexivity.
  - rewrite IH, target_line_entry. unfold line_entries at 2 3. simpl.
    destruct (line_entry l) as [[i d]|]; simpl; rewrite ?app_nil_r, <- ?app_assoc; reflexivity.
Qed.

(** Reading a target file from an entry with no data: every line counts on
    its own, and counts exactly when it has four white-space separated
    fields, the first not starting with ['#'], that [int] and [float]
    accept; every other line is skipped without error. With no such line
    the result is [None] and nothing is cached; an index outside [int32]
    raises; otherwise the indices and deltas, in file order, are returned
    and cached. *)
Theorem load_target_data_lines (lines : list string) :
  load_target_data None (Some lines) =
  match line_entries lines with
  | [] => (LReturn None, None)
  | _ :: _ =>
      if forallb in_int32 (map fst (line_entries lines))
      then (LReturn (Some (map fst (line_entries lines), map snd (line_entries lines))),
            Some (map fst (line_entries lines), map snd (line_entries lines)))
      else (LOverflow, None)
  end.
Proof.
  unfold load_target_data. rewrite fold_target_lines. simpl.
  destruct (line_entries lines) as [|e es]; reflexivity.
Qed.

(** A successful load is cached: a later call returns the same data
    whatever the file then holds. A call that returns [None] or raises
    caches nothing, so a later call behaves as if it were the first. *)
Theorem load_target_data_twice (data : option tdata) (file1 file2 : option (list string)) :
  load_target_data (snd (load_target_data data file1)) file2 =
  match fst (load_target_data data file1) with
  | LReturn (Some x) => (LReturn (Some x), Some x)
  | _ => load_target_data data file2
  end.
Proof.
  destruct data as [d|]; [reflexivity|].
  destruct file1 as [lines|]; [|reflexivity].
  rewrite load_target_data_lines.
  destruct (line_entries lines) as [|e es]; [reflexivity|].
  destruct (forallb in_int32 _); reflexivity.
Qed.
End Load.
End TargetData.

(* ------------------------------------------------------------------ *)
(** ** [VNCCS_PoseStudio._make_grid] ([nodes/pose_studio.py])

    The images are given by their sizes [(w, h)]; the result is the size
    of the grid image and the positions the images are pasted at, in
    order. The background colour only fills the grid and is left out.
    [Image.new] raises [ValueError] on a negative width or height; [//]
    and [%] are Python's floor division and modulo, [Z.div] and
    [Z.modulo]. *)

Module PoseGrid.
Local Open Scope Z_scope.
Local Open Scope list_scope.

Inductive grid_result :=
| GridOk (size : Z * Z) (pastes : list (Z * Z))
| GridZeroDivision
| GridBadSize.

(** [Image.new('RGB', size, ...)] accepts the size. *)
Definition image_new_ok (size : Z * Z) : bool := (0 <=? fst size) && (0 <=? snd size).

Definition make_grid (images : list (Z * Z)) (columns : Z) : grid_result :=
  match images with
  | [] => GridOk (512, 512) []
  | (w, h) :: _ =>
      let n := Z.of_nat (List.length images) in
      let cols := Z.min columns n in
      if cols =? 0 then GridZeroDivision
      else
        let rows := (n + cols - 1) / cols in
        if image_new_ok (w * cols, h * rows) then
          GridOk (w * cols, h * rows)
                 (map (fun i => let row := i / cols in
                                let col := i mod cols in
                                (col * w, row * h))
                      (map Z.of_nat (seq 0 (List.length images))))
        else GridBadSize
  end.

(** With at least one column, the grid has [min(columns, n)] columns and
    just enough rows for the [n] images: every row is used. Each image is
    pasted at a cell of the size of the first image, inside the grid, and
    no two images share a cell. *)
Theorem make_grid_layout (images : list (Z * Z)) (w h : Z) (columns : Z)
    (Hfirst : hd_error images = Some (w, h))
    (Hw : 0 < w) (Hh : 0 < h) (Hc : 1 <= columns) :
  let n := Z.of_nat (List.length images) in
  exists cols rows ps,
    make_grid images columns = GridOk (w * cols, h * rows) ps /\
    cols = Z.min columns n /\ 1 <= cols /\
    (rows - 1) * cols < n <= rows * cols /\
    List.length ps = List.length images /\
    (forall i, (i < List.length images)%nat ->
       0 <= fst (nth i ps (0, 0)) /\ fst (nth i ps (0, 0)) + w <= w * cols /\
       0 <= snd (nth i ps (0, 0)) /\ snd (nth i ps (0, 0)) + h <= h * rows) /\
    NoDup ps.
Proof.
  destruct images as [|[w0 h0] rest]; [discriminate|]. injection Hfirst as -> ->.
  intros n. set (cols := Z.min columns n). set (rows := (n + cols - 1) / cols).
  assert (Hn : 1 <= n) by (unfold n; simpl List.length; lia).
  assert (Hc1 : 1 <= cols) by (unfold cols; lia).
  assert (Hcn : cols <= n) by (unfold cols; lia).
  assert (Hdm := Z.div_mod (n + cols - 1) cols ltac:(lia)).
  assert (Hmb := Z.mod_pos_bound (n + cols - 1) cols ltac:(lia)).
  fold rows in Hdm.
  assert (Hr : (rows - 1) * cols < n <= rows * cols) by nia.
  assert (Hr1 : 1 <= rows) by nia.
  exists cols, rows.
  eexists. split.
  { unfold make_grid. fold n cols. replace (cols =? 0) with false by (symmetry; apply Z.eqb_neq; lia).
    fold rows. replace (image_new_ok (w * cols, h * rows)) with true
      by (symmetry; unfold image_new_ok; simpl; apply andb_true_intro; split; apply Z.leb_le; nia).
    reflexivity. }
  split; [reflexivity|split; [exact Hc1|split; [exact Hr|split]]].
  { rewrite !length_map, length_seq. reflexivity. }
  assert (Hcell : forall i, 0 <= i < n ->
            0 <= i mod cols * w /\ i mod cols * w + w <= w * cols /\
            0 <= i / cols * h /\ i / cols * h + h <= h * rows).
  { intros i Hi. assert (Hm := Z.mod_pos_bound i cols ltac:(lia)).
    assert (Hd := Z.div_mod i cols ltac:(lia)).
    assert (Hq : 0 <= i / cols) by (apply Z.div_pos; lia).
    assert (Hq' : i / cols < rows) by nia.
    split; [nia|split; [nia|split; nia]]. }
  split.
  - intros i Hi.
    rewrite (nth_map_lt _ _ _ _ 0%Z) by (rewrite length_map, length_seq; exact Hi).
    rewrite (nth_map_lt _ _ _ _ 0%nat) by (rewrite length_seq; exact Hi).
    rewrite seq_nth by exact Hi. cbn zeta. simpl (fst _). simpl (snd _).
    apply Hcell. unfold n. lia.
  - apply NoDup_map_inv with (f := fun p => (snd p / h) * cols + fst p / w).
    rewrite map_map, (map_ext_in _ (fun x => x)).
    + rewrite map_id. apply Finite.Injective_map_NoDup; [intros a b E; lia|apply seq_NoDup].
    + intros x Hx. apply in_map_iff in Hx. destruct Hx as [i [<- Hi]]. cbn zeta. simpl.
      rewrite !Z.div_mul by lia.
      assert (Hd := Z.div_mod (Z.of_nat i) cols ltac:(lia)). lia.
Qed.

(** With no column, or a negative number of columns, a non-empty list of
    images never gives a grid: zero columns divide by zero, and a negative
    number makes the grid width negative. *)
Theorem make_grid_nonpositive (images : list (Z * Z)) (w h : Z) (columns : Z)
    (Hfirst : hd_error images = Some (w, h)) (Hw : 0 < w) (Hc : columns <= 0) :
  make_grid images columns = if columns =? 0 then GridZeroDivision else GridBadSize.
Proof.
  destruct images as [|[w0 h0] rest]; [discriminate|]. injection Hfirst as -> ->.
  unfold make_grid. simpl List.length.
  rewrite Z.min_l by lia.
  destruct (columns =? 0) eqn:E; [reflexivity|]. apply Z.eqb_neq in E.
  unfold image_new_ok. simpl fst.
  replace (0 <=? w * columns) with false by (symmetry; apply Z.leb_gt; nia).
  reflexivity.
Qed.

Definition ex_images : list (Z * Z) := [(512, 768); (512, 768); (512, 768)].

Lemma make_grid_layout_witness :
  hd_error ex_images = Some (512, 768) /\
  exists cols rows ps,
    make_grid ex_images 2 = GridOk (512 * cols, 768 * rows) ps /\ cols = 2 /\ rows = 2.
Proof.
  split; [reflexivity|].
  destruct (make_grid_layout ex_images 512 768 2 eq_refl ltac:(lia) ltac:(lia) ltac:(lia))
    as (cols & rows & ps & E & Hcols & _ & Hr & _).
  exists cols, rows, ps. split; [exact E|].
  simpl in Hcols. subst cols. split; [reflexivity|].
  simpl in Hr. lia.
Defined.

Lemma make_grid_nonpositive_witness :
  make_grid ex_images 0 = GridZeroDivision /\ make_grid ex_images (-1) = GridBadSize.
Proof.
  split.
  - exact (make_grid_nonpositive ex_images 512 768 0 eq_refl ltac:(lia) ltac:(lia)).
  - exact (make_grid_nonpositive ex_images 512 768 (-1) eq_refl ltac:(lia) ltac:(lia)).
Defined.
End PoseGrid.

(* ------------------------------------------------------------------ *)
(** ** The age slider of the callers of [calculate_factors]

    [vnccs_character_studio_update_preview] ([__init__.py]) and
    [VNCCS_PoseStudio.generate] ([nodes/pose_studio.py]) map the age in
    years to [mh_age = max(0.0, min(1.0, (age - 1.0) / (90.0 - 1.0)))]
    before calling [calculate_factors]. *)

Module AgeSlider.

Definition mh_age (age : Qc) : Qc := pymax 0 (pymin 1 ((age - 1) / (q 90 - 1))).

(** [solver.calculate_factors(mh_age, gender, weight, muscle, height,
    breast_size, genital_size)] *)
Definition caller_factors (age gender weight muscle height breast_size genital_size : Qc)
    : pydict Qc :=
  calculate_factors (mh_age age) gender weight muscle height breast_size genital_size.

Lemma mh_age_in01 age : in01 (mh_age age).
Proof. unfold mh_age, in01. split_py; to_q; lra. Qed.

(** Whatever the age the request carries, the four age factors the
    callers compute sum to one. *)
Theorem caller_factors_age_sum (age gender weight muscle height breast_size genital_size : Qc) :
  let F := caller_factors age gender weight muscle height breast_size genital_size in
  fget F "baby" + fget F "child" + fget F "young" + fget F "old" = 1.
Proof.
  intros F. unfold F, caller_factors.
  pose proof (fget_age_entries (mh_age age) gender weight muscle height breast_size
                genital_size) as HA.
  pose proof (age_entries_sum (mh_age age) (mh_age_in01 age)) as HS.
  destruct (Qclt_le_dec (mh_age age) (q 0.5));
    injection HA as Hb Hc Hy Ho; rewrite Hb, Hc, Hy, Ho; exact HS.
Qed.

(** Without that clamp the age factors do not sum to one: at a negative
    age [calculate_factors] gives [baby = 1 - 5.333 * age > 1] and every
    other age factor [0]. *)
Theorem calculate_factors_negative_age (age gender weight muscle height breast_size genital_size : Qc)
    (Hneg : age < 0) :
  let F := calculate_factors age gender weight muscle height breast_size genital_size in
  fget F "baby" = 1 - age * q 5.333 /\ fget F "child" = 0 /\ fget F "young" = 0 /\
  fget F "old" = 0 /\ 1 < fget F "baby" + fget F "child" + fget F "young" + fget F "old".
Proof.
  intros F. unfold F.
  pose proof (fget_age_entries age gender weight muscle height breast_size genital_size) as HA.
  destruct (Qclt_le_dec age (q 0.5)) as [Hlt|Hge].
  - injection HA as Hb Hc Hy Ho. rewrite Hb, Hc, Hy, Ho.
    assert (Y : pymax 0 ((age - q 0.1875) * q 3.2) = 0)
      by (unfold q in *; split_py; to_q; lra).
    rewrite Y.
    assert (C : pymax 0 (pymin 1 (q 5.333 * age) - 0) = 0)
      by (unfold q in *; split_py; to_q; lra).
    assert (B : pymax 0 (1 - age * q 5.333) = 1 - age * q 5.333)
      by (unfold q in *; split_py; to_q; lra).
    rewrite C, B. split; [reflexivity|split; [reflexivity|split; [reflexivity|split; [reflexivity|]]]].
    unfold q in *. to_q. lra.
  - exfalso. unfold q in *. to_q. lra.
Qed.

Lemma calculate_factors_negative_age_witness :
  q (-1) < 0 /\
  let F := calculate_factors (q (-1)) (q 0.5) (q 0.5) (q 0.5) (q 0.5) (q 0.5) (q 0.5) in
  fget F "baby" = 1 - q (-1) * q 5.333.
Proof.
  assert (H : q (-1) < 0) by (vm_compute; reflexivity).
  split; [exact H|].
  apply (calculate_factors_negative_age (q (-1)) (q 0.5) (q 0.5) (q 0.5) (q 0.5) (q 0.5)
           (q 0.5) H).
Defined.
End AgeSlider.


(** * Flat-shaded rendering of the preview mesh

    [VNCCS_PoseStudio._render_flat_shaded] (nodes/pose_studio.py). The
    vertices [verts_3d] are [float64] triples, modelled as exact reals;
    [faces] are the integer index lists built by [load_obj] (the branch for
    list or tuple items is never taken for them). Each [draw.polygon] call
    is recorded as its list of points and its fill colour. *)
Module FlatShade.
Import IKStep.
Local Open Scope R_scope.

(** [verts_3d[vi]] of an [(N, 3)] array: [None] is [IndexError]. *)
Definition vat3 (verts : list rvec3) (vi : Z) : option rvec3 :=
  match norm_index (List.length verts) vi with
  | Some k => Some (nth k verts (0, 0, 0))
  | None => None
  end.

(** [verts_screen[vi]] of an [(N, 2)] array *)
Definition sat2 (verts_screen : list (R * R)) (vi : Z) : option (R * R) :=
  match norm_index (List.length verts_screen) vi with
  | Some k => Some (nth k verts_screen (0, 0))
  | None => None
  end.

Definition zc (p : rvec3) : R := let '(_, _, z) := p in z.

(** [light_dir / np.linalg.norm(light_dir)] *)
Definition light_dir : rvec3 :=
  vdiv (0.5, 0.8, 1.0) (norm (0.5, 0.8, 1.0)).

(** [.astype(int)]: truncation towards zero *)
Definition rtrunc (x : R) : Z :=
  if Rle_dec 0 x then Int_part x else (- Int_part (- x))%Z.

(** [np.clip(c, 0, 255)] *)
Definition clip (c : Z) : Z := Z.min (Z.max c 0) 255.

(** [tuple(np.clip((base_color * intensity).astype(int), 0, 255))] with
    [base_color = [212, 165, 116]] *)
Definition face_color (intensity : R) : Z * Z * Z :=
  (clip (rtrunc (212 * intensity)), clip (rtrunc (165 * intensity)),
   clip (rtrunc (116 * intensity))).

(** An entry [(z_avg, v_indices, color)] of [face_data]. *)
Record face_entry := FaceEntry {
  fe_z : R;
  fe_idx : list Z;
  fe_color : Z * Z * Z
}.

(** The body of [for face in faces:]: [Some None] is [continue],
    [Some (Some e)] appends [e] to [face_data], [None] is the [IndexError]
    of a negative index below [-len(verts_3d)]. *)
Definition shade_face (verts : list rvec3) (face : list Z)
    : option (option face_entry) :=
  if (List.length face <? 3)%nat then Some None
  else if existsb (fun vi => Z.of_nat (List.length verts) <=? vi)%Z face
  then Some None
  else
    match face with
    | vi0 :: vi1 :: vi2 :: _ =>
        match vat3 verts vi0, vat3 verts vi1, vat3 verts vi2 with
        | Some p0, Some p1, Some p2 =>
            let z_avg := (zc p0 + zc p1 + zc p2) / 3 in
            let normal := cross (vsub p1 p0) (vsub p2 p0) in
            let norm_len := norm normal in
            if Rlt_dec norm_len 1e-8 then Some None
            else
              let normal := vdiv normal norm_len in
              let diffuse := Rmax 0 (dot normal light_dir) in
              let intensity := Rmin 1.0 (0.3 + diffuse * 0.7) in
              Some (Some (FaceEntry z_avg face (face_color intensity)))
        | _, _, _ => None
        end
    | _ => Some None
    end.

(** [list.sort] is stable: insertion of each entry after all entries of
    no greater depth, from the left, gives the same order. *)
Fixpoint insert_z (e : face_entry) (l : list face_entry) : list face_entry :=
  match l with
  | [] => [e]
  | e' :: l' => if Rlt_dec (fe_z e) (fe_z e') then e :: l else e' :: insert_z e l'
  end.

Definition sort_by_z (l : list face_entry) : list face_entry :=
  fold_left (fun acc e => insert_z e acc) l [].

Fixpoint points_of (verts_screen : list (R * R)) (idx : list Z)
    : option (list (R * R)) :=
  match idx with
  | [] => Some []
  | vi :: r =>
      match sat2 verts_screen vi, points_of verts_screen r with
      | Some p, Some ps => Some (p :: ps)
      | _, _ => None
      end
  end.

(** The whole method: the list of [draw.polygon(points, fill=color)] calls
    in order, or [None] for an [IndexError]. *)
Definition render_flat_shaded (verts_screen : list (R * R))
    (verts : list rvec3) (faces : list (list Z))
    : option (list (list (R * R) * (Z * Z * Z))) :=
  match fold_opt (fun acc face =>
          match shade_face verts face with
          | None => None
          | Some None => Some acc
          | Some (Some e) => Some (acc ++ [e])%list
          end) faces [] with
  | None => None
  | Some face_data =>
      fold_opt (fun acc e =>
          match points_of verts_screen (firstn 4 (fe_idx e)) with
          | None => None
          | Some points =>
              if (3 <=? List.length points)%nat
              then Some (acc ++ [(points, fe_color e)])%list else Some acc
          end) (sort_by_z face_data) []
  end.


(** The vertex [verts_3d[vi]] where it exists. *)
Definition vat_d (verts : list rvec3) (vi : Z) : rvec3 :=
  match vat3 verts vi with Some p => p | None => (0, 0, 0) end.

Definition sat_d (verts_screen : list (R * R)) (vi : Z) : R * R :=
  match sat2 verts_screen vi with Some p => p | None => (0, 0) end.

(** The faces that get drawn, stated directly: at least three indices,
    none at or above [len(verts_3d)], and a normal of length at least
    [1e-8] for the first three vertices. *)
Definition drawn_face (verts : list rvec3) (f : list Z) : bool :=
  (3 <=? List.length f)%nat
  && forallb (fun vi => vi <? Z.of_nat (List.length verts))%Z f
  && match f with
     | a :: b :: c :: _ =>
         if Rlt_dec (norm (cross (vsub (vat_d verts b) (vat_d verts a))
                                 (vsub (vat_d verts c) (vat_d verts a)))) 1e-8
         then false else true
     | _ => false
     end.

(** The depth of a face: the mean [z] of its first three vertices. *)
Definition depth (verts : list rvec3) (f : list Z) : R :=
  match f with
  | a :: b :: c :: _ =>
      (zc (vat_d verts a) + zc (vat_d verts b) + zc (vat_d verts c)) / 3
  | _ => 0
  end.

Lemma norm_index_in_range (n : nat) (vi : Z) :
  (- Z.of_nat n <= vi < Z.of_nat n)%Z -> norm_index n vi <> None.
Proof.
  intros H. unfold norm_index.
  destruct ((0 <=? vi)%Z && (vi <? Z.of_nat n)%Z) eqn:E1; [discriminate|].
  destruct ((- Z.of_nat n <=? vi)%Z && (vi <? 0)%Z) eqn:E2; [discriminate|].
  exfalso. apply andb_false_iff in E1, E2.
  destruct E1 as [E1|E1], E2 as [E2|E2];
    rewrite ?Z.leb_gt, ?Z.ltb_ge in E1, E2; lia.
Qed.

Lemma vat3_in_range verts vi :
  (- Z.of_nat (List.length verts) <= vi < Z.of_nat (List.length verts))%Z ->
  vat3 verts vi = Some (vat_d verts vi).
Proof.
  intros H. unfold vat_d, vat3.
  pose proof (norm_index_in_range _ _ H).
  destruct (norm_index (List.length verts) vi); congruence.
Qed.

Lemma sat2_in_range s vi :
  (- Z.of_nat (List.length s) <= vi < Z.of_nat (List.length s))%Z ->
  sat2 s vi = Some (sat_d s vi).
Proof.
  intros H. unfold sat_d, sat2.
  pose proof (norm_index_in_range _ _ H).
  destruct (norm_index (List.length s) vi); congruence.
Qed.

Lemma existsb_ge_forallb (n : Z) (f : list Z) :
  existsb (fun vi => n <=? vi)%Z f = negb (forallb (fun vi => vi <? n)%Z f).
Proof.
  induction f as [|x f IH]; [reflexivity|].
  simpl. rewrite IH, Z.ltb_antisym.
  destruct (n <=? x)%Z, (forallb (fun vi => vi <? n)%Z f); reflexivity.
Qed.

(** For a face none of whose indices is below [-len(verts_3d)], the loop
    body never raises and keeps exactly the [drawn_face] faces. *)
Lemma shade_face_no_error verts f :
  Forall (fun vi => - Z.of_nat (List.length verts) <= vi)%Z f ->
  match shade_face verts f with
  | Some (Some e) => drawn_face verts f = true /\ fe_idx e = f
                     /\ fe_z e = depth verts f
  | Some None => drawn_face verts f = false
  | None => False
  end.
Proof.
  intros Hf. unfold shade_face, drawn_face.
  destruct (List.length f <? 3)%nat eqn:E3.
  { apply Nat.ltb_lt in E3. apply Nat.leb_gt in E3. now rewrite E3. }
  rewrite existsb_ge_forallb.
  destruct (forallb (fun vi => vi <? Z.of_nat (List.length verts))%Z f) eqn:Ef.
  2:{ now rewrite andb_false_r. }
  apply Nat.ltb_ge in E3. apply Nat.leb_le in E3. rewrite E3. simpl.
  destruct f as [|a [|b [|c r]]]; simpl in E3; try lia.
  rewrite forallb_forall in Ef.
  assert (Hr : forall x, In x (a :: b :: c :: r) ->
    vat3 verts x = Some (vat_d verts x)).
  { intros x Hx. apply vat3_in_range. rewrite Forall_forall in Hf.
    specialize (Hf x Hx). specialize (Ef x Hx). apply Z.ltb_lt in Ef. lia. }
  rewrite (Hr a), (Hr b), (Hr c) by (simpl; tauto).
  cbv beta iota zeta.
  destruct (Rlt_dec _ 1e-8); [reflexivity|].
  simpl. auto.
Qed.


Definition shade_step (verts : list rvec3) (acc : list face_entry)
    (face : list Z) : option (list face_entry) :=
  match shade_face verts face with
  | None => None
  | Some None => Some acc
  | Some (Some e) => Some (acc ++ [e])%list
  end.

Lemma shade_fold verts faces acc :
  Forall (Forall (fun vi => - Z.of_nat (List.length verts) <= vi)%Z) faces ->
  exists es, fold_opt (shade_step verts) faces acc = Some (acc ++ es)%list
    /\ map fe_idx es = filter (drawn_face verts) faces
    /\ Forall (fun e => fe_z e = depth verts (fe_idx e)) es.
Proof.
  revert acc. induction faces as [|f faces IH]; intros acc H.
  - exists []. rewrite app_nil_r. auto.
  - inversion H as [|? ? Hf Hfs]; subst.
    pose proof (shade_face_no_error verts f Hf) as Hs.
    simpl. unfold shade_step at 1.
    destruct (shade_face verts f) as [[e|]|]; [ | | contradiction ].
    + destruct Hs as (Hd & Hi & Hz).
      destruct (IH (acc ++ [e])%list Hfs) as (es & H1 & H2 & H3).
      exists (e :: es). rewrite <- app_assoc in H1. split; [exact H1|].
      rewrite Hd. simpl. rewrite H2, Hi. split; [reflexivity|].
      constructor; [congruence | exact H3].
    + destruct (IH acc Hfs) as (es & H1 & H2 & H3).
      exists es. rewrite Hs. auto.
Qed.

Lemma insert_z_perm e l : Permutation (insert_z e l) (e :: l).
Proof.
  induction l as [|x l IH]; simpl; [reflexivity|].
  destruct (Rlt_dec (fe_z e) (fe_z x)); [reflexivity|].
  rewrite IH. apply perm_swap.
Qed.

Lemma sort_by_z_perm l : Permutation (sort_by_z l) l.
Proof.
  unfold sort_by_z.
  enough (forall acc, Permutation (fold_left (fun acc e => insert_z e acc) l acc)
                                  (l ++ acc)) by (rewrite H, app_nil_r; reflexivity).
  induction l as [|x l IH]; intros acc; simpl; [reflexivity|].
  rewrite IH, insert_z_perm. apply Permutation_sym, Permutation_middle.
Qed.

Definition zle (a b : face_entry) : Prop := fe_z a <= fe_z b.

Lemma insert_z_hd a e l :
  HdRel zle a l -> zle a e -> HdRel zle a (insert_z e l).
Proof.
  intros H He. destruct l as [|x l]; simpl.
  - now constructor.
  - destruct (Rlt_dec (fe_z e) (fe_z x)); constructor; [exact He|].
    now inversion H.
Qed.

Lemma insert_z_sorted e l : Sorted zle l -> Sorted zle (insert_z e l).
Proof.
  induction l as [|x l IH]; intros H; simpl.
  - repeat constructor.
  - inversion H as [|? ? Hl Hx]; subst.
    destruct (Rlt_dec (fe_z e) (fe_z x)) as [Hlt|Hge].
    + constructor; [exact H|]. constructor. unfold zle. lra.
    + constructor; [now apply IH|].
      apply insert_z_hd; [exact Hx|]. unfold zle. lra.
Qed.

Lemma sort_by_z_sorted l : Sorted zle (sort_by_z l).
Proof.
  unfold sort_by_z.
  enough (forall acc, Sorted zle acc ->
    Sorted zle (fold_left (fun acc e => insert_z e acc) l acc)) by auto.
  induction l as [|x l IH]; intros acc Ha; simpl; [exact Ha|].
  apply IH, insert_z_sorted, Ha.
Qed.

Lemma points_of_in_range s idx :
  Forall (fun vi => - Z.of_nat (List.length s) <= vi < Z.of_nat (List.length s))%Z idx ->
  points_of s idx = Some (map (sat_d s) idx).
Proof.
  induction 1 as [|vi idx Hvi _ IH]; simpl; [reflexivity|].
  now rewrite sat2_in_range, IH.
Qed.

Definition draw_step (s : list (R * R))
    (acc : list (list (R * R) * (Z * Z * Z))) (e : face_entry) :=
  match points_of s (firstn 4 (fe_idx e)) with
  | None => None
  | Some points =>
      if (3 <=? List.length points)%nat
      then Some (acc ++ [(points, fe_color e)])%list else Some acc
  end.

Lemma draw_fold s es acc :
  Forall (fun e => (3 <= List.length (fe_idx e))%nat /\
     Forall (fun vi => - Z.of_nat (List.length s) <= vi < Z.of_nat (List.length s))%Z
            (fe_idx e)) es ->
  fold_opt (draw_step s) es acc =
  Some (acc ++ map (fun e => (map (sat_d s) (firstn 4 (fe_idx e)), fe_color e)) es)%list.
Proof.
  revert acc. induction es as [|e es IH]; intros acc H; simpl.
  - now rewrite app_nil_r.
  - inversion H as [|? ? [H3 Hi] Hes]; subst.
    unfold draw_step at 1.
    rewrite points_of_in_range.
    2:{ rewrite Forall_forall in Hi |- *. intros x Hx.
        apply Hi. rewrite <- (firstn_skipn 4 (fe_idx e)).
        apply in_or_app. now left. }
    rewrite length_map, length_firstn.
    replace (3 <=? Nat.min 4 (List.length (fe_idx e)))%nat with true
      by (symmetry; apply Nat.leb_le; lia).
    rewrite IH by exact Hes. now rewrite <- app_assoc.
Qed.


Lemma render_flat_shaded_eq s verts faces :
  render_flat_shaded s verts faces =
  match fold_opt (shade_step verts) faces [] with
  | None => None
  | Some face_data => fold_opt (draw_step s) (sort_by_z face_data) []
  end.
Proof. reflexivity. Qed.

(** With every index at least [-len(verts_3d)], the method raises nothing
    and draws the [drawn_face] faces, each by its first four points, from
    the least to the greatest depth. *)
Lemma render_in_range (verts_screen : list (R * R)) (verts : list rvec3)
    (faces : list (list Z))
    (Hlen : List.length verts_screen = List.length verts)
    (Hneg : Forall (Forall (fun vi => - Z.of_nat (List.length verts) <= vi)%Z) faces) :
  exists es,
    render_flat_shaded verts_screen verts faces =
      Some (map (fun e => (map (sat_d verts_screen) (firstn 4 (fe_idx e)),
                           fe_color e)) es)
    /\ Permutation (map fe_idx es) (filter (drawn_face verts) faces)
    /\ Sorted (fun a b => fe_z a <= fe_z b) es
    /\ Forall (fun e => fe_z e = depth verts (fe_idx e)) es.
Proof.
  destruct (shade_fold verts faces [] Hneg) as (es & H1 & H2 & H3).
  simpl in H1.
  exists (sort_by_z es).
  pose proof (sort_by_z_perm es) as Hp.
  assert (Hin : forall e, In e (sort_by_z es) ->
    In (fe_idx e) (filter (drawn_face verts) faces)).
  { intros e He. rewrite <- H2. apply in_map.
    exact (Permutation_in _ Hp He). }
  split; [|split; [|split]].
  - rewrite render_flat_shaded_eq, H1, draw_fold; [reflexivity|].
    rewrite Forall_forall. intros e He.
    apply Hin, filter_In in He. destruct He as [Hf Hd].
    unfold drawn_face in Hd. apply andb_true_iff in Hd as [Hd _].
    apply andb_true_iff in Hd as [Hd3 Hdn].
    apply Nat.leb_le in Hd3. split; [exact Hd3|].
    rewrite Forall_forall in Hneg |- *. rewrite forallb_forall in Hdn.
    intros x Hx. specialize (Hneg _ Hf). rewrite Forall_forall in Hneg.
    specialize (Hneg x Hx). specialize (Hdn x Hx). apply Z.ltb_lt in Hdn.
    rewrite Hlen. lia.
  - rewrite <- H2. apply Permutation_map, Hp.
  - apply sort_by_z_sorted.
  - rewrite Forall_forall in H3 |- *. intros e He.
    apply H3, (Permutation_in _ Hp He).
Qed.

Lemma fold_opt_none_at {A B} (f : A -> B -> option A) (l : list B) (x : B) :
  In x l -> (forall a, f a x = None) -> forall a, fold_opt f l a = None.
Proof.
  induction l as [|y l IH]; intros Hx Hf a; [destruct Hx|].
  simpl. destruct Hx as [<-|Hx].
  - now rewrite Hf.
  - destruct (f a y); [now apply IH | reflexivity].
Qed.

Lemma rtrunc_between (x : R) (lo hi : Z) :
  0 <= x -> IZR lo <= x -> x < IZR hi + 1 -> (lo <= rtrunc x <= hi)%Z.
Proof.
  intros H0 Hlo Hhi. unfold rtrunc.
  destruct (Rle_dec 0 x) as [_|]; [|contradiction].
  destruct (base_Int_part x) as [Hb1 Hb2].
  split.
  - assert (IZR (lo - 1) < IZR (Int_part x)) as Hlt
      by (rewrite minus_IZR; lra).
    apply lt_IZR in Hlt. lia.
  - assert (IZR (Int_part x) < IZR (hi + 1)) as Hlt
      by (rewrite plus_IZR; lra).
    apply lt_IZR in Hlt. lia.
Qed.

Definition color_in_range (c : Z * Z * Z) : Prop :=
  let '(r, g, b) := c in
  (63 <= r <= 212 /\ 49 <= g <= 165 /\ 34 <= b <= 116)%Z.

Lemma face_color_range (d : R) :
  color_in_range (face_color (Rmin 1.0 (0.3 + Rmax 0 d * 0.7))).
Proof.
  set (i := Rmin 1.0 (0.3 + Rmax 0 d * 0.7)).
  assert (Hi : 0.3 <= i <= 1).
  { unfold i. pose proof (Rmax_l 0 d).
    destruct (Rle_dec 1.0 (0.3 + Rmax 0 d * 0.7)).
    - rewrite Rmin_left by lra. lra.
    - rewrite Rmin_right by lra. lra. }
  pose proof (rtrunc_between (212 * i) 63 212 ltac:(lra) ltac:(lra) ltac:(lra)).
  pose proof (rtrunc_between (165 * i) 49 165 ltac:(lra) ltac:(lra) ltac:(lra)).
  pose proof (rtrunc_between (116 * i) 34 116 ltac:(lra) ltac:(lra) ltac:(lra)).
  unfold face_color, color_in_range, clip. lia.
Qed.


Lemma shade_face_color verts f e :
  shade_face verts f = Some (Some e) -> color_in_range (fe_color e).
Proof.
  unfold shade_face. intros H.
  destruct (_ <? 3)%nat; [discriminate|].
  destruct existsb; [discriminate|].
  destruct f as [|a [|b [|c r]]]; try discriminate.
  destruct (vat3 verts a), (vat3 verts b), (vat3 verts c); try discriminate.
  cbv zeta in H. destruct Rlt_dec; [discriminate|].
  inversion H; subst. apply face_color_range.
Qed.

Lemma shade_fold_colors verts faces acc r :
  Forall (fun e => color_in_range (fe_color e)) acc ->
  fold_opt (shade_step verts) faces acc = Some r ->
  Forall (fun e => color_in_range (fe_color e)) r.
Proof.
  revert acc. induction faces as [|f faces IH]; intros acc Ha H; simpl in H.
  - congruence.
  - unfold shade_step at 1 in H.
    destruct (shade_face verts f) as [[e|]|] eqn:E; [| |discriminate].
    + refine (IH _ _ H). apply Forall_app. split; [exact Ha|].
      constructor; [exact (shade_face_color _ _ _ E) | constructor].
    + exact (IH _ Ha H).
Qed.

Lemma draw_fold_colors s es acc r :
  Forall (fun e => color_in_range (fe_color e)) es ->
  Forall (fun d => color_in_range (snd d)) acc ->
  fold_opt (draw_step s) es acc = Some r ->
  Forall (fun d => color_in_range (snd d)) r.
Proof.
  revert acc. induction es as [|e es IH]; intros acc He Ha H; simpl in H.
  - congruence.
  - inversion He as [|? ? Hc Hes]; subst.
    unfold draw_step at 1 in H.
    destruct (points_of s (firstn 4 (fe_idx e))); [|discriminate].
    destruct (3 <=? _)%nat.
    + refine (IH _ Hes _ H). apply Forall_app. split; [exact Ha|].
      constructor; [exact Hc | constructor].
    + exact (IH _ Hes Ha H).
Qed.

Lemma vat3_below verts vi :
  (vi < - Z.of_nat (List.length verts))%Z -> vat3 verts vi = None.
Proof.
  intros H. unfold vat3, norm_index.
  destruct ((0 <=? vi)%Z && (vi <? Z.of_nat (List.length verts))%Z) eqn:E1.
  { apply andb_true_iff in E1 as [E1 _]. apply Z.leb_le in E1. lia. }
  destruct ((- Z.of_nat (List.length verts) <=? vi)%Z && (vi <? 0)%Z) eqn:E2.
  { apply andb_true_iff in E2 as [E2 _]. apply Z.leb_le in E2. lia. }
  reflexivity.
Qed.


(** Example data: a unit square with one raised corner, its screen
    projection, and faces that cover each branch of the loop. *)
Definition ex_verts : list rvec3 := [(0, 0, 0); (1, 0, 0); (0, 1, 0); (1, 1, 1)].

Definition ex_screen : list (R * R) := [(0, 0); (1, 0); (0, 1); (1, 1)].

Definition ex_faces : list (list Z) :=
  [[0; 1; 3; 2]; [0; 1]; [1; 2; 7]; [-1; -3; -4]; [0; 0; 1]]%Z.

Definition ex_bad_faces : list (list Z) := [[0; 1; 3]; [0; 1; -9]]%Z.

Lemma ex_faces_in_range :
  Forall (Forall (fun vi => - Z.of_nat (List.length ex_verts) <= vi)%Z) ex_faces.
Proof. unfold ex_faces, ex_verts. simpl. repeat constructor; lia. Qed.

(** Painter's algorithm of [_render_flat_shaded]: when no face index is
    below [-len(verts_3d)] and [verts_screen] has one point per vertex, the
    method raises nothing; it draws exactly the faces with at least three
    indices, all below [len(verts_3d)], whose first three vertices span a
    normal of length at least [1e-8] (a permutation of them), each by the
    screen points of its first four indices, in nondecreasing order of the
    mean [z] of its first three vertices. *)
Theorem render_flat_shaded_painter (verts_screen : list (R * R))
    (verts : list rvec3) (faces : list (list Z))
    (Hlen : List.length verts_screen = List.length verts)
    (Hneg : Forall (Forall (fun vi => - Z.of_nat (List.length verts) <= vi)%Z) faces) :
  exists es,
    render_flat_shaded verts_screen verts faces =
      Some (map (fun e => (map (sat_d verts_screen) (firstn 4 (fe_idx e)),
                           fe_color e)) es)
    /\ Permutation (map fe_idx es) (filter (drawn_face verts) faces)
    /\ Sorted (fun a b => fe_z a <= fe_z b) es
    /\ Forall (fun e => fe_z e = depth verts (fe_idx e)) es.
Proof. exact (render_in_range verts_screen verts faces Hlen Hneg). Qed.

Lemma render_flat_shaded_painter_witness :
  exists es,
    render_flat_shaded ex_screen ex_verts ex_faces =
      Some (map (fun e => (map (sat_d ex_screen) (firstn 4 (fe_idx e)),
                           fe_color e)) es)
    /\ Permutation (map fe_idx es) (filter (drawn_face ex_verts) ex_faces)
    /\ Sorted (fun a b => fe_z a <= fe_z b) es
    /\ Forall (fun e => fe_z e = depth ex_verts (fe_idx e)) es.
Proof.
  apply (render_flat_shaded_painter ex_screen ex_verts ex_faces).
  - reflexivity.
  - exact ex_faces_in_range.
Defined.

(** Every polygon the method draws is filled with a colour between the
    ambient shade [(63, 49, 34)] and the base colour [(212, 165, 116)],
    componentwise: the intensity stays in [[0.3, 1]], so [np.clip] never
    changes a component. *)
Theorem render_flat_shaded_colors (verts_screen : list (R * R))
    (verts : list rvec3) (faces : list (list Z))
    (draws : list (list (R * R) * (Z * Z * Z)))
    (H : render_flat_shaded verts_screen verts faces = Some draws) :
  Forall (fun d => color_in_range (snd d)) draws.
Proof.
  rewrite render_flat_shaded_eq in H.
  destruct (fold_opt (shade_step verts) faces []) as [fd|] eqn:E;
    [|discriminate].
  apply (draw_fold_colors verts_screen (sort_by_z fd) [] draws); auto.
  apply (Permutation_Forall (Permutation_sym (sort_by_z_perm fd))).
  exact (shade_fold_colors verts faces [] fd (Forall_nil _) E).
Qed.

Lemma render_flat_shaded_colors_witness :
  exists draws, render_flat_shaded ex_screen ex_verts ex_faces = Some draws
    /\ Forall (fun d => color_in_range (snd d)) draws.
Proof.
  destruct (render_in_range ex_screen ex_verts ex_faces eq_refl ex_faces_in_range)
    as (es & Hr & _).
  eexists. split; [exact Hr|].
  exact (render_flat_shaded_colors ex_screen ex_verts ex_faces _ Hr).
Defined.

(** A face with at least three indices, all below [len(verts_3d)], one of
    whose first three indices is below [-len(verts_3d)], makes the whole
    method raise [IndexError], whatever the other faces are. *)
Lemma render_index_error_raise (verts_screen : list (R * R))
    (verts : list rvec3) (faces : list (list Z)) (f : list Z)
    (Hin : In f faces) (H3 : (3 <= List.length f)%nat)
    (Hlt : Forall (fun vi => vi < Z.of_nat (List.length verts))%Z f)
    (Hbad : Exists (fun vi => vi < - Z.of_nat (List.length verts))%Z (firstn 3 f)) :
  render_flat_shaded verts_screen verts faces = None.
Proof.
  rewrite render_flat_shaded_eq, (fold_opt_none_at _ _ f Hin); [reflexivity|].
  intros acc. unfold shade_step.
  enough (shade_face verts f = None) as -> by reflexivity.
  unfold shade_face.
  replace (List.length f <? 3)%nat with false
    by (symmetry; apply Nat.ltb_ge; exact H3).
  rewrite existsb_ge_forallb.
  replace (forallb (fun vi => vi <? Z.of_nat (List.length verts))%Z f) with true.
  2:{ symmetry. apply forallb_forall. rewrite Forall_forall in Hlt.
      intros x Hx. apply Z.ltb_lt, Hlt, Hx. }
  simpl.
  destruct f as [|a [|b [|c r]]]; simpl in H3; try lia.
  simpl in Hbad.
  inversion Hbad as [? ? Ha|? ? Hb']; subst.
  - rewrite (vat3_below _ _ Ha). reflexivity.
  - inversion Hb' as [? ? Hb|? ? Hc']; subst.
    + rewrite (vat3_below _ _ Hb). now destruct (vat3 verts a).
    + inversion Hc' as [? ? Hc|? ? Hn]; subst; [|inversion Hn].
      rewrite (vat3_below _ _ Hc).
      now destruct (vat3 verts a), (vat3 verts b).
Qed.

(** A face that is skipped leaves the whole loop unchanged, whatever
    state it meets. *)
Lemma fold_opt_skip {A B} (f : A -> B -> option A) (keep : B -> bool) (l : list B) :
  (forall x, In x l -> keep x = false -> forall a, f a x = Some a) ->
  forall a, fold_opt f l a = fold_opt f (filter keep l) a.
Proof.
  induction l as [|x l IH]; intros Hs a; simpl; [reflexivity|].
  destruct (keep x) eqn:Ek; simpl.
  - destruct (f a x); [|reflexivity].
    apply IH. intros y Hy. apply Hs. now right.
  - rewrite (Hs x (or_introl eq_refl) Ek a). apply IH.
    intros y Hy. apply Hs. now right.
Qed.

(** Indices out of range: a face with an index at or above
    [len(verts_3d)] is only skipped, even when it also has an index below
    [-len(verts_3d)]: the method behaves exactly as if the face were not
    in [faces]. A face with at least three indices, all below
    [len(verts_3d)], one of whose first three indices is below
    [-len(verts_3d)], makes the whole method raise [IndexError], whatever
    the other faces are. *)
Theorem render_flat_shaded_index_error (verts_screen : list (R * R))
    (verts : list rvec3) (faces : list (list Z)) :
  render_flat_shaded verts_screen verts faces =
    render_flat_shaded verts_screen verts
      (filter (fun f => negb (existsb (fun vi => Z.of_nat (List.length verts) <=? vi)%Z f))
              faces)
  /\ (forall f, In f faces -> (3 <= List.length f)%nat ->
        Forall (fun vi => vi < Z.of_nat (List.length verts))%Z f ->
        Exists (fun vi => vi < - Z.of_nat (List.length verts))%Z (firstn 3 f) ->
        render_flat_shaded verts_screen verts faces = None).
Proof.
  split.
  - rewrite !render_flat_shaded_eq.
    rewrite (fold_opt_skip (shade_step verts)
      (fun f => negb (existsb (fun vi => Z.of_nat (List.length verts) <=? vi)%Z f))
      faces); [reflexivity|].
    intros f _ Hk acc. apply negb_false_iff in Hk.
    unfold shade_step, shade_face.
    destruct (List.length f <? 3)%nat; [reflexivity|].
    now rewrite Hk.
  - intros f Hin H3 Hlt Hbad.
    exact (render_index_error_raise verts_screen verts faces f Hin H3 Hlt Hbad).
Qed.

Definition ex_skip_faces : list (list Z) := [[0; 1; 3]; [5; -9; 0]]%Z.

Lemma render_flat_shaded_index_error_witness :
  (render_flat_shaded ex_screen ex_verts ex_skip_faces =
     render_flat_shaded ex_screen ex_verts [[0; 1; 3]%Z]) /\
  (render_flat_shaded ex_screen ex_verts ex_bad_faces = None).
Proof.
  split.
  - exact (proj1 (render_flat_shaded_index_error ex_screen ex_verts ex_skip_faces)).
  - apply (proj2 (render_flat_shaded_index_error ex_screen ex_verts ex_bad_faces)
             [0; 1; -9]%Z).
    + simpl. auto.
    + simpl. lia.
    + unfold ex_verts. simpl. repeat constructor; lia.
    + unfold ex_verts. simpl. apply Exists_cons_tl, Exists_cons_tl, Exists_cons_hd. lia.
Defined.

End FlatShade.


(** * Preview rendering of the posed mesh

    [VNCCS_PoseStudio._render_mesh] (nodes/pose_studio.py): the vertices
    are projected orthographically onto a square image of side [size], the
    faces of the listed groups of the cached base mesh ([face_groups] and
    [faces] as [load_obj] builds them) are selected, and
    [_render_flat_shaded] draws them. *)
Module RenderMesh.
Import IKStep FlatShade.
Local Open Scope R_scope.

Definition rvadd (u v : rvec3) : rvec3 :=
  let '(a, b, c) := u in let '(x, y, z) := v in (a + x, b + y, c + z).

(** [verts.mean(axis=0)] *)
Definition mean3 (verts : list rvec3) : rvec3 :=
  vdiv (fold_left rvadd verts (0, 0, 0)) (INR (List.length verts)).

(** The entries of [np.abs(verts - center)]. *)
Definition abs_devs (center : rvec3) (verts : list rvec3) : list R :=
  flat_map (fun v => let '(a, b, c) := vsub v center in [Rabs a; Rabs b; Rabs c])
    verts.

(** [.max()] of an array: [ValueError] ([None]) when it is empty. *)
Definition arr_max (l : list R) : option R :=
  match l with
  | [] => None
  | d :: ds => Some (fold_left Rmax ds d)
  end.

Definition valid_prefixes : list string :=
  ["body"; "helper-r-eye"; "helper-l-eye"; "helper-upper-teeth";
   "helper-lower-teeth"].

(** The loop over [enumerate(base_mesh.face_groups)]; [base_mesh.faces[i]]
    raises [IndexError] ([None]) past the end of [faces]. *)
Definition select_faces (face_groups : list string) (faces : list (list Z))
    : option (list (list Z)) :=
  fold_opt (fun acc ig =>
      let '(i, group) := ig in
      if existsb (String.eqb (TargetData.strip group)) valid_prefixes then
        match nth_error faces i with
        | Some f => Some (acc ++ [f])%list
        | None => None
        end
      else Some acc)
    (combine (seq 0 (List.length face_groups)) face_groups) [].

(** The projection of [_render_mesh], once [center] and the maximal
    deviation [m] are known. *)
Definition project (W H : Z) (center : rvec3) (m : R) (verts : list rvec3)
    : list (R * R) :=
  let scale := IZR (Z.min W H) * 0.4 / Rmax m 0.001 in
  let '(cx, cy, _) := center in
  map (fun v => let '(x, y, _) := v in
         ((x - cx) * scale + IZR W / 2, IZR H / 2 - (y - cy) * scale)) verts.

(** The polygons drawn on the [size x size] image, or [None] for an
    exception: [Image.new] with a negative size, [.max()] of no vertices,
    or an [IndexError] of the face selection or of the drawing. *)
Definition render_mesh (size : Z) (verts : list rvec3)
    (face_groups : list string) (faces : list (list Z))
    : option (list (list (R * R) * (Z * Z * Z))) :=
  let W := size in
  let H := size in
  if negb (PoseGrid.image_new_ok (W, H)) then None
  else
    let center := mean3 verts in
    match arr_max (abs_devs center verts) with
    | None => None
    | Some m =>
        let verts_screen := project W H center m verts in
        match select_faces face_groups faces with
        | None => None
        | Some fs => render_flat_shaded verts_screen verts fs
        end
    end.


Lemma fold_Rmax_ge (ds : list R) (acc : R) :
  acc <= fold_left Rmax ds acc /\ Forall (fun x => x <= fold_left Rmax ds acc) ds.
Proof.
  revert acc. induction ds as [|d ds IH]; intros acc; simpl; [split; [lra | constructor]|].
  destruct (IH (Rmax acc d)) as [H1 H2].
  split; [|constructor; [|exact H2]].
  - eapply Rle_trans; [apply Rmax_l | exact H1].
  - eapply Rle_trans; [apply Rmax_r | exact H1].
Qed.

Lemma arr_max_ge (l : list R) (m : R) :
  arr_max l = Some m -> forall x, In x l -> x <= m.
Proof.
  destruct l as [|d ds]; simpl; [discriminate|].
  intros [= <-] x [<-|Hx]; destruct (fold_Rmax_ge ds d) as [H1 H2]; [exact H1|].
  rewrite Forall_forall in H2. now apply H2.
Qed.

(** A deviation of at most [m], scaled by [k / max(m, 0.001)], stays
    within [k]. *)
Lemma scaled_dev_bound (d m k : R) :
  Rabs d <= m -> 0 <= k -> - k <= d * (k / Rmax m 0.001) <= k.
Proof.
  intros Hd Hk.
  set (D := Rmax m 0.001).
  assert (HD : 0.001 <= D) by apply Rmax_r.
  assert (HmD : m <= D) by apply Rmax_l.
  set (t := k / D).
  assert (Ht : k = t * D) by (unfold t; field; lra).
  assert (Ht0 : 0 <= t) by (unfold t, Rdiv; apply Rmult_le_pos; [lra | left; apply Rinv_0_lt_compat; lra]).
  assert (Hl : - D <= d) by (pose proof (Rabs_pos d); pose proof (Rle_abs (- d)); rewrite Rabs_Ropp in *; lra).
  assert (Hu : d <= D) by (pose proof (Rle_abs d); lra).
  rewrite Ht. split; nra.
Qed.

Lemma points_of_in (s : list (R * R)) (idx : list Z) (ps : list (R * R)) :
  points_of s idx = Some ps -> Forall (fun p => In p s) ps.
Proof.
  revert ps. induction idx as [|vi idx IH]; intros ps H; simpl in H.
  - injection H as <-. constructor.
  - unfold sat2 in H.
    destruct (norm_index (List.length s) vi) as [k|] eqn:E; [|discriminate].
    destruct (points_of s idx) as [ps'|]; [|discriminate].
    injection H as <-. constructor; [|now apply IH].
    apply nth_In. exact (norm_index_lt _ _ _ E).
Qed.

(** Every point of every polygon [_render_flat_shaded] draws is a point of
    [verts_screen]. *)
Lemma render_points_in (s : list (R * R)) (verts : list rvec3)
    (faces : list (list Z)) draws :
  render_flat_shaded s verts faces = Some draws ->
  Forall (fun d => Forall (fun p => In p s) (fst d)) draws.
Proof.
  rewrite render_flat_shaded_eq.
  destruct (fold_opt (shade_step verts) faces []) as [fd|]; [|discriminate].
  enough (forall es acc, Forall (fun d => Forall (fun p => In p s) (fst d)) acc ->
    fold_opt (draw_step s) es acc = Some draws ->
    Forall (fun d => Forall (fun p => In p s) (fst d)) draws) as G
    by (apply G; constructor).
  induction es as [|e es IH]; intros acc Ha H; simpl in H; [congruence|].
  unfold draw_step at 1 in H.
  destruct (points_of s (firstn 4 (fe_idx e))) as [ps|] eqn:E; [|discriminate].
  destruct (3 <=? _)%nat; [|exact (IH _ Ha H)].
  refine (IH _ _ H). apply Forall_app. split; [exact Ha|].
  constructor; [exact (points_of_in _ _ _ E) | constructor].
Qed.


Lemma project_in_frame (size : Z) (center : rvec3) (m : R)
    (verts : list rvec3) (p : R * R) :
  (0 <= size)%Z -> arr_max (abs_devs center verts) = Some m ->
  In p (project size size center m verts) ->
  IZR size / 10 <= fst p <= 9 * IZR size / 10
  /\ IZR size / 10 <= snd p <= 9 * IZR size / 10.
Proof.
  intros Hs Hm Hp.
  destruct center as [[cx cy] cz].
  unfold project in Hp. rewrite Z.min_id in Hp.
  apply in_map_iff in Hp as ([[x y] z] & <- & Hv).
  assert (Hdev : forall d, In d (abs_devs (cx, cy, cz) verts) -> d <= m)
    by (apply arr_max_ge, Hm).
  assert (Hx : Rabs (x - cx) <= m)
    by (apply Hdev, in_flat_map; exists (x, y, z); simpl; auto).
  assert (Hy : Rabs (y - cy) <= m)
    by (apply Hdev, in_flat_map; exists (x, y, z); simpl; auto).
  assert (Hk : 0 <= IZR size * 0.4)
    by (apply IZR_le in Hs; lra).
  pose proof (scaled_dev_bound _ _ _ Hx Hk) as Bx.
  pose proof (scaled_dev_bound _ _ _ Hy Hk) as By.
  simpl.
  set (sc := IZR size * 0.4 / Rmax m 0.001) in *.
  split; split; lra.
Qed.

(** [_render_mesh] keeps its drawing inside the image with a margin of a
    tenth of [size] on every side: every point of every polygon it draws
    has both coordinates between [size / 10] and [9 * size / 10]. *)
Theorem render_mesh_in_frame (size : Z) (verts : list rvec3)
    (face_groups : list string) (faces : list (list Z)) draws
    (H : render_mesh size verts face_groups faces = Some draws) :
  Forall (fun d => Forall (fun p =>
      IZR size / 10 <= fst p <= 9 * IZR size / 10
      /\ IZR size / 10 <= snd p <= 9 * IZR size / 10) (fst d)) draws.
Proof.
  unfold render_mesh in H.
  destruct (PoseGrid.image_new_ok (size, size)) eqn:Ei; simpl in H;
    [|discriminate].
  assert (Hs : (0 <= size)%Z)
    by (unfold PoseGrid.image_new_ok in Ei; simpl in Ei;
        apply andb_true_iff in Ei as [Ei _]; now apply Z.leb_le).
  destruct (arr_max (abs_devs (mean3 verts) verts)) as [m|] eqn:Em;
    [|discriminate].
  destruct (select_faces face_groups faces) as [fs|]; [|discriminate].
  apply render_points_in in H.
  eapply Forall_impl; [|exact H]. intros d Hd.
  eapply Forall_impl; [|exact Hd]. intros p Hp.
  exact (project_in_frame _ _ _ _ _ Hs Em Hp).
Qed.


(** With a nonnegative [size], at least one vertex, a successful face
    selection and no index below [-len(verts)], [_render_mesh] raises
    nothing. *)
Lemma render_mesh_some (size : Z) (verts : list rvec3)
    (face_groups : list string) (faces fs : list (list Z)) :
  (0 <= size)%Z -> verts <> [] -> select_faces face_groups faces = Some fs ->
  Forall (Forall (fun vi => - Z.of_nat (List.length verts) <= vi)%Z) fs ->
  exists draws, render_mesh size verts face_groups faces = Some draws.
Proof.
  intros Hs Hv Hsel Hneg. unfold render_mesh.
  replace (PoseGrid.image_new_ok (size, size)) with true
    by (unfold PoseGrid.image_new_ok; simpl;
        now replace (0 <=? size)%Z with true by (symmetry; now apply Z.leb_le)).
  simpl.
  destruct (abs_devs (mean3 verts) verts) as [|d ds] eqn:E.
  { destruct verts as [|v vs]; [contradiction|].
    unfold abs_devs in E. simpl in E.
    destruct (vsub v (mean3 (v :: vs))) as [[? ?] ?]. discriminate. }
  simpl. rewrite Hsel.
  destruct (render_in_range (project size size (mean3 verts) (fold_left Rmax ds d) verts)
              verts fs) as (es & Hr & _); [|exact Hneg|].
  - unfold project. destruct (mean3 verts) as [[? ?] ?].
    apply length_map.
  - eexists. exact Hr.
Qed.

Definition ex_groups : list string :=
  ["body"; "hair"; " body "; "helper-l-eye"].

Definition ex_mesh_faces : list (list Z) :=
  [[0; 1; 3; 2]; [0; 1; 2]; [1; 2; 3]; [-1; -2; -3]]%Z.

Lemma render_mesh_in_frame_witness :
  exists draws, render_mesh 64 ex_verts ex_groups ex_mesh_faces = Some draws
    /\ Forall (fun d => Forall (fun p =>
         IZR 64 / 10 <= fst p <= 9 * IZR 64 / 10
         /\ IZR 64 / 10 <= snd p <= 9 * IZR 64 / 10) (fst d)) draws.
Proof.
  destruct (render_mesh_some 64 ex_verts ex_groups ex_mesh_faces
              [[0; 1; 3; 2]; [1; 2; 3]; [-1; -2; -3]]%Z)
    as [draws Hd].
  - lia.
  - discriminate.
  - reflexivity.
  - unfold ex_verts. simpl. repeat constructor; lia.
  - exists draws. split; [exact Hd|].
    exact (render_mesh_in_frame 64 ex_verts ex_groups ex_mesh_faces draws Hd).
Defined.

End RenderMesh.
